(** * AIC-Choco-Max: the SFU signalling server and the RTSP ingest bridge

    A shallow embedding of the signalling server of
    [BE/sfu-mediasoup/src] (class [SFUServer]) and of its ingest bridge
    (class [RTSPBridge], in the version of [rtsp-bridge.js] that probes
    the stream and retries on an interval), and the properties of the
    design document that can be decided on them.  The media service
    ([mediasoup.js], class [MediaSoupService]), the HTTP routes of the
    server and the start of the process are embedded as far as the
    server and the bridge use them; the ['died'] handler of the worker
    and the normalisation of its log level are not.

    Conventions of the embedding.
    - A handler is followed from its first to its last statement, the
      values it awaits being given as arguments (the answer of the
      media engine, of the probe, of the spawned process).  [None] for
      such an argument means that the awaited call threw or rejected.
      This is the handler when no other handler runs between its
      awaits.  The functions of the bridge that await ([start],
      [startRTSPStream], the callback of a retry interval) are given a
      second time, cut at their awaits, in the section on the bridge
      with its awaits: there a call is suspended at each await and the
      handlers of other events run in between.  What is stated of a
      single call is stated on the first form, which is the second one
      run without interruption; what depends on the events that arrive
      during a call (the exit of ffmpeg, the firing of an interval, the
      start of the process) is stated on the second.
    - Everything a handler does to the outside (messages written to a
      socket, calls that close or signal an engine object or a process,
      timers armed or cleared) is returned as a list of [Effect], in
      program order.  Calls of the logger and of the console are left
      out; [close], [kill] and [clearInterval] do not throw.
    - A [Map] of the code whose entries are visited in order
      ([keys()], [values()], [for ... of]) is a [JsMap.t], an association
      list in insertion order; a [Map] that is only read and written by
      key, or measured by [size], is a [gmap].
    - Identifiers sent by clients ([roomId], [peerId], [transportId],
      [producerId], [consumerId]) are strings, as the protocol documents
      them; a socket that has not joined has [roomId = undefined], which
      is [None]. *)

From Stdlib Require Import ZArith Lia Ascii String DecimalString DecimalN DecimalPos.
From stdpp Require Import base option list strings gmap fin_maps.

(** ** JavaScript [Map] with string keys, in insertion order

    [Array.from(m.keys())] and [for (const v of m.values())] visit the
    entries in the order in which the keys were first inserted;
    [m.set] on a key that is present keeps its position. *)
Module JsMap.

Definition t (V : Type) : Type := list (string * V).

Definition empty {V} : t V := [].

Fixpoint get {V} (m : t V) (k : string) : option V :=
  match m with
  | [] => None
  | (k', v) :: m' => if decide (k' = k) then Some v else get m' k
  end.

Definition has {V} (m : t V) (k : string) : bool :=
  match get m k with Some _ => true | None => false end.

Fixpoint set {V} (m : t V) (k : string) (v : V) : t V :=
  match m with
  | [] => [(k, v)]
  | (k', v') :: m' =>
      if decide (k' = k) then (k, v) :: m' else (k', v') :: set m' k v
  end.

Fixpoint delete {V} (m : t V) (k : string) : t V :=
  match m with
  | [] => []
  | (k', v') :: m' =>
      if decide (k' = k) then delete m' k else (k', v') :: delete m' k
  end.

Definition keys {V} (m : t V) : list string := m.*1.
Definition values {V} (m : t V) : list V := m.*2.
Definition size {V} (m : t V) : nat := length m.
Definition clear {V} (m : t V) : t V := [].

End JsMap.

(** ** Objects handed out by the media engine and by the operating system

    The engine (mediasoup) owns the content of these objects; the server
    only stores them, reads their [id] and calls their methods. *)
Inductive MediaKind := audio | video.

Record RtpCapabilities := { caps_codecs : list string }.

Record Router := { router_id : nat; rtpCapabilities : RtpCapabilities }.

Record Transport := {
  transport_id : string;
  transport_descriptor : string;  (* iceParameters, iceCandidates, dtlsParameters *)
  transport_localPort : N         (* tuple.localPort of a plain transport *)
}.

Record RtpParameters := {
  rtp_mimeType : string;
  rtp_payloadType : N;
  rtp_clockRate : N;
  rtp_ssrc : option Z             (* encodings[0].ssrc; [None]: not a finite number *)
}.

Record Producer := { producer_id : string; producer_kind : MediaKind }.

Global Instance MediaKind_eq_dec : EqDecision MediaKind.
Proof. solve_decision. Defined.

Global Instance Producer_eq_dec : EqDecision Producer.
Proof. solve_decision. Defined.

Record Consumer := {
  consumer_id : string;
  consumer_kind : MediaKind;
  consumer_rtpParameters : RtpParameters
}.

Record ChildProcess := { pid : N }.

Inductive Signal := SIGTERM | SIGKILL.

(** ** Messages of the signalling protocol sent by the server *)
Inductive ServerEvent :=
| router_rtp_capabilities (caps : RtpCapabilities)
| existing_producers (producerIds : list string)
| webrtc_transport_created (transportId descriptor : string)
| transport_connected (transportId : string)
| producer_created (producerId : string)
| new_producer (producerId peerId : string)
| consumer_created (consumerId producerId : string) (kind : MediaKind)
    (rtpParameters : RtpParameters)
| consumer_resumed (consumerId : string)
| error_event (message : string).

(** ** What a handler does to the outside, in program order *)
Inductive Effect :=
(* socket.emit(ev) on the socket with this id *)
| SocketEmit (socketId : string) (ev : ServerEvent)
(* socket.to(room).emit(ev): to the members of a socket.io room, the
   sender excepted *)
| SocketToEmit (sender : string) (room : option string) (ev : ServerEvent)
(* calls into the engine that create an object *)
| CreateRouter
| CreateWebRtcTransport (r : Router)
| CreatePlainTransport (r : option Router)
| TransportProduce (t : Transport) (kind : MediaKind) (rtpParameters : RtpParameters)
| RouterCanConsume (r : Router) (producerId : string)
| TransportConsume (t : Transport) (producerId : string) (paused : bool)
(* calls on engine objects *)
| TransportConnect (t : Transport)
| ConsumerResume (c : Consumer)
| RouterClose (r : Router)
| TransportClose (t : Transport)
| ProducerClose (p : Producer)
| ConsumerClose (c : Consumer)
(* child processes and timers *)
| SpawnFFmpeg (cameraId rtspUrl : string) (videoPort audioPort : N)
| ProcessKill (p : ChildProcess) (sig : Signal)
| SetInterval (timer : nat) (cameraId rtspUrl : string)
| ClearInterval (timer : nat).

(** ** Handlers as state-passing computations

    A computation takes the state, and returns the state it leaves, the
    effects it had, and either its value or the exception it threw.
    An exception keeps the state and the effects reached when it was
    thrown: JavaScript does not roll anything back. *)
Inductive Exn :=
| Error (message : string)   (* throw new Error(message) *)
| TypeError                  (* property access on undefined *)
| Rejected.                  (* an awaited call of the engine rejected *)

Definition Js (S A : Type) : Type := S → S * list Effect * (Exn + A).

Definition ret {S A} (a : A) : Js S A := λ s, (s, [], inr a).

Definition bind {S A B} (m : Js S A) (k : A → Js S B) : Js S B :=
  λ s, match m s with
       | (s1, e1, inr a) => let '(s2, e2, r) := k a s1 in (s2, e1 ++ e2, r)
       | (s1, e1, inl x) => (s1, e1, inl x)
       end.

Definition throw {S A} (x : Exn) : Js S A := λ s, (s, [], inl x).

Definition try_catch {S A} (body : Js S A) (handler : Exn → Js S A) : Js S A :=
  λ s, match body s with
       | (s1, e1, inl x) => let '(s2, e2, r) := handler x s1 in (s2, e1 ++ e2, r)
       | (s1, e1, inr a) => (s1, e1, inr a)
       end.

Definition gets {S A} (f : S → A) : Js S A := λ s, (s, [], inr (f s)).

Definition modify {S} (f : S → S) : Js S unit := λ s, (f s, [], inr tt).

Definition effect {S} (e : Effect) : Js S unit := λ s, (s, [e], inr tt).

Definition effects {S} (es : list Effect) : Js S unit := λ s, (s, es, inr tt).

(** [await (call)]: the call is made, then its answer is received;
    [None] is a rejection. *)
Definition await {S A} (call : Effect) (answer : option A) : Js S A :=
  λ s, (s, [call], match answer with Some a => inr a | None => inl Rejected end).

Definition when {S} (b : bool) (m : Js S unit) : Js S unit :=
  if b then m else ret tt.

(** [x.f] where [x] may be undefined *)
Definition defined {S A} (o : option A) : Js S A :=
  match o with Some a => ret a | None => throw TypeError end.

Declare Scope js_scope.
Delimit Scope js_scope with js.
Notation "x <- m ;; k" := (bind m (λ x, k))
  (at level 100, m at next level, right associativity) : js_scope.
Notation "m ;; k" := (bind m (λ _, k))
  (at level 100, right associativity) : js_scope.
Local Open Scope js_scope.

Definition exec {S A} (m : Js S A) (s : S) : S * list Effect :=
  let '(s', es, _) := m s in (s', es).

(** ** Data model of the ingest bridge ([RTSPBridge]) *)

(** The per-camera object kept in [this.routers]; a property that was
    never assigned and one that was set to [null] are both [None]. *)
Record CameraState := {
  retryTimer : option nat;
  videoTransport : option Transport;
  audioTransport : option Transport;
  ffmpeg : option ChildProcess;
  videoProducer : option Producer;
  audioProducer : option Producer
}.

Definition empty_state : CameraState :=
  {| retryTimer := None; videoTransport := None; audioTransport := None;
     ffmpeg := None; videoProducer := None; audioProducer := None |}.

Record RTSPBridge := {
  ffmpegProcesses : JsMap.t ChildProcess;
  routers : gmap string CameraState;
  bridge_producers : JsMap.t Producer;
  rtspUrls : list string;
  isRunning : bool;
  mainRouter : option Router
}.

(** The intervals armed with [setInterval] and not yet cleared.  The
    callback of each of them closes over the camera id and the URL of
    the call that armed it. *)
Record RetryTimer := {
  timer_id : nat;
  timer_cameraId : string;
  timer_rtspUrl : string
}.

Record EventLoop := { intervals : list RetryTimer; next_timer : nat }.

Record BridgeCtx := { bridge : RTSPBridge; loop : EventLoop }.

(** ** Data model of the signalling server ([SFUServer]) *)

Record Peer := {
  peer_id : string;
  peer_socket : string;                    (* id of the owning socket *)
  peer_transports : JsMap.t Transport;
  peer_producers : JsMap.t Producer;
  peer_consumers : JsMap.t Consumer
}.

(** A peer object is shared: [handleJoinRoom] stores the same object in
    [room.peers] and in [this.peers].  Peer objects live in a store
    ([peer_objects], allocation appends) and both maps hold the index. *)
Record Room := {
  room_router : Router;
  room_peers : gmap string nat;            (* peerId -> peer object *)
  room_producers : JsMap.t Producer
}.

Record SFUServer := {
  rooms : gmap string Room;                (* roomId -> room *)
  peers : gmap string nat;                 (* socket.id -> peer object *)
  peer_objects : list Peer;
  rtspBridge : RTSPBridge
}.

Record Socket := {
  socket_id : string;
  socket_peerId : option string;
  socket_roomId : option string
}.

(** The state a signalling handler works on: the server and the socket
    it was called with. *)
Record Ctx := { this : SFUServer; socket : Socket }.

Definition set_rooms (f : gmap string Room → gmap string Room) (c : Ctx) : Ctx :=
  {| this := {| rooms := f (rooms (this c)); peers := peers (this c);
                peer_objects := peer_objects (this c);
                rtspBridge := rtspBridge (this c) |};
     socket := socket c |}.

Definition set_peers (f : gmap string nat → gmap string nat) (c : Ctx) : Ctx :=
  {| this := {| rooms := rooms (this c); peers := f (peers (this c));
                peer_objects := peer_objects (this c);
                rtspBridge := rtspBridge (this c) |};
     socket := socket c |}.

Definition set_peer_objects (f : list Peer → list Peer) (c : Ctx) : Ctx :=
  {| this := {| rooms := rooms (this c); peers := peers (this c);
                peer_objects := f (peer_objects (this c));
                rtspBridge := rtspBridge (this c) |};
     socket := socket c |}.

Definition set_socket (f : Socket → Socket) (c : Ctx) : Ctx :=
  {| this := this c; socket := f (socket c) |}.

Definition with_room_peers (f : gmap string nat → gmap string nat) (r : Room) : Room :=
  {| room_router := room_router r; room_peers := f (room_peers r);
     room_producers := room_producers r |}.

Definition with_room_producers (f : JsMap.t Producer → JsMap.t Producer) (r : Room) : Room :=
  {| room_router := room_router r; room_peers := room_peers r;
     room_producers := f (room_producers r) |}.

Definition with_transports (f : JsMap.t Transport → JsMap.t Transport) (p : Peer) : Peer :=
  {| peer_id := peer_id p; peer_socket := peer_socket p;
     peer_transports := f (peer_transports p);
     peer_producers := peer_producers p; peer_consumers := peer_consumers p |}.

Definition with_producers (f : JsMap.t Producer → JsMap.t Producer) (p : Peer) : Peer :=
  {| peer_id := peer_id p; peer_socket := peer_socket p;
     peer_transports := peer_transports p;
     peer_producers := f (peer_producers p); peer_consumers := peer_consumers p |}.

Definition with_consumers (f : JsMap.t Consumer → JsMap.t Consumer) (p : Peer) : Peer :=
  {| peer_id := peer_id p; peer_socket := peer_socket p;
     peer_transports := peer_transports p;
     peer_producers := peer_producers p; peer_consumers := f (peer_consumers p) |}.

(** [this.peers.get(socket.id)]: the index of the peer object and the
    object. *)
Definition peers_get (s : SFUServer) (socketId : string) : option (nat * Peer) :=
  match peers s !! socketId with
  | Some ref =>
      match peer_objects s !! ref with
      | Some p => Some (ref, p)
      | None => None
      end
  | None => None
  end.

(** [this.rooms.get(socket.roomId)]; no room is stored under the key
    [undefined]. *)
Definition rooms_get (s : SFUServer) (roomId : option string) : option Room :=
  match roomId with
  | Some r => rooms s !! r
  | None => None
  end.

(** Mutation of the room object stored under [roomId], and of the peer
    object at [ref]. *)
Definition update_room (roomId : option string) (f : Room → Room) : Js Ctx unit :=
  match roomId with
  | Some r => modify (set_rooms (λ m, match m !! r with
                                       | Some room => <[r := f room]> m
                                       | None => m
                                       end))
  | None => ret tt
  end.

Definition update_peer (ref : nat) (f : Peer → Peer) : Js Ctx unit :=
  modify (set_peer_objects (λ h, match h !! ref with
                                  | Some p => <[ref := f p]> h
                                  | None => h
                                  end)).

Definition emit (ev : ServerEvent) : Js Ctx unit :=
  λ c, (c, [SocketEmit (socket_id (socket c)) ev], inr tt).

(** [socket.to(socket.roomId).emit(ev)] *)
Definition emit_to_room (ev : ServerEvent) : Js Ctx unit :=
  λ c, (c, [SocketToEmit (socket_id (socket c)) (socket_roomId (socket c)) ev],
        inr tt).

(** ** The signalling handlers of [SFUServer] *)

Definition new_room (router : Router) : Room :=
  {| room_router := router; room_peers := ∅; room_producers := JsMap.empty |}.

Definition new_peer (peerId socketId : string) : Peer :=
  {| peer_id := peerId; peer_socket := socketId;
     peer_transports := JsMap.empty; peer_producers := JsMap.empty;
     peer_consumers := JsMap.empty |}.

(** [handleJoinRoom(socket, { roomId, peerId })]; [createRouter] is the
    answer of [this.mediasoup.createRouter()], asked for only when the
    room does not exist yet. *)
Definition handleJoinRoom (roomId peerId : string) (createRouter : option Router)
    : Js Ctx unit :=
  try_catch
    (known <- gets (λ c, rooms (this c) !! roomId) ;;
     match known with
     | Some _ => ret tt
     | None =>
         router <- await CreateRouter createRouter ;;
         modify (set_rooms <[roomId := new_room router]>)
     end ;;
     room <- gets (λ c, rooms (this c) !! roomId) ;;
     socketId <- gets (λ c, socket_id (socket c)) ;;
     ref <- gets (λ c, length (peer_objects (this c))) ;;
     modify (set_peer_objects (λ h, h ++ [new_peer peerId socketId])) ;;
     defined room ;;
     update_room (Some roomId) (with_room_peers <[peerId := ref]>) ;;
     modify (set_peers <[socketId := ref]>) ;;
     modify (set_socket (λ s, {| socket_id := socket_id s;
                                 socket_peerId := Some peerId;
                                 socket_roomId := Some roomId |})) ;;
     room <- gets (λ c, rooms (this c) !! roomId) ;;
     room <- defined room ;;
     emit (router_rtp_capabilities (rtpCapabilities (room_router room))) ;;
     let producerIds := JsMap.keys (room_producers room) in
     when (0 <? length producerIds)%nat
       (emit (existing_producers producerIds)))
    (λ _, emit (error_event "Failed to join room")).

(** The common opening of the handlers: the peer of the socket and the
    room of the socket, or [throw new Error('Peer or room not found')]. *)
Definition peer_and_room : Js Ctx (nat * Peer * Room) :=
  peer <- gets (λ c, peers_get (this c) (socket_id (socket c))) ;;
  room <- gets (λ c, rooms_get (this c) (socket_roomId (socket c))) ;;
  match peer, room with
  | Some (ref, p), Some r => ret (ref, p, r)
  | _, _ => throw (Error "Peer or room not found")
  end.

(** [handleCreateWebRTCTransport(socket, { direction })]; the direction
    is not read. *)
Definition handleCreateWebRTCTransport (created : option Transport) : Js Ctx unit :=
  try_catch
    (found <- peer_and_room ;;
     let '(ref, peer, room) := found in
     transport <- await (CreateWebRtcTransport (room_router room)) created ;;
     update_peer ref (with_transports
       (λ m, JsMap.set m (transport_id transport) transport)) ;;
     emit (webrtc_transport_created (transport_id transport)
             (transport_descriptor transport)))
    (λ _, emit (error_event "Failed to create transport")).

(** [handleConnectTransport(socket, { transportId, dtlsParameters })];
    [connected] tells whether [transport.connect] resolved. *)
Definition handleConnectTransport (transportId : string) (connected : option unit)
    : Js Ctx unit :=
  try_catch
    (peer <- gets (λ c, peers_get (this c) (socket_id (socket c))) ;;
     match peer with
     | None => throw (Error "Peer not found")
     | Some (_, peer) =>
         match JsMap.get (peer_transports peer) transportId with
         | None => throw (Error "Transport not found")
         | Some transport =>
             await (TransportConnect transport) connected ;;
             emit (transport_connected transportId)
         end
     end)
    (λ _, emit (error_event "Failed to connect transport")).

(** [handleProduce(socket, { transportId, kind, rtpParameters })] *)
Definition handleProduce (transportId : string) (kind : MediaKind)
    (rtpParameters : RtpParameters) (produced : option Producer) : Js Ctx unit :=
  try_catch
    (found <- peer_and_room ;;
     let '(ref, peer, room) := found in
     match JsMap.get (peer_transports peer) transportId with
     | None => throw (Error "Transport not found")
     | Some transport =>
         producer <- await (TransportProduce transport kind rtpParameters) produced ;;
         update_peer ref (with_producers
           (λ m, JsMap.set m (producer_id producer) producer)) ;;
         roomId <- gets (λ c, socket_roomId (socket c)) ;;
         update_room roomId (with_room_producers
           (λ m, JsMap.set m (producer_id producer) producer)) ;;
         emit_to_room (new_producer (producer_id producer) (peer_id peer)) ;;
         emit (producer_created (producer_id producer))
     end)
    (λ _, emit (error_event "Failed to create producer")).

(** [handleConsume(socket, { transportId, producerId, rtpCapabilities })];
    [canConsume] is the answer of [room.router.canConsume] and
    [consumed] that of [transport.consume].  [consume_body] is the
    [try] block. *)
Definition consume_body (transportId producerId : string) (canConsume : bool)
    (consumed : option Consumer) : Js Ctx unit :=
  found <- peer_and_room ;;
  let '(ref, peer, room) := found in
  match JsMap.get (peer_transports peer) transportId,
        JsMap.get (room_producers room) producerId with
  | Some transport, Some producer =>
      effect (RouterCanConsume (room_router room) producerId) ;;
      if negb canConsume then throw (Error "Cannot consume") else
      consumer <- await (TransportConsume transport producerId true) consumed ;;
      update_peer ref (with_consumers
        (λ m, JsMap.set m (consumer_id consumer) consumer)) ;;
      emit (consumer_created (consumer_id consumer) producerId
              (consumer_kind consumer) (consumer_rtpParameters consumer))
  | _, _ => throw (Error "Transport or producer not found")
  end.

Definition handleConsume (transportId producerId : string) (canConsume : bool)
    (consumed : option Consumer) : Js Ctx unit :=
  try_catch (consume_body transportId producerId canConsume consumed)
    (λ _, emit (error_event "Failed to create consumer")).

(** [handleResumeConsumer(socket, { consumerId })] *)
Definition handleResumeConsumer (consumerId : string) (resumed : option unit)
    : Js Ctx unit :=
  try_catch
    (peer <- gets (λ c, peers_get (this c) (socket_id (socket c))) ;;
     match peer with
     | None => throw (Error "Peer not found")
     | Some (_, peer) =>
         match JsMap.get (peer_consumers peer) consumerId with
         | None => throw (Error "Consumer not found")
         | Some consumer =>
             await (ConsumerResume consumer) resumed ;;
             emit (consumer_resumed consumerId)
         end
     end)
    (λ _, emit (error_event "Failed to resume consumer")).

(** The loop [for (const producer of peer.producers.values())
    { room.producers.delete(producer.id); producer.close(); }] *)
Definition remove_producers (ps : list Producer) (m : JsMap.t Producer)
    : JsMap.t Producer :=
  foldl (λ m p, JsMap.delete m (producer_id p)) m ps.

(** [handleDisconnect(socket)] *)
Definition handleDisconnect : Js Ctx unit :=
  peer <- gets (λ c, peers_get (this c) (socket_id (socket c))) ;;
  match peer with
  | None => ret tt
  | Some (_, peer) =>
      roomId <- gets (λ c, socket_roomId (socket c)) ;;
      room <- gets (λ c, rooms_get (this c) roomId) ;;
      match room with
      | Some _ =>
          effects (TransportClose <$> JsMap.values (peer_transports peer)) ;;
          update_room roomId (with_room_producers
            (remove_producers (JsMap.values (peer_producers peer)))) ;;
          effects (ProducerClose <$> JsMap.values (peer_producers peer)) ;;
          effects (ConsumerClose <$> JsMap.values (peer_consumers peer)) ;;
          update_room roomId (with_room_peers (delete (peer_id peer))) ;;
          room <- gets (λ c, rooms_get (this c) roomId) ;;
          match room, roomId with
          | Some room, Some r =>
              when (bool_decide (size (room_peers room) = 0))
                (effect (RouterClose (room_router room)) ;;
                 modify (set_rooms (delete r)))
          | _, _ => ret tt
          end
      | None => ret tt
      end ;;
      socketId <- gets (λ c, socket_id (socket c)) ;;
      modify (set_peers (delete socketId))
  end.

(** ** Messages received on a socket

    Each message carries, besides its payload, the answers of the
    engine calls its handler awaits. *)
Inductive Command :=
| join_room (roomId peerId : string) (createRouter : option Router)
| create_webrtc_transport (created : option Transport)
| connect_transport (transportId : string) (connected : option unit)
| produce (transportId : string) (kind : MediaKind)
    (rtpParameters : RtpParameters) (produced : option Producer)
| consume (transportId producerId : string) (canConsume : bool)
    (consumed : option Consumer)
| resume_consumer (consumerId : string) (resumed : option unit)
| disconnect.

(** [setupSocketHandlers]: the dispatch on the event name *)
Definition handle (cmd : Command) : Js Ctx unit :=
  match cmd with
  | join_room roomId peerId createRouter => handleJoinRoom roomId peerId createRouter
  | create_webrtc_transport created => handleCreateWebRTCTransport created
  | connect_transport transportId connected =>
      handleConnectTransport transportId connected
  | produce transportId kind rtpParameters produced =>
      handleProduce transportId kind rtpParameters produced
  | consume transportId producerId canConsume consumed =>
      handleConsume transportId producerId canConsume consumed
  | resume_consumer consumerId resumed => handleResumeConsumer consumerId resumed
  | disconnect => handleDisconnect
  end.

(** The bridge before [start()]: the constructor of [RTSPBridge] *)
Definition new_bridge (urls : list string) : RTSPBridge :=
  {| ffmpegProcesses := JsMap.empty; routers := ∅;
     bridge_producers := JsMap.empty; rtspUrls := urls;
     isRunning := false; mainRouter := None |}.

(** The constructor of [SFUServer] *)
Definition new_server (urls : list string) : SFUServer :=
  {| rooms := ∅; peers := ∅; peer_objects := []; rtspBridge := new_bridge urls |}.

(** A socket as socket.io hands it to the connection handler *)
Definition new_socket (socketId : string) : Socket :=
  {| socket_id := socketId; socket_peerId := None; socket_roomId := None |}.

(** ** String functions of JavaScript used by the bridge

    A string is the UTF-8 encoding of the JavaScript string, as in the
    literals of this file; the functions below agree with JavaScript's
    on the encodings of strings without lone surrogates.  Lengths are
    taken of ASCII strings only.

    A number is a double: an integer that a double holds, an infinity,
    or NaN (0 and -0 are one number here: nothing below tells them
    apart).  [to_double] is the rounding of an integer to the nearest
    double, ties to even, the integers up to 2^53 being themselves. *)
Inductive Number :=
| NaN
| Num (z : Z)
| Infinity (negative : bool).

Module Str.

(** The white space of one byte: tab, line feed, vertical tab, form
    feed, carriage return, space *)
Definition is_space (c : ascii) : bool :=
  let n := N_of_ascii c in
  ((9 <=? n) && (n <=? 13) || (n =? 32))%N.

(** The number of bytes of the white space character a string begins
    with, 0 if it begins with none.  The white space of [trim] and of
    [parseInt] is WhiteSpace and LineTerminator of the language: the
    six characters above, U+00A0 (C2 A0), U+1680 (E1 9A 80), U+2000 to
    U+200A (E2 80 80 to E2 80 8A), U+2028 and U+2029 (E2 80 A8, A9),
    U+202F (E2 80 AF), U+205F (E2 81 9F), U+3000 (E3 80 80) and U+FEFF
    (EF BB BF). *)
Definition space_width (s : string) : nat :=
  match s with
  | String c s1 =>
      if is_space c then 1 else
      match s1 with
      | String c1 s2 =>
          let n := N_of_ascii c in
          let n1 := N_of_ascii c1 in
          if ((n =? 194) && (n1 =? 160))%N then 2 else
          match s2 with
          | String c2 _ =>
              let n2 := N_of_ascii c2 in
              if ((n =? 225) && (n1 =? 154) && (n2 =? 128)
                  || (n =? 226) && (n1 =? 128) &&
                       ((128 <=? n2) && (n2 <=? 138) || (n2 =? 168) || (n2 =? 169)
                        || (n2 =? 175))
                  || (n =? 226) && (n1 =? 129) && (n2 =? 159)
                  || (n =? 227) && (n1 =? 128) && (n2 =? 128)
                  || (n =? 239) && (n1 =? 187) && (n2 =? 191))%N
              then 3 else 0
          | EmptyString => 0
          end
      | EmptyString => 0
      end
  | EmptyString => 0
  end.

Fixpoint trimStart (s : string) : string :=
  match s with
  | String _ s1 =>
      match space_width s with
      | 0 => s
      | 1 => trimStart s1
      | 2 => match s1 with
             | String _ s2 => trimStart s2
             | EmptyString => s
             end
      | _ => match s1 with
             | String _ (String _ s3) => trimStart s3
             | _ => s
             end
      end
  | EmptyString => EmptyString
  end.

(** Nothing but white space *)
Definition blank (s : string) : bool :=
  match trimStart s with
  | EmptyString => true
  | _ => false
  end.

Fixpoint trimEnd (s : string) : string :=
  match s with
  | String c s' => if blank s then EmptyString else String c (trimEnd s')
  | EmptyString => EmptyString
  end.

Definition trim (s : string) : string := trimEnd (trimStart s).

Fixpoint drop (n : nat) (s : string) : string :=
  match n, s with
  | S n', String _ s' => drop n' s'
  | _, _ => s
  end.

(** [s.replace(pattern, replacement)] with a string pattern: the first
    occurrence only *)
Fixpoint replace (pattern replacement s : string) : string :=
  if String.prefix pattern s
  then replacement +:+ drop (String.length pattern) s
  else match s with
       | String c s' => String c (replace pattern replacement s')
       | EmptyString => EmptyString
       end.

(** [n.toString()] of a non-negative integer *)
Definition toString (n : N) : string := NilZero.string_of_uint (N.to_uint n).

Fixpoint repeat (c : ascii) (n : nat) : string :=
  match n with
  | O => EmptyString
  | S n' => String c (repeat c n')
  end.

(** [s.padStart(targetLength, c)] with a one-character filler *)
Definition padStart (targetLength : nat) (c : ascii) (s : string) : string :=
  repeat c (targetLength - String.length s) +:+ s.

Definition digit_value (c : ascii) : option N :=
  let n := N_of_ascii c in
  if ((48 <=? n) && (n <=? 57))%N then Some (n - 48)%N else None.

Definition hex_value (c : ascii) : option N :=
  let n := N_of_ascii c in
  if ((48 <=? n) && (n <=? 57))%N then Some (n - 48)%N
  else if ((97 <=? n) && (n <=? 102))%N then Some (n - 87)%N
  else if ((65 <=? n) && (n <=? 70))%N then Some (n - 55)%N
  else None.

(** The longest prefix of digits, read in the radix; [None] when there
    is no digit (NaN). *)
Fixpoint parse_digits (value : ascii → option N) (radix : N) (acc : option N)
    (s : string) : option N :=
  match s with
  | String c s' =>
      match value c with
      | Some d => parse_digits value radix (Some (radix * default 0 acc + d)%N) s'
      | None => acc
      end
  | EmptyString => acc
  end.

(** The double nearest to an integer *)
Definition to_double (z : Z) : Number :=
  let m := Z.abs z in
  if (m <=? 2 ^ 53)%Z then Num z else
  let e := (Z.log2 m - 52)%Z in          (* m / 2^e has 53 bits *)
  let q := Z.shiftr m e in
  let r := (m - Z.shiftl q e)%Z in
  let half := Z.shiftl 1 (e - 1) in
  let q' := if ((half <? r) || (r =? half) && Z.odd q)%Z then (q + 1)%Z else q in
  let v := Z.shiftl q' e in
  if (2 ^ 1024 <=? v)%Z then Infinity (z <? 0)%Z else Num (Z.sgn z * v)%Z.

(** [a + b] of two numbers *)
Definition add (a b : Number) : Number :=
  match a, b with
  | Num x, Num y => to_double (x + y)
  | NaN, _ | _, NaN => NaN
  | Infinity s, Num _ | Num _, Infinity s => Infinity s
  | Infinity s, Infinity t => if Bool.eqb s t then Infinity s else NaN
  end.

(** The integer a number is, when it is finite *)
Definition finite (x : Number) : option Z :=
  match x with
  | Num z => Some z
  | _ => None
  end.

(** [parseInt(s)] without a radix: leading white space, a sign, the
    prefix 0x or 0X for radix 16, then the digits; the double nearest
    to the integer they denote (as Node computes it), NaN when there is
    no digit. *)
Definition parseInt (s : string) : Number :=
  let s := trimStart s in
  let '(sign, s) :=
    match s with
    | String c r =>
        if (N_of_ascii c =? 45)%N then ((-1)%Z, r)        (* - *)
        else if (N_of_ascii c =? 43)%N then (1%Z, r)      (* + *)
        else (1%Z, s)
    | EmptyString => (1%Z, s)
    end in
  let magnitude :=
    match s with
    | String c0 (String c1 r) =>
        if ((N_of_ascii c0 =? 48) &&
            ((N_of_ascii c1 =? 120) || (N_of_ascii c1 =? 88)))%N   (* 0x, 0X *)
        then parse_digits hex_value 16 None r
        else parse_digits digit_value 10 None s
    | _ => parse_digits digit_value 10 None s
    end in
  match magnitude with
  | Some n => to_double (sign * Z.of_N n)
  | None => NaN
  end.

End Str.

(** ** The ingest bridge ([RTSPBridge]) *)

Definition set_bridge (f : RTSPBridge → RTSPBridge) (c : BridgeCtx) : BridgeCtx :=
  {| bridge := f (bridge c); loop := loop c |}.

Definition with_ffmpegProcesses (f : JsMap.t ChildProcess → JsMap.t ChildProcess)
    (b : RTSPBridge) : RTSPBridge :=
  {| ffmpegProcesses := f (ffmpegProcesses b); routers := routers b;
     bridge_producers := bridge_producers b; rtspUrls := rtspUrls b;
     isRunning := isRunning b; mainRouter := mainRouter b |}.

Definition with_routers (f : gmap string CameraState → gmap string CameraState)
    (b : RTSPBridge) : RTSPBridge :=
  {| ffmpegProcesses := ffmpegProcesses b; routers := f (routers b);
     bridge_producers := bridge_producers b; rtspUrls := rtspUrls b;
     isRunning := isRunning b; mainRouter := mainRouter b |}.

Definition with_bridge_producers (f : JsMap.t Producer → JsMap.t Producer)
    (b : RTSPBridge) : RTSPBridge :=
  {| ffmpegProcesses := ffmpegProcesses b; routers := routers b;
     bridge_producers := f (bridge_producers b); rtspUrls := rtspUrls b;
     isRunning := isRunning b; mainRouter := mainRouter b |}.

Definition with_isRunning (v : bool) (b : RTSPBridge) : RTSPBridge :=
  {| ffmpegProcesses := ffmpegProcesses b; routers := routers b;
     bridge_producers := bridge_producers b; rtspUrls := rtspUrls b;
     isRunning := v; mainRouter := mainRouter b |}.

Definition with_mainRouter (v : option Router) (b : RTSPBridge) : RTSPBridge :=
  {| ffmpegProcesses := ffmpegProcesses b; routers := routers b;
     bridge_producers := bridge_producers b; rtspUrls := rtspUrls b;
     isRunning := isRunning b; mainRouter := v |}.

Definition with_retryTimer (v : option nat) (st : CameraState) : CameraState :=
  {| retryTimer := v; videoTransport := videoTransport st;
     audioTransport := audioTransport st; ffmpeg := ffmpeg st;
     videoProducer := videoProducer st; audioProducer := audioProducer st |}.

Definition with_videoTransport (v : option Transport) (st : CameraState) : CameraState :=
  {| retryTimer := retryTimer st; videoTransport := v;
     audioTransport := audioTransport st; ffmpeg := ffmpeg st;
     videoProducer := videoProducer st; audioProducer := audioProducer st |}.

Definition with_audioTransport (v : option Transport) (st : CameraState) : CameraState :=
  {| retryTimer := retryTimer st; videoTransport := videoTransport st;
     audioTransport := v; ffmpeg := ffmpeg st;
     videoProducer := videoProducer st; audioProducer := audioProducer st |}.

Definition with_ffmpeg (v : option ChildProcess) (st : CameraState) : CameraState :=
  {| retryTimer := retryTimer st; videoTransport := videoTransport st;
     audioTransport := audioTransport st; ffmpeg := v;
     videoProducer := videoProducer st; audioProducer := audioProducer st |}.

Definition with_videoProducer (v : option Producer) (st : CameraState) : CameraState :=
  {| retryTimer := retryTimer st; videoTransport := videoTransport st;
     audioTransport := audioTransport st; ffmpeg := ffmpeg st;
     videoProducer := v; audioProducer := audioProducer st |}.

Definition with_audioProducer (v : option Producer) (st : CameraState) : CameraState :=
  {| retryTimer := retryTimer st; videoTransport := videoTransport st;
     audioTransport := audioTransport st; ffmpeg := ffmpeg st;
     videoProducer := videoProducer st; audioProducer := v |}.

(** The camera object [state]: every closure of a camera holds the
    object stored in [this.routers] under the camera id (an entry is
    never replaced by another object), so [state.x] is read, and
    [state.x = v] written, through the map. *)
Definition state_of (cameraId : string) : Js BridgeCtx CameraState :=
  gets (λ c, default empty_state (routers (bridge c) !! cameraId)).

Definition update_state (cameraId : string) (f : CameraState → CameraState)
    : Js BridgeCtx unit :=
  modify (set_bridge (with_routers (λ m, match m !! cameraId with
                                          | Some st => <[cameraId := f st]> m
                                          | None => m
                                          end))).

(** [clearInterval(h)]; nothing happens for [null] and [undefined] *)
Definition clearInterval (h : option nat) : Js BridgeCtx unit :=
  match h with
  | Some t =>
      effect (ClearInterval t) ;;
      modify (λ c, {| bridge := bridge c;
                      loop := {| intervals :=
                                   filter (λ x, timer_id x ≠ t) (intervals (loop c));
                                 next_timer := next_timer (loop c) |} |})
  | None => ret tt
  end.

(** [setInterval(callback, 10000)], the callback being the retry
    callback of this camera and URL; returns the handle. *)
Definition setInterval (cameraId rtspUrl : string) : Js BridgeCtx nat :=
  t <- gets (λ c, next_timer (loop c)) ;;
  effect (SetInterval t cameraId rtspUrl) ;;
  modify (λ c, {| bridge := bridge c;
                  loop := {| intervals := intervals (loop c) ++
                               [{| timer_id := t; timer_cameraId := cameraId;
                                   timer_rtspUrl := rtspUrl |}];
                             next_timer := S t |} |}) ;;
  ret t.

(** The three places that arm the retry loop do the same:
    [if (state.retryTimer) clearInterval(state.retryTimer);
     state.retryTimer = setInterval(...)] *)
Definition arm_retry (cameraId rtspUrl : string) : Js BridgeCtx unit :=
  st <- state_of cameraId ;;
  clearInterval (retryTimer st) ;;
  t <- setInterval cameraId rtspUrl ;;
  update_state cameraId (with_retryTimer (Some t)).

(** [cam${(i + 1).toString().padStart(2, '0')}] *)
Definition cameraId_of (i : nat) : string :=
  "cam" +:+ Str.padStart 2 "0" (Str.toString (N.of_nat (i + 1))).

(** [base + parseInt(cameraId.replace('cam', ''))]; [None] when the sum
    is not a finite number *)
Definition ssrc_of (base : Z) (cameraId : string) : option Z :=
  Str.finite (Str.add (Num base) (Str.parseInt (Str.replace "cam" "" cameraId))).

Definition video_ssrc_base : Z := 11111111.
Definition audio_ssrc_base : Z := 22222222.

Definition ssrc (kind : MediaKind) (cameraId : string) : option Z :=
  match kind with
  | video => ssrc_of video_ssrc_base cameraId
  | audio => ssrc_of audio_ssrc_base cameraId
  end.

Definition video_rtpParameters (cameraId : string) : RtpParameters :=
  {| rtp_mimeType := "video/H264"; rtp_payloadType := 96; rtp_clockRate := 90000;
     rtp_ssrc := ssrc video cameraId |}.

Definition audio_rtpParameters (cameraId : string) : RtpParameters :=
  {| rtp_mimeType := "audio/opus"; rtp_payloadType := 97; rtp_clockRate := 48000;
     rtp_ssrc := ssrc audio cameraId |}.

(** What one run of [startRTSPStream] is answered by the calls it
    awaits. *)
Record StreamAnswers := {
  available : bool;                          (* checkStreamAvailable(rtspUrl) *)
  videoTransport_created : option Transport; (* createPlainTransport *)
  audioTransport_created : option Transport;
  spawned : ChildProcess;                    (* spawn('ffmpeg', ...) *)
  started : bool;       (* startFFmpegProcess resolved; false: rejected on 'error' *)
  videoProducer_created : option Producer;   (* videoTransport.produce *)
  audioProducer_created : option Producer
}.

(** [startFFmpegProcess(rtspUrl, cameraId, videoPort, audioPort)] up to
    the settlement of its promise.  The handlers it registers on the
    process are [ffmpeg_close] below and the rejection on ['error']. *)
Definition startFFmpegProcess (rtspUrl cameraId : string) (videoPort audioPort : N)
    (a : StreamAnswers) : Js BridgeCtx ChildProcess :=
  effect (SpawnFFmpeg cameraId rtspUrl videoPort audioPort) ;;
  modify (set_bridge (with_ffmpegProcesses
    (λ m, JsMap.set m cameraId (spawned a)))) ;;
  if started a then ret (spawned a) else throw Rejected.

(** [startRTSPStream(rtspUrl, cameraId)] *)
Definition startRTSPStream (rtspUrl cameraId : string) (a : StreamAnswers)
    : Js BridgeCtx unit :=
  try_catch
    (known <- gets (λ c, routers (bridge c) !! cameraId) ;;
     match known with
     | Some _ => ret tt
     | None => modify (set_bridge (with_routers <[cameraId := empty_state]>))
     end ;;
     if negb (available a) then arm_retry cameraId rtspUrl else
     router <- gets (λ c, mainRouter (bridge c)) ;;
     videoT <- await (CreatePlainTransport router) (videoTransport_created a) ;;
     audioT <- await (CreatePlainTransport router) (audioTransport_created a) ;;
     update_state cameraId (with_videoTransport (Some videoT)) ;;
     update_state cameraId (with_audioTransport (Some audioT)) ;;
     process <- startFFmpegProcess rtspUrl cameraId
                  (transport_localPort videoT) (transport_localPort audioT) a ;;
     update_state cameraId (with_ffmpeg (Some process)) ;;
     try_catch
       (videoP <- await (TransportProduce videoT video (video_rtpParameters cameraId))
                    (videoProducer_created a) ;;
        audioP <- await (TransportProduce audioT audio (audio_rtpParameters cameraId))
                    (audioProducer_created a) ;;
        modify (set_bridge (with_bridge_producers
          (λ m, JsMap.set m (cameraId +:+ "_video") videoP))) ;;
        modify (set_bridge (with_bridge_producers
          (λ m, JsMap.set m (cameraId +:+ "_audio") audioP))) ;;
        update_state cameraId (with_videoProducer (Some videoP)) ;;
        update_state cameraId (with_audioProducer (Some audioP)))
       (λ _,
        effect (TransportClose videoT) ;;
        effect (TransportClose audioT) ;;
        st <- state_of cameraId ;;
        match ffmpeg st with
        | Some p =>
            effect (ProcessKill p SIGTERM) ;;
            update_state cameraId (with_ffmpeg None)
        | None => ret tt
        end ;;
        running <- gets (λ c, isRunning (bridge c)) ;;
        when running (arm_retry cameraId rtspUrl)))
    (λ _, ret tt).

(** The callback of the retry interval; [ok] is the answer of the probe
    and [a] answers the attempt the callback starts when [ok]. *)
Definition retry_tick (cameraId rtspUrl : string) (ok : bool) (a : StreamAnswers)
    : Js BridgeCtx unit :=
  running <- gets (λ c, isRunning (bridge c)) ;;
  if negb running then ret tt else
  if negb ok then ret tt else
  st <- state_of cameraId ;;
  clearInterval (retryTimer st) ;;
  update_state cameraId (with_retryTimer None) ;;
  startRTSPStream rtspUrl cameraId a.

(** The handler of the ['close'] event of the ffmpeg process of a
    camera ([ffmpeg.on('close', (code) => ...)]); the exit code is only
    logged.  When the camera has no entry in [this.routers] the handler
    works on a fresh object, which it stores only if the bridge runs. *)
Definition ffmpeg_close (cameraId rtspUrl : string) (code : option Z)
    : Js BridgeCtx unit :=
  modify (set_bridge (with_ffmpegProcesses (λ m, JsMap.delete m cameraId))) ;;
  known <- gets (λ c, routers (bridge c) !! cameraId) ;;
  let st := default empty_state known in
  match videoProducer st with
  | Some p =>
      effect (ProducerClose p) ;;
      modify (set_bridge (with_bridge_producers
        (λ m, JsMap.delete m (cameraId +:+ "_video"))))
  | None => ret tt
  end ;;
  match audioProducer st with
  | Some p =>
      effect (ProducerClose p) ;;
      modify (set_bridge (with_bridge_producers
        (λ m, JsMap.delete m (cameraId +:+ "_audio"))))
  | None => ret tt
  end ;;
  match videoTransport st with
  | Some t => effect (TransportClose t)
  | None => ret tt
  end ;;
  match audioTransport st with
  | Some t => effect (TransportClose t)
  | None => ret tt
  end ;;
  update_state cameraId
    (λ st, with_audioTransport None (with_videoTransport None
             (with_audioProducer None (with_videoProducer None st)))) ;;
  running <- gets (λ c, isRunning (bridge c)) ;;
  when running
    (match known with
     | Some _ => ret tt
     | None => modify (set_bridge (with_routers <[cameraId := empty_state]>))
     end ;;
     arm_retry cameraId rtspUrl).

(** [start()]; [answers i] answers the attempt of the camera at
    position [i] of the list. *)
Definition maxCams : nat := 6.

Fixpoint start_streams (i : nat) (urls : list string) (answers : nat → StreamAnswers)
    : Js BridgeCtx unit :=
  match urls with
  | [] => ret tt
  | url :: urls' =>
      startRTSPStream (Str.trim url) (cameraId_of i) (answers i) ;;
      start_streams (S i) urls' answers
  end.

Definition start (createRouter : option Router) (answers : nat → StreamAnswers)
    : Js BridgeCtx unit :=
  running <- gets (λ c, isRunning (bridge c)) ;;
  if running then ret tt else
  try_catch
    (modify (set_bridge (with_isRunning true)) ;;
     router <- await CreateRouter createRouter ;;
     modify (set_bridge (with_mainRouter (Some router))) ;;
     urls <- gets (λ c, rtspUrls (bridge c)) ;;
     start_streams 0 (take maxCams urls) answers)
    (λ e, modify (set_bridge (with_isRunning false)) ;; throw e).

(** [stop()] *)
Definition stop : Js BridgeCtx unit :=
  modify (set_bridge (with_isRunning false)) ;;
  processes <- gets (λ c, JsMap.values (ffmpegProcesses (bridge c))) ;;
  effects ((λ p, ProcessKill p SIGTERM) <$> processes) ;;
  producers <- gets (λ c, JsMap.values (bridge_producers (bridge c))) ;;
  effects (ProducerClose <$> producers) ;;
  router <- gets (λ c, mainRouter (bridge c)) ;;
  match router with
  | Some r => effect (RouterClose r)
  | None => ret tt
  end ;;
  modify (set_bridge (with_ffmpegProcesses JsMap.clear)) ;;
  modify (set_bridge (with_bridge_producers JsMap.clear)).

(** ** The process as a whole: server, connected sockets, timers *)
Record World := {
  server : SFUServer;
  sockets : gmap string Socket;   (* the sockets socket.io has handed out *)
  timers : EventLoop
}.

Definition new_world (urls : list string) : World :=
  {| server := new_server urls; sockets := ∅;
     timers := {| intervals := []; next_timer := 0 |} |}.

(** The socket object with this id: the one handed out earlier, or a
    new connection. *)
Definition socket_of (w : World) (socketId : string) : Socket :=
  match sockets w !! socketId with
  | Some s => {| socket_id := socketId; socket_peerId := socket_peerId s;
                 socket_roomId := socket_roomId s |}
  | None => new_socket socketId
  end.

Definition with_rtspBridge (b : RTSPBridge) (s : SFUServer) : SFUServer :=
  {| rooms := rooms s; peers := peers s; peer_objects := peer_objects s;
     rtspBridge := b |}.

Definition run_socket (socketId : string) (m : Js Ctx unit) (w : World)
    : World * list Effect :=
  let '(c, es) := exec m {| this := server w; socket := socket_of w socketId |} in
  ({| server := this c; sockets := <[socketId := socket c]> (sockets w);
      timers := timers w |}, es).

Definition run_bridge (m : Js BridgeCtx unit) (w : World) : World * list Effect :=
  let '(c, es) := exec m {| bridge := rtspBridge (server w); loop := timers w |} in
  ({| server := with_rtspBridge (bridge c) (server w); sockets := sockets w;
      timers := loop c |}, es).

Inductive Event :=
| on_socket (socketId : string) (cmd : Command)
| on_start (createRouter : option Router) (answers : nat → StreamAnswers)
| on_interval (timer : nat) (ok : bool) (a : StreamAnswers)
| on_ffmpeg_close (cameraId rtspUrl : string) (code : option Z)
| on_stop.

(** An interval fires only while it is armed. *)
Definition find_timer (w : World) (timer : nat) : option RetryTimer :=
  List.find (λ x, bool_decide (timer_id x = timer)) (intervals (timers w)).

Definition step (w : World) (ev : Event) : World * list Effect :=
  match ev with
  | on_socket socketId cmd => run_socket socketId (handle cmd) w
  | on_start createRouter answers => run_bridge (start createRouter answers) w
  | on_interval timer ok a =>
      match find_timer w timer with
      | Some x => run_bridge (retry_tick (timer_cameraId x) (timer_rtspUrl x) ok a) w
      | None => (w, [])
      end
  | on_ffmpeg_close cameraId rtspUrl code =>
      run_bridge (ffmpeg_close cameraId rtspUrl code) w
  | on_stop => run_bridge stop w
  end.

Fixpoint run (w : World) (evs : list Event) : World * list Effect :=
  match evs with
  | [] => (w, [])
  | ev :: evs' =>
      let '(w1, es1) := step w ev in
      let '(w2, es2) := run w1 evs' in
      (w2, es1 ++ es2)
  end.

(** The messages written to one socket, in order *)
Definition emitted_to (socketId : string) (es : list Effect) : list ServerEvent :=
  omap (λ e, match e with
             | SocketEmit to ev => if decide (to = socketId) then Some ev else None
             | _ => None
             end) es.

(** ** The availability probe ([checkStreamAvailable])

    The promise is followed over the events of the ffprobe process and
    of the 4000 ms timer, in the order in which their handlers run.
    [resolve] settles a promise once; later calls do nothing. *)
Inductive ProbeEvent :=
| probe_stdout (d : string)        (* ffprobe.stdout 'data' *)
| probe_stderr (d : string)        (* ffprobe.stderr 'data' *)
| probe_error                      (* ffprobe 'error' *)
| probe_close (code : option Z)    (* ffprobe 'close'; [None] is a null code *)
| probe_timeout.                   (* the safety timeout *)

Inductive Promise (A : Type) :=
| pending
| resolved (a : A)
| rejected.
Arguments pending {A}.
Arguments resolved {A} a.
Arguments rejected {A}.

Record Probe := {
  output : string;
  errored : bool;
  promise : Promise bool
}.

Definition resolve (v : bool) (p : Probe) : Probe :=
  match promise p with
  | pending => {| output := output p; errored := errored p; promise := resolved v |}
  | _ => p
  end.

Definition exit_code_is_zero (code : option Z) : bool :=
  match code with
  | Some 0%Z => true
  | _ => false
  end.

(** [output && output.trim().length > 0] *)
Definition has_output (out : string) : bool :=
  match out with
  | EmptyString => false
  | _ => (0 <? String.length (Str.trim out))%nat
  end.

Definition probe_step (p : Probe) (ev : ProbeEvent) : Probe :=
  match ev with
  | probe_stdout d =>
      {| output := output p +:+ d; errored := errored p; promise := promise p |}
  | probe_stderr _ => p
  | probe_error => {| output := output p; errored := true; promise := promise p |}
  | probe_close code =>
      if errored p || negb (exit_code_is_zero code) then resolve false p
      else if has_output (output p) then resolve true p
      else resolve false p
  | probe_timeout => resolve false p
  end.

Definition new_probe : Probe :=
  {| output := EmptyString; errored := false; promise := pending |}.

(** [checkStreamAvailable(rtspUrl)]: the promise it returns after the
    events [evs]; [spawn_throws] tells whether the executor threw before
    it had registered its handlers (caught, [resolve(false)]). *)
Definition checkStreamAvailable (spawn_throws : bool) (evs : list ProbeEvent)
    : Promise bool :=
  if spawn_throws then resolved false
  else promise (foldl probe_step new_probe evs).

(** What the handlers have seen before the promise settles *)
Definition settles (ev : ProbeEvent) : bool :=
  match ev with
  | probe_close _ | probe_timeout => true
  | _ => false
  end.

Definition stdout_of (evs : list ProbeEvent) : string :=
  foldl (λ out ev, match ev with probe_stdout d => out +:+ d | _ => out end)
    EmptyString evs.

Definition saw_error (evs : list ProbeEvent) : bool :=
  existsb (λ ev, match ev with probe_error => true | _ => false end) evs.

(** ** Vocabulary of the properties *)

(** The errors thrown for an object that is not known *)
Definition not_found (e : Exn) : Prop :=
  e = Error "Peer or room not found" ∨ e = Error "Transport or producer not found".

(** ** Concrete objects used in examples *)
Definition router0 : Router :=
  {| router_id := 0;
     rtpCapabilities := {| caps_codecs := ["audio/opus"; "video/VP8"; "video/H264"] |} |}.

Definition transport1 : Transport :=
  {| transport_id := "t1"; transport_descriptor := "ice-dtls-1";
     transport_localPort := 0 |}.

Definition transport2 : Transport :=
  {| transport_id := "t2"; transport_descriptor := "ice-dtls-2";
     transport_localPort := 0 |}.

Definition producer1 : Producer := {| producer_id := "p1"; producer_kind := video |}.

Definition vp8 : RtpParameters :=
  {| rtp_mimeType := "video/VP8"; rtp_payloadType := 96; rtp_clockRate := 90000;
     rtp_ssrc := None |}.

Definition consumer1 : Consumer :=
  {| consumer_id := "c1"; consumer_kind := video; consumer_rtpParameters := vp8 |}.

(** peer1 joins room "security" on socket s1 and creates a transport *)
Definition world_joined : World :=
  (run (new_world [])
     [on_socket "s1" (join_room "security" "peer1" (Some router0));
      on_socket "s1" (create_webrtc_transport (Some transport1))]).1.

(** ... and produces on it *)
Definition world_producing : World :=
  (run world_joined [on_socket "s1" (produce "t1" video vp8 (Some producer1))]).1.

Definition ctx_of (w : World) (socketId : string) : Ctx :=
  {| this := server w; socket := socket_of w socketId |}.

(** The state a successful [handleJoinRoom] leaves, [room] being the
    room found (or just created) under [roomId]. *)
Definition after_join (s : SFUServer) (sock : Socket) (roomId peerId : string)
    (room : Room) : Ctx :=
  let ref := length (peer_objects s) in
  {| this := {| rooms := <[roomId := with_room_peers <[peerId := ref]> room]> (rooms s);
                peers := <[socket_id sock := ref]> (peers s);
                peer_objects := peer_objects s ++ [new_peer peerId (socket_id sock)];
                rtspBridge := rtspBridge s |};
     socket := {| socket_id := socket_id sock; socket_peerId := Some peerId;
                  socket_roomId := Some roomId |} |}.

(** The answer of a successful [handleJoinRoom] on the socket *)
Definition join_response (sock : Socket) (room : Room) : list Effect :=
  SocketEmit (socket_id sock)
    (router_rtp_capabilities (rtpCapabilities (room_router room))) ::
  match JsMap.keys (room_producers room) with
  | [] => []
  | ids => [SocketEmit (socket_id sock) (existing_producers ids)]
  end.

(** The events [handleJoinRoom] writes to the joining socket *)
Definition join_events (s : SFUServer) (sock : Socket) (roomId peerId : string)
    (createRouter : option Router) : list ServerEvent :=
  emitted_to (socket_id sock)
    (exec (handleJoinRoom roomId peerId createRouter)
       {| this := s; socket := sock |}).2.


(** The strings made of decimal digits only *)
Definition all_digits (s : string) : Prop :=
  Forall (λ c, is_Some (Str.digit_value c)) (String.list_ascii_of_string s).

(** The router of the bridge, the objects of a camera that reaches
    Producing, and a camera without signal *)
Definition router1 : Router :=
  {| router_id := 1;
     rtpCapabilities := {| caps_codecs := ["audio/opus"; "video/VP8"; "video/H264"] |} |}.

Definition plain_video : Transport :=
  {| transport_id := "pt-video"; transport_descriptor := "plain";
     transport_localPort := 40000 |}.

Definition plain_audio : Transport :=
  {| transport_id := "pt-audio"; transport_descriptor := "plain";
     transport_localPort := 40002 |}.

Definition ffmpeg1 : ChildProcess := {| pid := 4242 |}.

Definition camera_video : Producer :=
  {| producer_id := "cam-video-1"; producer_kind := video |}.

Definition camera_audio : Producer :=
  {| producer_id := "cam-audio-1"; producer_kind := audio |}.

Definition answers_producing : StreamAnswers :=
  {| available := true;
     videoTransport_created := Some plain_video;
     audioTransport_created := Some plain_audio;
     spawned := ffmpeg1; started := true;
     videoProducer_created := Some camera_video;
     audioProducer_created := Some camera_audio |}.

Definition answers_no_signal : StreamAnswers :=
  {| available := false;
     videoTransport_created := None; audioTransport_created := None;
     spawned := {| pid := 0 |}; started := false;
     videoProducer_created := None; audioProducer_created := None |}.

(** Two cameras are configured; at [start()] the first reaches
    Producing and the second has no signal and is retried. *)
Definition world_ingesting : World :=
  (run (new_world ["rtsp://10.0.0.1/a"; "rtsp://10.0.0.2/b"])
     [on_start (Some router1)
        (λ i, match i with
              | O => answers_producing
              | _ => answers_no_signal
              end)]).1.

(** Classification of effects *)
Definition is_ClearInterval (e : Effect) : bool :=
  match e with ClearInterval _ => true | _ => false end.

Definition is_SetInterval (e : Effect) : bool :=
  match e with SetInterval _ _ _ => true | _ => false end.

Definition is_SIGKILL (e : Effect) : bool :=
  match e with ProcessKill _ SIGKILL => true | _ => false end.

Definition is_TransportClose (e : Effect) : bool :=
  match e with TransportClose _ => true | _ => false end.



(** The state [stop()] leaves *)
Definition stopped (c : BridgeCtx) : BridgeCtx :=
  {| bridge := {| ffmpegProcesses := []; routers := routers (bridge c);
                  bridge_producers := []; rtspUrls := rtspUrls (bridge c);
                  isRunning := false; mainRouter := mainRouter (bridge c) |};
     loop := loop c |}.

(** The calls [stop()] makes *)
Definition stop_effects (c : BridgeCtx) : list Effect :=
  ((λ p, ProcessKill p SIGTERM) <$> JsMap.values (ffmpegProcesses (bridge c))) ++
  (ProducerClose <$> JsMap.values (bridge_producers (bridge c))) ++
  match mainRouter (bridge c) with
  | Some r => [RouterClose r]
  | None => []
  end.

(** The state the bridge handlers work on, taken from the process *)
Definition bridge_ctx (w : World) : BridgeCtx :=
  {| bridge := rtspBridge (server w); loop := timers w |}.

(** ** Invariants of computations

    [hoare P m Q E]: from a state in [P], [m] ends in a state in
    [Q a] when it returns [a], and in a state in [E] when it throws. *)
Definition hoare {S A} (P : S → Prop) (m : Js S A) (Q : A → S → Prop)
    (E : S → Prop) : Prop :=
  ∀ s, P s →
    match m s with
    | (s', _, inr a) => Q a s'
    | (s', _, inl _) => E s'
    end.

(** [m] keeps the invariant [I], however it ends. *)
Definition preserves {S A} (I : S → Prop) (m : Js S A) : Prop :=
  hoare I m (λ _, I) I.

(** ** Vocabulary for the retry timers *)

(** The armed intervals of one camera *)
Definition timers_of (cameraId : string) (l : EventLoop) : list RetryTimer :=
  filter (λ x, timer_cameraId x = cameraId) (intervals l).

(** Every armed interval is the one its camera object refers to, and
    conversely: handles are distinct and below the next handle, the
    interval of a camera is the [retryTimer] of that camera, and the
    [retryTimer] of a camera is an armed interval of that camera. *)
Definition timers_tracked (c : BridgeCtx) : Prop :=
  NoDup (timer_id <$> intervals (loop c)) ∧
  (∀ x, x ∈ intervals (loop c) → timer_id x < next_timer (loop c)) ∧
  (∀ x, x ∈ intervals (loop c) →
     ∃ st, routers (bridge c) !! timer_cameraId x = Some st ∧
           retryTimer st = Some (timer_id x)) ∧
  (∀ cameraId st t,
     routers (bridge c) !! cameraId = Some st → retryTimer st = Some t →
     ∃ x, x ∈ intervals (loop c) ∧ timer_id x = t ∧ timer_cameraId x = cameraId).

(** The intervals left by [clearInterval(h)] *)
Definition cleared (h : option nat) (l : list RetryTimer) : list RetryTimer :=
  match h with
  | Some t => filter (λ x, timer_id x ≠ t) l
  | None => l
  end.

(** The state [arm_retry] leaves for a camera whose object is [st] *)
Definition rearmed (cameraId rtspUrl : string) (st : CameraState) (c : BridgeCtx)
    : BridgeCtx :=
  let t := next_timer (loop c) in
  {| bridge := with_routers <[cameraId := with_retryTimer (Some t) st]> (bridge c);
     loop := {| intervals := cleared (retryTimer st) (intervals (loop c)) ++
                  [{| timer_id := t; timer_cameraId := cameraId;
                      timer_rtspUrl := rtspUrl |}];
                next_timer := S t |} |}.

Definition rearm_effects (cameraId rtspUrl : string) (st : CameraState)
    (c : BridgeCtx) : list Effect :=
  match retryTimer st with
  | Some t => [ClearInterval t]
  | None => []
  end ++ [SetInterval (next_timer (loop c)) cameraId rtspUrl].

(** The precondition of the steps of an attempt: the timers are
    tracked and the camera has its object. *)
Definition tracked_with (cameraId : string) (c : BridgeCtx) : Prop :=
  timers_tracked c ∧ is_Some (routers (bridge c) !! cameraId).

(** ** Vocabulary for the exit of the transcoding process *)

(** The camera object after the cleanup of the ['close'] handler *)
Definition released (st : CameraState) : CameraState :=
  {| retryTimer := retryTimer st; videoTransport := None; audioTransport := None;
     ffmpeg := ffmpeg st; videoProducer := None; audioProducer := None |}.

Definition close_if {A} (close : A → Effect) (o : option A) : list Effect :=
  match o with
  | Some x => [close x]
  | None => []
  end.

(** The calls of the cleanup, in program order *)
Definition release_effects (st : CameraState) : list Effect :=
  close_if ProducerClose (videoProducer st) ++
  close_if ProducerClose (audioProducer st) ++
  close_if TransportClose (videoTransport st) ++
  close_if TransportClose (audioTransport st).

Definition delete_if {A B} (o : option A) (key : string) (m : JsMap.t B) : JsMap.t B :=
  match o with
  | Some _ => JsMap.delete m key
  | None => m
  end.

(** The bridge after the cleanup: the process is unregistered, the
    producers of the camera are unregistered, its object is released. *)
Definition after_release (cameraId : string) (c : BridgeCtx) : BridgeCtx :=
  let b := bridge c in
  let st := default empty_state (routers b !! cameraId) in
  {| bridge :=
       {| ffmpegProcesses := JsMap.delete (ffmpegProcesses b) cameraId;
          routers := match routers b !! cameraId with
                     | Some st => <[cameraId := released st]> (routers b)
                     | None => routers b
                     end;
          bridge_producers :=
            delete_if (audioProducer st) (cameraId +:+ "_audio")
              (delete_if (videoProducer st) (cameraId +:+ "_video")
                 (bridge_producers b));
          rtspUrls := rtspUrls b; isRunning := isRunning b;
          mainRouter := mainRouter b |};
     loop := loop c |}.

(** The state and the effects of the ['close'] handler *)
Definition after_close (cameraId rtspUrl : string) (c : BridgeCtx) : BridgeCtx :=
  let st := default empty_state (routers (bridge c) !! cameraId) in
  if isRunning (bridge c)
  then rearmed cameraId rtspUrl (released st) (after_release cameraId c)
  else after_release cameraId c.

Definition close_effects (cameraId rtspUrl : string) (c : BridgeCtx) : list Effect :=
  let st := default empty_state (routers (bridge c) !! cameraId) in
  release_effects st ++
  if isRunning (bridge c)
  then rearm_effects cameraId rtspUrl (released st) (after_release cameraId c)
  else [].

(** The states the process reaches from its start, whatever the events *)
Definition reachable (urls : list string) (w : World) : Prop :=
  ∃ evs, w = (run (new_world urls) evs).1.

(** The camera object as the handlers see it *)
Definition camera_state (w : World) (cameraId : string) : CameraState :=
  default empty_state (routers (rtspBridge (server w)) !! cameraId).

(** ** Vocabulary for an attempt that reaches Producing *)




(** ** Vocabulary for the registry *)



(** Every index held by a map refers to an allocated peer object. *)
Definition refs_allocated (s : SFUServer) : Prop :=
  map_Forall (λ _ ref, ref < length (peer_objects s)) (peers s) ∧
  map_Forall (λ _ room,
    map_Forall (λ _ ref, ref < length (peer_objects s)) (room_peers room))
    (rooms s).

(** The peer of a socket, as [this.peers.get(socket.id)] returns it *)
Definition peer_of (s : SFUServer) (socketId : string) : option Peer :=
  snd <$> peers_get s socketId.

(** ** Vocabulary for the rooms *)

(** [room.peers.size] of the room stored under [roomId]; no room, no
    peer.  It counts the entries of the peer map of the room, which is
    keyed by peer id: a join adds or overwrites the entry of its peer
    id, a disconnect deletes the entry of the peer of the socket from
    the room of the last join of the socket.  It is not the number of
    the connected sockets that have joined the room. *)
Definition peer_count (s : SFUServer) (roomId : string) : nat :=
  match rooms s !! roomId with
  | Some room => size (room_peers room)
  | None => 0
  end.


(** Every room of the registry has a peer. *)
Definition rooms_populated (s : SFUServer) : Prop :=
  map_Forall (λ _ room, room_peers room ≠ ∅) (rooms s).

(** The room after [handleDisconnect] has removed the peer and its
    producers from it *)
Definition room_after_leave (peer : Peer) (room : Room) : Room :=
  {| room_router := room_router room;
     room_peers := delete (peer_id peer) (room_peers room);
     room_producers :=
       remove_producers (JsMap.values (peer_producers peer)) (room_producers room) |}.

(** The state [handleDisconnect] leaves and the calls it makes *)
Definition after_disconnect (c : Ctx) : Ctx :=
  let s := this c in
  match peers_get s (socket_id (socket c)) with
  | None => c
  | Some (_, peer) =>
      {| this :=
           {| rooms :=
                match socket_roomId (socket c) with
                | Some r =>
                    match rooms s !! r with
                    | Some room =>
                        if bool_decide (size (room_peers (room_after_leave peer room)) = 0)
                        then delete r (rooms s)
                        else <[r := room_after_leave peer room]> (rooms s)
                    | None => rooms s
                    end
                | None => rooms s
                end;
              peers := delete (socket_id (socket c)) (peers s);
              peer_objects := peer_objects s;
              rtspBridge := rtspBridge s |};
         socket := socket c |}
  end.

Definition disconnect_effects (c : Ctx) : list Effect :=
  match peers_get (this c) (socket_id (socket c)),
        rooms_get (this c) (socket_roomId (socket c)) with
  | Some (_, peer), Some room =>
      (TransportClose <$> JsMap.values (peer_transports peer)) ++
      (ProducerClose <$> JsMap.values (peer_producers peer)) ++
      (ConsumerClose <$> JsMap.values (peer_consumers peer)) ++
      if bool_decide (size (room_peers (room_after_leave peer room)) = 0)
      then [RouterClose (room_router room)]
      else []
  | _, _ => []
  end.

(** The invariant of the registry *)
Definition registry_ok (c : Ctx) : Prop :=
  rooms_populated (this c) ∧ refs_allocated (this c).

(** The peer of socket s1 and its room in [world_joined] *)
Definition peer1_joined : Peer :=
  {| peer_id := "peer1"; peer_socket := "s1";
     peer_transports := [("t1", transport1)];
     peer_producers := []; peer_consumers := [] |}.


(** Every producer registered in the bridge's map under the key of a
    camera is held by the object of that camera. *)
Definition producers_tracked (c : BridgeCtx) : Prop :=
  ∀ cameraId,
    (is_Some (JsMap.get (bridge_producers (bridge c)) (cameraId +:+ "_video")) →
     ∃ st, routers (bridge c) !! cameraId = Some st ∧ is_Some (videoProducer st)) ∧
    (is_Some (JsMap.get (bridge_producers (bridge c)) (cameraId +:+ "_audio")) →
     ∃ st, routers (bridge c) !! cameraId = Some st ∧ is_Some (audioProducer st)).

Definition producers_tracked_with (cameraId : string) (c : BridgeCtx) : Prop :=
  producers_tracked c ∧ is_Some (routers (bridge c) !! cameraId).

(** The routers and the producers closed by a list of effects *)
Definition closed_routers (es : list Effect) : list Router :=
  omap (λ e, match e with RouterClose r => Some r | _ => None end) es.

Definition closed_producers (es : list Effect) : list Producer :=
  omap (λ e, match e with ProducerClose p => Some p | _ => None end) es.

(** ** Vocabulary for the answers of the signalling handlers *)

(** The message of the [error] event sent by the [catch] block of the
    handler of a command; [handleDisconnect] has no [catch] block. *)
Definition failure_message (cmd : Command) : option string :=
  match cmd with
  | join_room _ _ _ => Some "Failed to join room"
  | create_webrtc_transport _ => Some "Failed to create transport"
  | connect_transport _ _ => Some "Failed to connect transport"
  | produce _ _ _ _ => Some "Failed to create producer"
  | consume _ _ _ _ => Some "Failed to create consumer"
  | resume_consumer _ _ => Some "Failed to resume consumer"
  | disconnect => None
  end.

Definition is_error_event (e : Effect) : bool :=
  match e with SocketEmit _ (error_event _) => true | _ => false end.

(** The calls into the media engine, as opposed to the messages written
    to sockets *)
Definition is_engine_call (e : Effect) : bool :=
  match e with SocketEmit _ _ | SocketToEmit _ _ _ => false | _ => true end.

(** The server after the peer object at [ref] has become [p], and
    after the room stored under [roomId] has become [room] *)
Definition store_peer (ref : nat) (p : Peer) (s : SFUServer) : SFUServer :=
  {| rooms := rooms s; peers := peers s;
     peer_objects := <[ref := p]> (peer_objects s);
     rtspBridge := rtspBridge s |}.

Definition store_room (roomId : string) (room : Room) (s : SFUServer) : SFUServer :=
  {| rooms := <[roomId := room]> (rooms s); peers := peers s;
     peer_objects := peer_objects s; rtspBridge := rtspBridge s |}.

(** A server with peer1 on socket s1 and peer2 on socket s2 in room
    "security", each with a transport *)
Definition peer2_joined : Peer :=
  {| peer_id := "peer2"; peer_socket := "s2";
     peer_transports := [("t2", transport2)];
     peer_producers := []; peer_consumers := [] |}.

Definition two_peer_room : Room :=
  {| room_router := router0; room_peers := {["peer1" := 0; "peer2" := 1]};
     room_producers := [] |}.

Definition server_two_peers : SFUServer :=
  {| rooms := {["security" := two_peer_room]};
     peers := {["s1" := 0; "s2" := 1]};
     peer_objects := [peer1_joined; peer2_joined];
     rtspBridge := new_bridge [] |}.

Definition socket_s1 : Socket :=
  {| socket_id := "s1"; socket_peerId := Some "peer1";
     socket_roomId := Some "security" |}.

Definition socket_s2 : Socket :=
  {| socket_id := "s2"; socket_peerId := Some "peer2";
     socket_roomId := Some "security" |}.

(** ... and after peer1 has produced on its transport *)
Definition peer1_producing : Peer :=
  {| peer_id := "peer1"; peer_socket := "s1";
     peer_transports := [("t1", transport1)];
     peer_producers := [("p1", producer1)]; peer_consumers := [] |}.

Definition producing_room : Room :=
  {| room_router := router0; room_peers := {["peer1" := 0; "peer2" := 1]};
     room_producers := [("p1", producer1)] |}.

Definition server_producing : SFUServer :=
  {| rooms := {["security" := producing_room]};
     peers := {["s1" := 0; "s2" := 1]};
     peer_objects := [peer1_producing; peer2_joined];
     rtspBridge := new_bridge [] |}.

(** The peers s1 and s2 joined room "security" under one peer id and
    s1 has disconnected: the room is gone, the peer of s2 is still
    registered with a transport. *)
Definition world_room_removed : World :=
  (run (new_world [])
     [on_socket "s1" (join_room "security" "viewer" (Some router0));
      on_socket "s2" (join_room "security" "viewer" None);
      on_socket "s2" (create_webrtc_transport (Some transport2));
      on_socket "s1" disconnect]).1.

(** The server after [this.peers.delete(socketId)] *)
Definition forget_peer (socketId : string) (s : SFUServer) : SFUServer :=
  {| rooms := rooms s; peers := delete socketId (peers s);
     peer_objects := peer_objects s; rtspBridge := rtspBridge s |}.

(** ** Vocabulary for the attempts of the bridge *)

(** The bridge once [startRTSPStream] has made sure that the camera has
    its object in [this.routers] *)
Definition ensured (cameraId : string) (c : BridgeCtx) : BridgeCtx :=
  match routers (bridge c) !! cameraId with
  | Some _ => c
  | None => set_bridge (with_routers <[cameraId := empty_state]>) c
  end.

(** A computation that returns from every state: it never throws. *)
Definition returns {S A} (m : Js S A) : Prop := ∀ s, ∃ a, (m s).2 = inr a.

(** The camera ids [start()] gives to the first [n] URLs *)
Definition cameraIds (n : nat) : list string := cameraId_of <$> seq 0 n.

(** What an attempt never changes in the bridge: the running flag, the
    router, the configured URLs, and the set of cameras that have an
    object. *)
Definition same_setup (c0 c : BridgeCtx) : Prop :=
  isRunning (bridge c) = isRunning (bridge c0) ∧
  mainRouter (bridge c) = mainRouter (bridge c0) ∧
  rtspUrls (bridge c) = rtspUrls (bridge c0) ∧
  dom (routers (bridge c)) = dom (routers (bridge c0)).



(** The interval armed next in a process *)
Definition next_interval (w : World) (cameraId rtspUrl : string) : RetryTimer :=
  {| timer_id := next_timer (timers w); timer_cameraId := cameraId;
     timer_rtspUrl := rtspUrl |}.


(** ** The start of the ffmpeg process ([startFFmpegProcess])

    The promise of [startFFmpegProcess] is followed over the events of
    the spawned process and of the 5000 ms timer, in the order in which
    their handlers run.  The promise is resolved with the process; the
    answer [started] of [StreamAnswers] tells whether it was resolved
    ([true]) or rejected ([false]). *)
Inductive FFmpegEvent :=
| ffmpeg_stdout (d : string)        (* ffmpeg.stdout 'data' *)
| ffmpeg_stderr (d : string)        (* ffmpeg.stderr 'data' *)
| ffmpeg_exit (code : option Z)     (* ffmpeg 'close' *)
| ffmpeg_error                      (* ffmpeg 'error' *)
| ffmpeg_timeout.                   (* the timer of 5000 ms *)

(** [s.includes(pattern)] *)
Fixpoint includes (pattern s : string) : bool :=
  String.prefix pattern s ||
  match s with
  | String _ s' => includes pattern s'
  | EmptyString => false
  end.

Record Launch := {
  launch_started : bool;                  (* the variable [started] *)
  launch_promise : Promise ChildProcess
}.

Definition new_launch : Launch :=
  {| launch_started := false; launch_promise := pending |}.

(** [resolve] and [reject] settle a pending promise and do nothing to a
    settled one. *)
Definition settle {A} (v : Promise A) (p : Promise A) : Promise A :=
  match p with
  | pending => v
  | _ => p
  end.

(** [output.includes('Stream mapping:') ||
     output.includes('Press [q] to stop')] *)
Definition announces_start (output : string) : bool :=
  includes "Stream mapping:" output || includes "Press [q] to stop" output.

Definition launch_step (process : ChildProcess) (l : Launch) (ev : FFmpegEvent)
    : Launch :=
  match ev with
  | ffmpeg_stderr d =>
      if negb (launch_started l) && announces_start d
      then {| launch_started := true;
              launch_promise := settle (resolved process) (launch_promise l) |}
      else l
  | ffmpeg_error =>
      {| launch_started := launch_started l;
         launch_promise := settle rejected (launch_promise l) |}
  | ffmpeg_timeout =>
      if negb (launch_started l)
      then {| launch_started := true;
              launch_promise := settle (resolved process) (launch_promise l) |}
      else l
  | ffmpeg_stdout _ | ffmpeg_exit _ => l
  end.

(** The promise of [startFFmpegProcess] after the events [evs] of the
    process [process] *)
Definition ffmpeg_started (process : ChildProcess) (evs : list FFmpegEvent)
    : Promise ChildProcess :=
  launch_promise (foldl (launch_step process) new_launch evs).

(** The events that settle the promise when it is pending *)
Definition launch_settles (ev : FFmpegEvent) : bool :=
  match ev with
  | ffmpeg_stderr d => announces_start d
  | ffmpeg_error | ffmpeg_timeout => true
  | ffmpeg_stdout _ | ffmpeg_exit _ => false
  end.

(** ** The HTTP routes of [SFUServer] ([setupRoutes])

    A response is its status and its JSON body; the [timestamp] of the
    health check is left out. *)
Inductive Response :=
| health_json (rooms peers : nat)                         (* 200 *)
| room_json (id : string) (participants : nat) (producers : list string)  (* 200 *)
| capabilities_json (caps : RtpCapabilities)              (* 200 *)
| error_json (status : nat) (error : string).

(** [GET /health] *)
Definition health_route (s : SFUServer) : Response :=
  health_json (size (rooms s)) (size (peers s)).

(** [GET /rooms/:roomId] *)
Definition room_route (s : SFUServer) (roomId : string) : Response :=
  match rooms s !! roomId with
  | None => error_json 404 "Room not found"
  | Some room =>
      room_json roomId (size (room_peers room)) (JsMap.keys (room_producers room))
  end.

(** ** Vocabulary for the peers of the sockets *)

(** The peer object registered for a socket is the one a join-room of
    that socket has created. *)
Definition peers_owned (s : SFUServer) : Prop :=
  map_Forall (λ socketId ref,
    ∃ p, peer_objects s !! ref = Some p ∧ peer_socket p = socketId) (peers s).

(** ** The configuration of the bridge *)

(** [s.split(sep)] with a separator of one character *)
Fixpoint str_split (sep : ascii) (s : string) : list string :=
  match s with
  | EmptyString => [EmptyString]
  | String c s' =>
      if Ascii.eqb c sep then EmptyString :: str_split sep s'
      else match str_split sep s' with
           | field :: fields => String c field :: fields
           | [] => [String c EmptyString]
           end
  end.

(** The URLs the constructor of [RTSPBridge] takes from the
    environment: [(process.env.RTSP_URLS || '').split(',')
    .filter(url => url.trim())]; [None] is an unset variable. *)
Definition rtspUrls_of (env : option string) : list string :=
  filter (λ url, Str.trim url ≠ EmptyString) (str_split "," (default "" env)).

(** ** The media service ([MediaSoupService])

    The service keeps the worker of the media engine.  Its methods are
    functions of its state that return the state they leave, the calls
    they make to the engine, and their value or the exception they
    throw; the answer of an awaited call of the engine is an argument,
    [None] being a rejection.  The calls of the service made by the
    signalling handlers and by the bridge are the effects
    [CreateRouter], [CreateWebRtcTransport] and [CreatePlainTransport]
    above, with these answers. *)
Record Worker := { worker_pid : N }.

Inductive EngineCall :=
| CreateWorker (rtcMinPort rtcMaxPort : Number)
| WorkerCreateRouter (w : Worker)
| RouterCreateWebRtcTransport (r : Router)
| RouterCreatePlainTransport (r : Router) (listenIp : string) (listenPort : N)
| WorkerClose (w : Worker).

(** [parseInt(process.env.X) || fallback] of the worker settings; an
    unset variable is [undefined], which [parseInt] reads as the string
    ["undefined"].  NaN and 0 are the numbers that are not truthy. *)
Definition port_setting (env : option string) (fallback : Z) : Number :=
  match Str.parseInt (default "undefined" env) with
  | NaN | Num 0%Z => Num fallback
  | n => n
  end.

Record MediaSoupService := {
  worker : option Worker;           (* this.worker *)
  service_router : option Router;   (* this.router *)
  rtcMinPort : Number;              (* this.config.worker.rtcMinPort *)
  rtcMaxPort : Number
}.

(** The constructor; the two variables are [MEDIASOUP_MIN_PORT] and
    [MEDIASOUP_MAX_PORT]. *)
Definition new_service (minPort maxPort : option string) : MediaSoupService :=
  {| worker := None; service_router := None;
     rtcMinPort := port_setting minPort 10000;
     rtcMaxPort := port_setting maxPort 10100 |}.

Definition Service (A : Type) : Type :=
  MediaSoupService → MediaSoupService * list EngineCall * (Exn + A).

(** [init()] *)
Definition service_init (created : option Worker) : Service unit :=
  λ m, match created with
       | Some w =>
           ({| worker := Some w; service_router := service_router m;
               rtcMinPort := rtcMinPort m; rtcMaxPort := rtcMaxPort m |},
            [CreateWorker (rtcMinPort m) (rtcMaxPort m)], inr tt)
       | None => (m, [CreateWorker (rtcMinPort m) (rtcMaxPort m)], inl Rejected)
       end.

(** [createRouter()]: [this.worker.createRouter] throws a TypeError
    while there is no worker. *)
Definition service_createRouter (created : option Router) : Service Router :=
  λ m, match worker m with
       | None => (m, [], inl TypeError)
       | Some w =>
           (m, [WorkerCreateRouter w],
            match created with Some r => inr r | None => inl Rejected end)
       end.

(** [createWebRTCTransport(router)] *)
Definition service_createWebRTCTransport (router : Router)
    (created : option Transport) : Service Transport :=
  λ m, (m, [RouterCreateWebRtcTransport router],
        match created with Some t => inr t | None => inl Rejected end).

(** [createPlainTransport(router, listenIp, listenPort)]; the router
    of the bridge is undefined before its [start()]. *)
Definition service_createPlainTransport (router : option Router)
    (listenIp : string) (listenPort : N) (created : option Transport)
    : Service Transport :=
  λ m, match router with
       | None => (m, [], inl TypeError)
       | Some r =>
           (m, [RouterCreatePlainTransport r listenIp listenPort],
            match created with Some t => inr t | None => inl Rejected end)
       end.

(** [getRouterCapabilities()] *)
Definition getRouterCapabilities : Service RtpCapabilities :=
  λ m, match service_router m with
       | None => (m, [], inl (Error "Router not initialized"))
       | Some r => (m, [], inr (rtpCapabilities r))
       end.

(** [close()] *)
Definition service_close : Service unit :=
  λ m, (m, match worker m with Some w => [WorkerClose w] | None => [] end, inr tt).

(** The calls of the methods of the service *)
Inductive ServiceCall :=
| call_init (created : option Worker)
| call_createRouter (created : option Router)
| call_createWebRTCTransport (router : Router) (created : option Transport)
| call_createPlainTransport (router : option Router) (listenIp : string)
    (listenPort : N) (created : option Transport)
| call_getRouterCapabilities
| call_close.

Definition service_step (m : MediaSoupService) (call : ServiceCall)
    : MediaSoupService :=
  match call with
  | call_init created => (service_init created m).1.1
  | call_createRouter created => (service_createRouter created m).1.1
  | call_createWebRTCTransport router created =>
      (service_createWebRTCTransport router created m).1.1
  | call_createPlainTransport router listenIp listenPort created =>
      (service_createPlainTransport router listenIp listenPort created m).1.1
  | call_getRouterCapabilities => (getRouterCapabilities m).1.1
  | call_close => (service_close m).1.1
  end.

(** [GET /router-capabilities] *)
Definition capabilities_route (m : MediaSoupService) : Response :=
  match (getRouterCapabilities m).2 with
  | inr caps => capabilities_json caps
  | inl _ => error_json 500 "Internal server error"
  end.

(** ** The bridge with its awaits

    The handlers above follow an [async] function of the bridge from
    its first to its last statement.  The event loop does not: an
    [async] function runs until its next [await], and it is resumed in
    a later turn, when the promise it awaits has settled; the handlers
    of other events run in between.  Below, the functions of the bridge
    that await are cut at their awaits.  A call that is suspended is a
    [Task]: it records where the call waits and the local variables the
    rest of the call reads.  A turn of the event loop runs one handler
    or resumes one task, up to the next await.  The call that is
    awaited has been made when the function suspends (its effect
    belongs to that turn); its answer is read when the function is
    resumed.  [stop()] and the ['close'] handler of ffmpeg await
    nothing: they are one turn each, as above.  The local [state] of a
    suspended call of [startRTSPStream] and of a retry callback is the
    object [this.routers] holds for the camera: the call has stored it
    there before its first await, and no code removes an entry of
    [this.routers] or stores another object under the key.  So the
    resumed call reads and writes the entry of its camera. *)

(** The answer of an awaited call; [None] is a rejection. *)
Definition answered {S A} (answer : option A) : Js S A :=
  match answer with
  | Some a => ret a
  | None => throw Rejected
  end.

(** Where a call of [startRTSPStream] waits *)
Inductive Awaits :=
| awaits_probe                                      (* l.61 *)
| awaits_videoTransport                             (* l.84 *)
| awaits_audioTransport (videoT : Transport)        (* l.90 *)
| awaits_ffmpeg (videoT audioT : Transport) (process : ChildProcess)  (* l.100 *)
| awaits_videoProducer (videoT audioT : Transport)  (* l.111 *)
| awaits_audioProducer (videoT audioT : Transport) (videoP : Producer). (* l.133 *)

(** The [catch] block of the producers (l.159-182) *)
Definition producers_failed (rtspUrl cameraId : string) (videoT audioT : Transport)
    : Js BridgeCtx unit :=
  effect (TransportClose videoT) ;;
  effect (TransportClose audioT) ;;
  st <- state_of cameraId ;;
  match ffmpeg st with
  | Some p =>
      effect (ProcessKill p SIGTERM) ;;
      update_state cameraId (with_ffmpeg None)
  | None => ret tt
  end ;;
  running <- gets (λ c, isRunning (bridge c)) ;;
  when running (arm_retry cameraId rtspUrl).

(** [startRTSPStream(rtspUrl, cameraId)] from the call to its first
    await (l.51-61); the value is where the call waits, [None] when it
    has ended. *)
Definition startRTSPStream_begin (rtspUrl cameraId : string)
    : Js BridgeCtx (option Awaits) :=
  try_catch
    (known <- gets (λ c, routers (bridge c) !! cameraId) ;;
     match known with
     | Some _ => ret tt
     | None => modify (set_bridge (with_routers <[cameraId := empty_state]>))
     end ;;
     ret (Some awaits_probe))
    (λ _, ret None).

(** [startRTSPStream] resumed where it waits, up to its next await or
    to its end; [a] holds the answer of the call that was awaited
    ([spawned a] is the process the call of [spawn] returns). *)
Definition startRTSPStream_resume (rtspUrl cameraId : string) (at_ : Awaits)
    (a : StreamAnswers) : Js BridgeCtx (option Awaits) :=
  try_catch
    (match at_ with
     | awaits_probe =>
         if negb (available a) then (arm_retry cameraId rtspUrl ;; ret None) else
         router <- gets (λ c, mainRouter (bridge c)) ;;
         effect (CreatePlainTransport router) ;;
         ret (Some awaits_videoTransport)
     | awaits_videoTransport =>
         videoT <- answered (videoTransport_created a) ;;
         router <- gets (λ c, mainRouter (bridge c)) ;;
         effect (CreatePlainTransport router) ;;
         ret (Some (awaits_audioTransport videoT))
     | awaits_audioTransport videoT =>
         audioT <- answered (audioTransport_created a) ;;
         update_state cameraId (with_videoTransport (Some videoT)) ;;
         update_state cameraId (with_audioTransport (Some audioT)) ;;
         effect (SpawnFFmpeg cameraId rtspUrl (transport_localPort videoT)
                   (transport_localPort audioT)) ;;
         modify (set_bridge (with_ffmpegProcesses
           (λ m, JsMap.set m cameraId (spawned a)))) ;;
         ret (Some (awaits_ffmpeg videoT audioT (spawned a)))
     | awaits_ffmpeg videoT audioT process =>
         (if started a then ret tt else throw Rejected) ;;
         update_state cameraId (with_ffmpeg (Some process)) ;;
         effect (TransportProduce videoT video (video_rtpParameters cameraId)) ;;
         ret (Some (awaits_videoProducer videoT audioT))
     | awaits_videoProducer videoT audioT =>
         try_catch
           (videoP <- answered (videoProducer_created a) ;;
            effect (TransportProduce audioT audio (audio_rtpParameters cameraId)) ;;
            ret (Some (awaits_audioProducer videoT audioT videoP)))
           (λ _, producers_failed rtspUrl cameraId videoT audioT ;; ret None)
     | awaits_audioProducer videoT audioT videoP =>
         try_catch
           (audioP <- answered (audioProducer_created a) ;;
            modify (set_bridge (with_bridge_producers
              (λ m, JsMap.set m (cameraId +:+ "_video") videoP))) ;;
            modify (set_bridge (with_bridge_producers
              (λ m, JsMap.set m (cameraId +:+ "_audio") audioP))) ;;
            update_state cameraId (with_videoProducer (Some videoP)) ;;
            update_state cameraId (with_audioProducer (Some audioP)) ;;
            ret None)
           (λ _, producers_failed rtspUrl cameraId videoT audioT ;; ret None)
     end)
    (λ _, ret None).

(** The callback of a retry interval from its call to its await
    (l.69-70): whether it has started its probe *)
Definition retry_begin : Js BridgeCtx bool :=
  gets (λ c, isRunning (bridge c)).

(** The callback resumed with the answer of its probe (l.71-76); the
    value is where the attempt it has started waits. *)
Definition retry_resume (cameraId rtspUrl : string) (ok : bool)
    : Js BridgeCtx (option Awaits) :=
  if negb ok then ret None else
  st <- state_of cameraId ;;
  clearInterval (retryTimer st) ;;
  update_state cameraId (with_retryTimer None) ;;
  startRTSPStream_begin rtspUrl cameraId.

(** A suspended call *)
Inductive Task :=
| starting                                               (* start() at l.26 *)
| streaming (rtspUrl cameraId : string) (at_ : Awaits)   (* startRTSPStream *)
| polling (cameraId rtspUrl : string)    (* a retry callback at its probe *)
| settled.                               (* the call has ended *)

Definition task_of (rtspUrl cameraId : string) (r : Exn + option Awaits) : Task :=
  match r with
  | inr (Some at_) => streaming rtspUrl cameraId at_
  | _ => settled
  end.

(** [start()] from its call to its await (l.16-26): whether it waits
    for the router *)
Definition start_begin : Js BridgeCtx bool :=
  running <- gets (λ c, isRunning (bridge c)) ;;
  if running then ret false else
  modify (set_bridge (with_isRunning true)) ;;
  effect CreateRouter ;;
  ret true.

(** The loop of [start()] (l.33-39): every call of [startRTSPStream]
    returns at its first await; the calls are suspended side by side. *)
Fixpoint launch_streams (i : nat) (urls : list string) : Js BridgeCtx (list Task) :=
  match urls with
  | [] => ret []
  | url :: urls' =>
      at_ <- startRTSPStream_begin (Str.trim url) (cameraId_of i) ;;
      tasks <- launch_streams (S i) urls' ;;
      ret (task_of (Str.trim url) (cameraId_of i) (inr at_) :: tasks)
  end.

(** [start()] resumed with the answer of [createRouter()] (l.26-47);
    the value is the calls it leaves suspended. *)
Definition start_resume (created : option Router) : Js BridgeCtx (list Task) :=
  try_catch
    (router <- answered created ;;
     modify (set_bridge (with_mainRouter (Some router))) ;;
     urls <- gets (λ c, rtspUrls (bridge c)) ;;
     launch_streams 0 (take maxCams urls))
    (λ e, modify (set_bridge (with_isRunning false)) ;; throw e).

(** The process between two turns: its state and the suspended calls,
    in the order in which they were made.  A call keeps its position
    while it is resumed; it is [settled] once it has ended. *)
Record Async := {
  current : World;
  suspended : list Task
}.

Definition new_async (urls : list string) : Async :=
  {| current := new_world urls; suspended := [] |}.

Inductive Turn :=
| turn_socket (socketId : string) (cmd : Command)   (* a message of a socket *)
| turn_start                                        (* start() is called *)
| turn_stop                                         (* stop() is called *)
| turn_interval (timer : nat)                       (* an armed interval fires *)
| turn_ffmpeg_close (cameraId rtspUrl : string) (code : option Z)
| turn_router (i : nat) (created : option Router)   (* createRouter() settles *)
| turn_answer (i : nat) (a : StreamAnswers).  (* the call task [i] awaits settles *)

Definition run_segment {A} (m : Js BridgeCtx A) (w : World)
    : World * list Effect * (Exn + A) :=
  let '(c, es, r) := m (bridge_ctx w) in
  ({| server := with_rtspBridge (bridge c) (server w); sockets := sockets w;
      timers := loop c |}, es, r).

(** One turn of the event loop.  An interval fires only while it is
    armed; a task is resumed only by the answer of the call it awaits. *)
Definition turn (s : Async) (t : Turn) : Async * list Effect :=
  match t with
  | turn_socket socketId cmd =>
      let '(w, es) := run_socket socketId (handle cmd) (current s) in
      ({| current := w; suspended := suspended s |}, es)
  | turn_start =>
      let '(w, es, r) := run_segment start_begin (current s) in
      ({| current := w;
          suspended := suspended s ++
                       match r with
                       | inr true => [starting]
                       | _ => []
                       end |}, es)
  | turn_stop =>
      let '(w, es) := run_bridge stop (current s) in
      ({| current := w; suspended := suspended s |}, es)
  | turn_interval timer =>
      match find_timer (current s) timer with
      | Some x =>
          let '(w, es, r) := run_segment retry_begin (current s) in
          ({| current := w;
              suspended := suspended s ++
                           match r with
                           | inr true =>
                               [polling (timer_cameraId x) (timer_rtspUrl x)]
                           | _ => []
                           end |}, es)
      | None => (s, [])
      end
  | turn_ffmpeg_close cameraId rtspUrl code =>
      let '(w, es) := run_bridge (ffmpeg_close cameraId rtspUrl code) (current s) in
      ({| current := w; suspended := suspended s |}, es)
  | turn_router i created =>
      match suspended s !! i with
      | Some starting =>
          let '(w, es, r) := run_segment (start_resume created) (current s) in
          ({| current := w;
              suspended := <[i := settled]> (suspended s) ++
                           match r with
                           | inr tasks => tasks
                           | inl _ => []
                           end |}, es)
      | _ => (s, [])
      end
  | turn_answer i a =>
      match suspended s !! i with
      | Some (streaming rtspUrl cameraId at_) =>
          let '(w, es, r) :=
            run_segment (startRTSPStream_resume rtspUrl cameraId at_ a) (current s) in
          ({| current := w;
              suspended := <[i := task_of rtspUrl cameraId r]> (suspended s) |}, es)
      | Some (polling cameraId rtspUrl) =>
          let '(w, es, r) :=
            run_segment (retry_resume cameraId rtspUrl (available a)) (current s) in
          ({| current := w;
              suspended := <[i := task_of rtspUrl cameraId r]> (suspended s) |}, es)
      | _ => (s, [])
      end
  end.

Fixpoint turns (s : Async) (ts : list Turn) : Async * list Effect :=
  match ts with
  | [] => (s, [])
  | t :: ts' =>
      let '(s1, es1) := turn s t in
      let '(s2, es2) := turns s1 ts' in
      (s2, es1 ++ es2)
  end.

(** The states the process reaches from its start, whatever the turns *)
Definition reached (urls : list string) (s : Async) : Prop :=
  ∃ ts, s = (turns (new_async urls) ts).1.

(** The camera a suspended call works for *)
Definition task_camera (t : Task) : option string :=
  match t with
  | streaming _ cameraId _ | polling cameraId _ => Some cameraId
  | _ => None
  end.

(** The camera has its object in [this.routers]. *)
Definition has_camera (cameraId : string) (c : BridgeCtx) : Prop :=
  is_Some (routers (bridge c) !! cameraId).

(** What holds between any two turns: the intervals are those the
    camera objects refer to, the producers registered under the keys of
    a camera are held by its object, and every suspended call of a
    camera finds the object of its camera. *)
Definition async_ok (s : Async) : Prop :=
  timers_tracked (bridge_ctx (current s)) ∧
  producers_tracked (bridge_ctx (current s)) ∧
  ∀ t cameraId, t ∈ suspended s → task_camera t = Some cameraId →
                has_camera cameraId (bridge_ctx (current s)).

(** An attempt run without any turn in between: every answer is there
    when the call asks for it. *)
Fixpoint uninterrupted (n : nat) (rtspUrl cameraId : string) (at_ : option Awaits)
    (a : StreamAnswers) : Js BridgeCtx unit :=
  match n, at_ with
  | S n', Some at_ =>
      next <- startRTSPStream_resume rtspUrl cameraId at_ a ;;
      uninterrupted n' rtspUrl cameraId next a
  | _, _ => ret tt
  end.

(** *** Vocabulary for the interleaved runs *)

(** The bridge once the retry callback of a camera has cleared the
    interval the camera object refers to (l.72-73) *)
Definition unarmed (cameraId : string) (c : BridgeCtx) : BridgeCtx :=
  let st := default empty_state (routers (bridge c) !! cameraId) in
  {| bridge := with_routers (λ m, match m !! cameraId with
                                  | Some st => <[cameraId := with_retryTimer None st]> m
                                  | None => m
                                  end) (bridge c);
     loop := {| intervals := cleared (retryTimer st) (intervals (loop c));
                next_timer := next_timer (loop c) |} |}.

(** The bridge once the loop of [start()] has called [startRTSPStream]
    for the cameras of [urls], numbered from [i] *)
Fixpoint launched (i : nat) (urls : list string) (c : BridgeCtx) : BridgeCtx :=
  match urls with
  | [] => c
  | _ :: urls' => launched (S i) urls' (ensured (cameraId_of i) c)
  end.

(** The calls the loop of [start()] leaves suspended, each at its probe *)
Definition launches (i : nat) (urls : list string) : list Task :=
  imap (λ k url, streaming (Str.trim url) (cameraId_of (i + k)) awaits_probe) urls.


(** *** Runs used in examples *)

(** Two cameras after the start: the first is Producing, the second has
    no signal and is polled by interval 0. *)
Definition async_ingesting : Async :=
  (turns (new_async ["rtsp://10.0.0.1/a"; "rtsp://10.0.0.2/b"])
     [turn_start; turn_router 0 (Some router1);
      turn_answer 1 answers_producing; turn_answer 1 answers_producing;
      turn_answer 1 answers_producing; turn_answer 1 answers_producing;
      turn_answer 1 answers_producing; turn_answer 1 answers_producing;
      turn_answer 2 answers_no_signal]).1.










(** The same process once interval 0 has fired: its callback waits
    for its probe. *)
Definition async_polling : Async :=
  (turn async_ingesting (turn_interval 0)).1.

(** ** The start of the process ([SFUServer.start])

    [RTSP_BRIDGE_ENABLED], [PORT] and [HOST] are the variables of the
    environment; the port is written as a string, the default being the
    number 3000.  [start()] is called once, on the process as it is
    constructed: no socket is connected (the server does not listen
    yet), no interval is armed and no child process runs, so the two
    calls it awaits, [init()] and [rtspBridge.start()], are answered in
    the turns that follow one another, and [server.listen] is called in
    the turn in which [rtspBridge.start()] returns. *)
Record Process := {
  async : Async;
  mediasoup : MediaSoupService
}.

Definition new_process (urls : list string) (minPort maxPort : option string)
    : Process :=
  {| async := new_async urls; mediasoup := new_service minPort maxPort |}.

Inductive ProcessEffect :=
| Engine (call : EngineCall)
| Handler (e : Effect)            (* an effect of the server or of the bridge *)
| Listen (port host : string)     (* this.server.listen(port, host) *)
| Exit (code : Z).                (* process.exit(code) *)

(** [process.env.X || fallback] *)
Definition env_or (env : option string) (fallback : string) : string :=
  match env with
  | Some EmptyString | None => fallback
  | Some s => s
  end.

Definition sfu_start (bridgeEnabled port host : option string)
    (workerCreated : option Worker) (createRouter : option Router) (p : Process)
    : Process * list ProcessEffect :=
  let listen := Listen (env_or port "3000") (env_or host "0.0.0.0") in
  let '(m, calls, r) := service_init workerCreated (mediasoup p) in
  match r with
  | inl _ => ({| async := async p; mediasoup := m |}, (Engine <$> calls) ++ [Exit 1])
  | inr _ =>
      if bool_decide (bridgeEnabled = Some "true") then
        let '(w1, es1, r1) := run_segment start_begin (current (async p)) in
        match r1 with
        | inr true =>
            let '(w2, es2, r2) := run_segment (start_resume createRouter) w1 in
            match r2 with
            | inr tasks =>
                ({| async := {| current := w2;
                                suspended := suspended (async p) ++ settled :: tasks |};
                    mediasoup := m |},
                 (Engine <$> calls) ++ (Handler <$> es1 ++ es2) ++ [listen])
            | inl _ =>
                ({| async := {| current := w2;
                                suspended := suspended (async p) ++ [settled] |};
                    mediasoup := m |},
                 (Engine <$> calls) ++ (Handler <$> es1 ++ es2) ++ [Exit 1])
            end
        | _ =>
            ({| async := {| current := w1; suspended := suspended (async p) |};
                mediasoup := m |},
             (Engine <$> calls) ++ (Handler <$> es1) ++ [listen])
        end
      else ({| async := async p; mediasoup := m |}, (Engine <$> calls) ++ [listen])
  end.

(** * Properties *)

(** ** Symbolic execution of handlers *)

Ltac js_unfold :=
  unfold try_catch, bind, gets, modify, defined, update_room, update_peer,
    emit, emit_to_room, effect, effects, when, ret, await, throw,
    set_rooms, set_peers, set_peer_objects, set_socket.

Lemma exec_eq {S A} (m : Js S A) (s s' : S) (es : list Effect) (r : Exn + A) :
  m s = (s', es, r) → exec m s = (s', es).
Proof. intros H. unfold exec. by rewrite H. Qed.

(** ** Facts about [JsMap] *)

Lemma jsmap_get_set_eq {V} (m : JsMap.t V) (k : string) (v : V) :
  JsMap.get (JsMap.set m k v) k = Some v.
Proof.
  induction m as [|[k' v'] m IH]; simpl.
  - by rewrite decide_True.
  - destruct (decide (k' = k)) as [->|Hne]; simpl.
    + by rewrite decide_True.
    + by rewrite decide_False.
Qed.

Lemma jsmap_get_set_ne {V} (m : JsMap.t V) (k k' : string) (v : V) :
  k ≠ k' → JsMap.get (JsMap.set m k v) k' = JsMap.get m k'.
Proof.
  intros Hne. induction m as [|[k0 v0] m IH]; simpl.
  - by rewrite decide_False.
  - destruct (decide (k0 = k)) as [->|Hne0]; simpl.
    + by rewrite !decide_False.
    + destruct (decide (k0 = k')); [done|apply IH].
Qed.

Lemma jsmap_get_delete_eq {V} (m : JsMap.t V) (k : string) :
  JsMap.get (JsMap.delete m k) k = None.
Proof.
  induction m as [|[k' v'] m IH]; simpl; [done|].
  destruct (decide (k' = k)); simpl; [done|]. by rewrite decide_False.
Qed.

Lemma jsmap_get_delete_ne {V} (m : JsMap.t V) (k k' : string) :
  k ≠ k' → JsMap.get (JsMap.delete m k) k' = JsMap.get m k'.
Proof.
  intros Hne. induction m as [|[k0 v0] m IH]; simpl; [done|].
  destruct (decide (k0 = k)) as [->|Hne0]; simpl.
  - by rewrite decide_False.
  - destruct (decide (k0 = k')); [done|apply IH].
Qed.

Lemma jsmap_get_None_keys {V} (m : JsMap.t V) (k : string) :
  JsMap.get m k = None ↔ k ∉ JsMap.keys m.
Proof.
  unfold JsMap.keys. induction m as [|[k' v'] m IH]; simpl.
  - split; [intros _; apply not_elem_of_nil|done].
  - rewrite not_elem_of_cons. destruct (decide (k' = k)) as [->|Hne].
    + split; [done|]. by intros [? _].
    + rewrite IH. split; [by intros ?|by intros [_ ?]].
Qed.

(** ** Rules for invariants *)
Section hoare.
Context {S : Type}.
Implicit Types (P E : S → Prop).

Lemma hoare_ret {A} P E (a : A) (Q : A → S → Prop) :
  (∀ s, P s → Q a s) → hoare P (ret a) Q E.
Proof. intros H s Hs. by apply H. Qed.

Lemma hoare_throw {A} P E (x : Exn) (Q : A → S → Prop) :
  (∀ s, P s → E s) → hoare P (throw x) Q E.
Proof. intros H s Hs. by apply H. Qed.

Lemma hoare_gets {A} P E (f : S → A) :
  hoare P (gets f) (λ a s, P s ∧ a = f s) E.
Proof. intros s Hs. by split. Qed.

Lemma hoare_modify P E (f : S → S) (Q : unit → S → Prop) :
  (∀ s, P s → Q tt (f s)) → hoare P (modify f) Q E.
Proof. intros H s Hs. by apply H. Qed.

Lemma hoare_effect P E (e : Effect) : hoare P (effect e) (λ _, P) E.
Proof. by intros s Hs. Qed.

Lemma hoare_effects P E (es : list Effect) : hoare P (effects es) (λ _, P) E.
Proof. by intros s Hs. Qed.

Lemma hoare_await {A} P (call : Effect) (answer : option A) :
  hoare P (await call answer) (λ a s, P s ∧ answer = Some a) P.
Proof. intros s Hs. unfold await. by destruct answer. Qed.

Lemma hoare_bind {A B} P E (m : Js S A) (k : A → Js S B)
    (R : A → S → Prop) (Q : B → S → Prop) :
  hoare P m R E → (∀ a, hoare (R a) (k a) Q E) → hoare P (bind m k) Q E.
Proof.
  intros Hm Hk s Hs. unfold bind. specialize (Hm s Hs).
  destruct (m s) as [[s1 e1] [x|a]]; [done|].
  specialize (Hk a s1 Hm). by destruct (k a s1) as [[s2 e2] [x|b]].
Qed.

Lemma hoare_try_catch {A} P E E' (body : Js S A) (handler : Exn → Js S A)
    (Q : A → S → Prop) :
  hoare P body Q E' → (∀ x, hoare E' (handler x) Q E) →
  hoare P (try_catch body handler) Q E.
Proof.
  intros Hb Hh s Hs. unfold try_catch. specialize (Hb s Hs).
  destruct (body s) as [[s1 e1] [x|a]]; [|done].
  specialize (Hh x s1 Hb). by destruct (handler x s1) as [[s2 e2] [y|b]].
Qed.

Lemma hoare_conseq {A} P P' E E' (m : Js S A) (Q Q' : A → S → Prop) :
  hoare P' m Q' E' → (∀ s, P s → P' s) → (∀ a s, Q' a s → Q a s) →
  (∀ s, E' s → E s) → hoare P m Q E.
Proof.
  intros Hm HP HQ HE s Hs. specialize (Hm s (HP s Hs)).
  destruct (m s) as [[s1 e1] [x|a]]; auto.
Qed.

Lemma hoare_when P E (b : bool) (m : Js S unit) (Q : unit → S → Prop) :
  (b = true → hoare P m Q E) → (b = false → ∀ s, P s → Q tt s) →
  hoare P (when b m) Q E.
Proof.
  intros Hm Hr. destruct b; simpl; [by apply Hm|]. apply hoare_ret. by apply Hr.
Qed.

Lemma preserves_bind {A B} (I : S → Prop) (m : Js S A) (k : A → Js S B) :
  preserves I m → (∀ a, preserves I (k a)) → preserves I (bind m k).
Proof. intros Hm Hk. by eapply hoare_bind. Qed.

Lemma preserves_ret {A} (I : S → Prop) (a : A) : preserves I (ret a).
Proof. by apply hoare_ret. Qed.

Lemma preserves_throw {A} (I : S → Prop) (x : Exn) : preserves I (throw (A:=A) x).
Proof. by apply hoare_throw. Qed.

Lemma preserves_gets {A} (I : S → Prop) (f : S → A) : preserves I (gets f).
Proof. by intros s Hs. Qed.

Lemma preserves_effect (I : S → Prop) (e : Effect) : preserves I (effect e).
Proof. by intros s Hs. Qed.

Lemma preserves_effects (I : S → Prop) (es : list Effect) : preserves I (effects es).
Proof. by intros s Hs. Qed.

Lemma preserves_await {A} (I : S → Prop) (call : Effect) (answer : option A) :
  preserves I (await call answer).
Proof. intros s Hs. unfold await. by destruct answer. Qed.

Lemma preserves_modify (I : S → Prop) (f : S → S) :
  (∀ s, I s → I (f s)) → preserves I (modify f).
Proof. intros H. by apply hoare_modify. Qed.

Lemma preserves_try_catch {A} (I : S → Prop) (body : Js S A)
    (handler : Exn → Js S A) :
  preserves I body → (∀ x, preserves I (handler x)) →
  preserves I (try_catch body handler).
Proof. intros Hb Hh. by eapply hoare_try_catch. Qed.

Lemma preserves_when (I : S → Prop) (b : bool) (m : Js S unit) :
  preserves I m → preserves I (when b m).
Proof. intros Hm. destruct b; [done|apply preserves_ret]. Qed.

Lemma preserves_exec {A} (I : S → Prop) (m : Js S A) (s : S) :
  preserves I m → I s → I (exec m s).1.
Proof.
  intros Hm Hs. specialize (Hm s Hs). unfold exec.
  by destruct (m s) as [[s1 e1] [x|a]].
Qed.
End hoare.

(** ** Disconnect of a socket that never joined *)

(** C10: a disconnect on a socket for which [this.peers] holds no peer
    leaves the server and the socket as they are (the rooms map, the
    peers map and every peer object are unchanged) and calls nothing:
    no transport, producer, consumer or router is closed. *)
Theorem disconnect_without_peer_is_noop (s : SFUServer) (sock : Socket) :
  peers_get s (socket_id sock) = None →
  handleDisconnect {| this := s; socket := sock |}
  = ({| this := s; socket := sock |}, [], inr tt).
Proof.
  intros Hnone. unfold handleDisconnect, bind, gets. simpl.
  by rewrite Hnone.
Qed.

Lemma disconnect_without_peer_witness :
  handleDisconnect {| this := new_server []; socket := new_socket "s9" |}
  = ({| this := new_server []; socket := new_socket "s9" |}, [], inr tt).
Proof.
  apply (disconnect_without_peer_is_noop (new_server []) (new_socket "s9")).
  reflexivity.
Defined.

(** ** Consume of a producer the room does not hold *)

Lemma consume_body_absent (s : SFUServer) (sock : Socket)
    (transportId producerId : string) (canConsume : bool)
    (consumed : option Consumer) :
  (∀ room, rooms_get s (socket_roomId sock) = Some room →
           JsMap.get (room_producers room) producerId = None) →
  ∃ e, not_found e ∧
    consume_body transportId producerId canConsume consumed
      {| this := s; socket := sock |}
    = ({| this := s; socket := sock |}, [], inl e).
Proof.
  intros Habsent. unfold consume_body, peer_and_room, bind, gets. simpl.
  destruct (peers_get s (socket_id sock)) as [[ref peer]|];
    [destruct (rooms_get s (socket_roomId sock)) as [room|] eqn:Hroom|].
  - simpl. rewrite (Habsent room eq_refl).
    exists (Error "Transport or producer not found"). split; [by right|].
    by destruct (JsMap.get (peer_transports peer) transportId).
  - exists (Error "Peer or room not found"). split; [by left|done].
  - exists (Error "Peer or room not found"). split; [by left|done].
Qed.

(** C5: a consume request that names a producer id which the room of
    the requesting socket does not hold fails with a not-found error:
    the [try] block throws "Peer or room not found" or "Transport or
    producer not found" before any call of the engine, the handler
    answers with exactly one [error] event on the socket and does
    nothing else (the socket is not closed), and the server is left as
    it was, so no consumer is created and no consumer map changes. *)
Theorem consume_absent_producer_fails (s : SFUServer) (sock : Socket)
    (transportId producerId : string) (canConsume : bool)
    (consumed : option Consumer) :
  (∀ room, rooms_get s (socket_roomId sock) = Some room →
           JsMap.get (room_producers room) producerId = None) →
  (∃ e, not_found e ∧
     consume_body transportId producerId canConsume consumed
       {| this := s; socket := sock |}
     = ({| this := s; socket := sock |}, [], inl e)) ∧
  handleConsume transportId producerId canConsume consumed
    {| this := s; socket := sock |}
  = ({| this := s; socket := sock |},
     [SocketEmit (socket_id sock) (error_event "Failed to create consumer")],
     inr tt).
Proof.
  intros Habsent.
  destruct (consume_body_absent s sock transportId producerId canConsume
              consumed Habsent) as (e & He & Hbody).
  split; [by exists e|].
  unfold handleConsume, try_catch. by rewrite Hbody.
Qed.

Lemma consume_absent_producer_witness :
  handleConsume "t1" "p404" true (Some consumer1) (ctx_of world_joined "s1")
  = (ctx_of world_joined "s1",
     [SocketEmit "s1" (error_event "Failed to create consumer")], inr tt).
Proof.
  apply (consume_absent_producer_fails (server world_joined)
           (socket_of world_joined "s1") "t1" "p404" true (Some consumer1)).
  intros room Hroom. vm_compute in Hroom. injection Hroom as <-. reflexivity.
Defined.

(** ** Join *)

Lemma join_existing_room (s : SFUServer) (sock : Socket) (roomId peerId : string)
    (createRouter : option Router) (room : Room) :
  rooms s !! roomId = Some room →
  handleJoinRoom roomId peerId createRouter {| this := s; socket := sock |}
  = (after_join s sock roomId peerId room, join_response sock room, inr tt).
Proof.
  intros Hroom.
  unfold handleJoinRoom, after_join, join_response. js_unfold.
  simpl. repeat (rewrite ?Hroom, ?lookup_insert_eq; simpl).
  destruct room as [rt ps prods]. simpl.
  destruct prods as [|[k v] prods]; simpl; reflexivity.
Qed.

Lemma join_new_room (s : SFUServer) (sock : Socket) (roomId peerId : string)
    (router : Router) :
  rooms s !! roomId = None →
  handleJoinRoom roomId peerId (Some router) {| this := s; socket := sock |}
  = (after_join s sock roomId peerId (new_room router),
     CreateRouter :: join_response sock (new_room router), inr tt).
Proof.
  intros Hroom.
  unfold handleJoinRoom, after_join, join_response. js_unfold.
  simpl. repeat (rewrite ?Hroom, ?lookup_insert_eq; simpl).
  by rewrite insert_insert_eq.
Qed.

Lemma join_router_rejected (s : SFUServer) (sock : Socket) (roomId peerId : string) :
  rooms s !! roomId = None →
  handleJoinRoom roomId peerId None {| this := s; socket := sock |}
  = ({| this := s; socket := sock |},
     [CreateRouter; SocketEmit (socket_id sock) (error_event "Failed to join room")],
     inr tt).
Proof.
  intros Hroom. unfold handleJoinRoom. js_unfold. simpl. by rewrite Hroom.
Qed.

Lemma emitted_to_join_response (sock : Socket) (room : Room) :
  emitted_to (socket_id sock) (join_response sock room)
  = router_rtp_capabilities (rtpCapabilities (room_router room)) ::
    match JsMap.keys (room_producers room) with
    | [] => []
    | ids => [existing_producers ids]
    end.
Proof.
  unfold join_response, emitted_to. simpl. rewrite decide_True by done.
  destruct (JsMap.keys (room_producers room)); simpl; [done|].
  by rewrite decide_True.
Qed.

(** C1, as the code has it: a join-room that creates its room (every
    join on an empty registry does) and whose router is created is
    answered by the router capability snapshot alone; no
    existing-producers event is sent for a room without producers.  A
    join-room into a room that already holds producers is answered by
    the capability snapshot followed by one existing-producers event
    that lists exactly the ids under which the room holds producers, in
    insertion order: exactly that producer's id when the room holds
    one. *)
Theorem join_room_response_events (s : SFUServer) (sock : Socket)
    (roomId peerId : string) (createRouter : option Router) :
  (∀ router, rooms s !! roomId = None → createRouter = Some router →
     join_events s sock roomId peerId createRouter
     = [router_rtp_capabilities (rtpCapabilities router)]) ∧
  (∀ room, rooms s !! roomId = Some room →
     JsMap.keys (room_producers room) ≠ [] →
     join_events s sock roomId peerId createRouter
     = [router_rtp_capabilities (rtpCapabilities (room_router room));
        existing_producers (JsMap.keys (room_producers room))]) ∧
  (∀ room p, rooms s !! roomId = Some room →
     room_producers room = [(producer_id p, p)] →
     join_events s sock roomId peerId createRouter
     = [router_rtp_capabilities (rtpCapabilities (room_router room));
        existing_producers [producer_id p]]).
Proof.
  unfold join_events. split; [|split].
  - intros router Hnone ->.
    rewrite (exec_eq _ _ _ _ _ (join_new_room _ sock _ peerId _ Hnone)).
    cbn [snd]. unfold emitted_to at 1. cbn [omap list_omap].
    fold (emitted_to (socket_id sock) (join_response sock (new_room router))).
    by rewrite emitted_to_join_response.
  - intros room Hroom Hkeys.
    rewrite (exec_eq _ _ _ _ _
               (join_existing_room _ sock _ peerId createRouter _ Hroom)).
    cbn [snd]. rewrite emitted_to_join_response.
    by destruct (JsMap.keys (room_producers room)).
  - intros room p Hroom Hprods.
    rewrite (exec_eq _ _ _ _ _
               (join_existing_room _ sock _ peerId createRouter _ Hroom)).
    cbn [snd]. rewrite emitted_to_join_response. by rewrite Hprods.
Qed.

Lemma join_room_response_events_witness :
  join_events (new_server []) (new_socket "s1") "security" "peer1" (Some router0)
  = [router_rtp_capabilities (rtpCapabilities router0)] ∧
  join_events (server world_producing) (socket_of world_producing "s2")
    "security" "peer2" None
  = [router_rtp_capabilities (rtpCapabilities router0); existing_producers ["p1"]].
Proof.
  split.
  - apply (proj1 (join_room_response_events (new_server []) (new_socket "s1")
                    "security" "peer1" (Some router0))); reflexivity.
  - apply (proj2 (proj2 (join_room_response_events (server world_producing)
                           (socket_of world_producing "s2") "security" "peer2"
                           None))
             {| room_router := router0; room_peers := {["peer1" := 0]};
                room_producers := [("p1", producer1)] |} producer1);
      reflexivity.
Defined.

(** C1 as stated fails: on the empty registry the answer to
    [join-room {security, peer1}] holds no existing-producers event at
    all, so none with an empty list. *)
Lemma join_empty_registry_no_existing_producers :
  ¬ ∃ ids, existing_producers ids ∈
      join_events (new_server []) (new_socket "s1") "security" "peer1"
        (Some router0).
Proof.
  intros [ids Hin]. vm_compute in Hin.
  apply list_elem_of_singleton in Hin. discriminate Hin.
Qed.

(** ** Joining twice *)

Lemma lookup_allocated (objects extra : list Peer) (ref : nat) :
  ref < length objects → (objects ++ extra) !! ref = objects !! ref.
Proof. intros H. by apply lookup_app_l. Qed.



Lemma after_join_allocated (s : SFUServer) (sock : Socket) (roomId peerId : string)
    (room : Room) :
  refs_allocated s →
  (∀ peerId ref, room_peers room !! peerId = Some ref →
                 ref < length (peer_objects s)) →
  refs_allocated (this (after_join s sock roomId peerId room)).
Proof.
  unfold refs_allocated, map_Forall.
  intros [Hpeers Hrooms] Hroom. unfold after_join. simpl.
  rewrite length_app. simpl. split.
  - intros sid ref. destruct (decide (socket_id sock = sid)) as [<-|Hne].
    + rewrite lookup_insert_eq. intros [= <-]. lia.
    + rewrite lookup_insert_ne by done. intros H%Hpeers. lia.
  - intros r room'. destruct (decide (roomId = r)) as [<-|Hne].
    + rewrite lookup_insert_eq. intros [= <-] p ref. simpl.
      destruct (decide (peerId = p)) as [<-|Hnep].
      * rewrite lookup_insert_eq. intros [= <-]. lia.
      * rewrite lookup_insert_ne by done. intros H%Hroom. lia.
    + rewrite lookup_insert_ne by done. intros Hr p ref Hp.
      pose proof (Hrooms _ _ Hr _ _ Hp). lia.
Qed.






(** ** Rooms and their peers *)

Lemma disconnect_spec (c : Ctx) :
  handleDisconnect c = (after_disconnect c, disconnect_effects c, inr tt).
Proof.
  destruct c as [s sock].
  unfold handleDisconnect, after_disconnect, disconnect_effects, rooms_get,
    room_after_leave.
  js_unfold. simpl.
  destruct (peers_get s (socket_id sock)) as [[ref peer]|]; [|done]. simpl.
  destruct (socket_roomId sock) as [r|]; simpl; [|done].
  destruct (rooms s !! r) as [room|] eqn:Hroom; simpl; [|done].
  repeat (rewrite ?Hroom, ?lookup_insert_eq; simpl).
  case_bool_decide; simpl.
  - rewrite !delete_insert_eq. by rewrite !app_nil_r, <- ?app_assoc.
  - rewrite !insert_insert_eq. by rewrite !app_nil_r.
Qed.

Lemma after_join_populated (s : SFUServer) (sock : Socket) (roomId peerId : string)
    (room : Room) :
  rooms_populated s → rooms_populated (this (after_join s sock roomId peerId room)).
Proof.
  unfold rooms_populated, map_Forall, after_join. simpl. intros Hs r room'.
  destruct (decide (roomId = r)) as [<-|Hne].
  - rewrite lookup_insert_eq. intros [= <-]. simpl. apply insert_non_empty.
  - rewrite lookup_insert_ne by done. apply Hs.
Qed.

Lemma join_registry_ok (roomId peerId : string) (createRouter : option Router) :
  preserves registry_ok (handleJoinRoom roomId peerId createRouter).
Proof.
  intros [s sock] [Hpop Hrefs].
  destruct (rooms s !! roomId) as [room|] eqn:Hroom.
  - rewrite (join_existing_room s sock roomId peerId createRouter room Hroom).
    split; [by apply after_join_populated|].
    apply after_join_allocated; [done|]. by apply (proj2 Hrefs roomId room).
  - destruct createRouter as [router|].
    + rewrite (join_new_room s sock roomId peerId router Hroom).
      split; [by apply after_join_populated|].
      apply after_join_allocated; [done|]. intros p ref. simpl.
      by rewrite lookup_empty.
    + by rewrite (join_router_rejected s sock roomId peerId Hroom).
Qed.

Lemma disconnect_registry_ok : preserves registry_ok handleDisconnect.
Proof.
  intros [s sock] [Hpop [Hpeers Hrooms]]. rewrite disconnect_spec.
  unfold after_disconnect. simpl.
  destruct (peers_get s (socket_id sock)) as [[ref peer]|]; [|done].
  unfold registry_ok, rooms_populated, refs_allocated, map_Forall in *. simpl.
  assert (Hdel : ∀ sid ref', delete (socket_id sock) (peers s) !! sid = Some ref' →
                             ref' < length (peer_objects s)).
  { intros sid ref' [_ H]%lookup_delete_Some. by eapply Hpeers. }
  destruct (socket_roomId sock) as [r|]; [|done].
  destruct (rooms s !! r) as [room|] eqn:Hroom; [|done].
  case_bool_decide as Hsize.
  - split; [|split; [done|]].
    + intros r' room' [_ H]%lookup_delete_Some. by eapply Hpop.
    + intros r' room' [_ H]%lookup_delete_Some. by eapply Hrooms.
  - split; [|split; [done|]].
    + intros r' room'. destruct (decide (r = r')) as [<-|Hne].
      * rewrite lookup_insert_eq. intros [= <-]. simpl.
        intros Hempty. apply Hsize. simpl. rewrite Hempty. apply map_size_empty.
      * rewrite lookup_insert_ne by done. apply Hpop.
    + intros r' room'. destruct (decide (r = r')) as [<-|Hne].
      * rewrite lookup_insert_eq. intros [= <-] p ref'. simpl.
        intros [_ H]%lookup_delete_Some. by eapply (Hrooms r room).
      * rewrite lookup_insert_ne by done. apply Hrooms.
Qed.

Lemma update_peer_registry_ok (ref : nat) (f : Peer → Peer) :
  preserves registry_ok (update_peer ref f).
Proof.
  apply preserves_modify. intros [s sock] [Hpop [Hpeers Hrooms]].
  unfold registry_ok, rooms_populated, refs_allocated, map_Forall,
    set_peer_objects in *. simpl in *.
  destruct (peer_objects s !! ref); [|done]. by rewrite length_insert.
Qed.

Lemma update_room_producers_registry_ok (roomId : option string)
    (f : JsMap.t Producer → JsMap.t Producer) :
  preserves registry_ok (update_room roomId (with_room_producers f)).
Proof.
  destruct roomId as [r|]; [|apply preserves_ret]. apply preserves_modify.
  intros [s sock] [Hpop [Hpeers Hrooms]].
  unfold registry_ok, rooms_populated, refs_allocated, map_Forall, set_rooms in *.
  simpl in *. destruct (rooms s !! r) as [room|] eqn:Hroom; [|done].
  split; [|split; [done|]].
  - intros r' room'. destruct (decide (r = r')) as [<-|Hne].
    + rewrite lookup_insert_eq. intros [= <-]. simpl. by eapply Hpop.
    + rewrite lookup_insert_ne by done. apply Hpop.
  - intros r' room'. destruct (decide (r = r')) as [<-|Hne].
    + rewrite lookup_insert_eq. intros [= <-]. simpl. by eapply Hrooms.
    + rewrite lookup_insert_ne by done. apply Hrooms.
Qed.

Ltac registry_step :=
  lazymatch goal with
  | |- preserves _ (bind _ _) => apply preserves_bind; [|intros ?]
  | |- preserves _ (try_catch _ _) => apply preserves_try_catch; [|intros ?]
  | |- preserves _ (ret _) => apply preserves_ret
  | |- preserves _ (throw _) => apply preserves_throw
  | |- preserves _ (gets _) => apply preserves_gets
  | |- preserves _ (effect _) => apply preserves_effect
  | |- preserves _ (effects _) => apply preserves_effects
  | |- preserves _ (await _ _) => apply preserves_await
  | |- preserves _ (when _ _) => apply preserves_when
  | |- preserves _ (emit _) => intros ? ?; assumption
  | |- preserves _ (emit_to_room _) => intros ? ?; assumption
  | |- preserves _ (update_room _ (with_room_producers _)) =>
      apply update_room_producers_registry_ok
  | |- preserves _ (update_peer _ _) => apply update_peer_registry_ok
  | |- preserves _ (if ?b then _ else _) => destruct b
  | |- preserves _ (match ?o with _ => _ end) => destruct o
  end.

Lemma handle_registry_ok (cmd : Command) : preserves registry_ok (handle cmd).
Proof.
  destruct cmd; simpl;
    [apply join_registry_ok| | | | | |apply disconnect_registry_ok];
    unfold handleCreateWebRTCTransport, handleConnectTransport, handleProduce,
      handleConsume, consume_body, handleResumeConsumer, peer_and_room;
    repeat registry_step.
Qed.

(** ** The availability probe *)

Lemma resolve_promise (v : bool) (p : Probe) :
  promise (resolve v p) = match promise p with pending => resolved v | q => q end.
Proof. destruct p as [out err [| |]]; reflexivity. Qed.

Lemma probe_step_settled (p : Probe) (ev : ProbeEvent) :
  promise p ≠ pending → promise (probe_step p ev) = promise p.
Proof.
  intros Hp. destruct ev; simpl; try done;
    repeat case_match; rewrite resolve_promise; by destruct (promise p).
Qed.

Lemma probe_settled_stable (evs : list ProbeEvent) (p : Probe) :
  promise p ≠ pending → promise (foldl probe_step p evs) = promise p.
Proof.
  revert p. induction evs as [|ev evs IH]; intros p Hp; simpl; [done|].
  rewrite IH; rewrite probe_step_settled; done.
Qed.

Lemma probe_step_not_rejected (p : Probe) (ev : ProbeEvent) :
  promise p ≠ rejected → promise (probe_step p ev) ≠ rejected.
Proof.
  intros Hp. destruct ev; simpl; try done;
    repeat case_match; rewrite resolve_promise; by destruct (promise p).
Qed.

Lemma probe_never_rejected (evs : list ProbeEvent) (p : Probe) :
  promise p ≠ rejected → promise (foldl probe_step p evs) ≠ rejected.
Proof.
  revert p. induction evs as [|ev evs IH]; intros p Hp; simpl; [done|].
  by apply IH, probe_step_not_rejected.
Qed.

Lemma probe_before_settling (pre : list ProbeEvent) (p : Probe) :
  forallb (λ ev, negb (settles ev)) pre = true →
  foldl probe_step p pre
  = {| output := foldl (λ out ev, match ev with
                                  | probe_stdout d => out +:+ d
                                  | _ => out
                                  end) (output p) pre;
       errored := errored p || saw_error pre;
       promise := promise p |}.
Proof.
  revert p. induction pre as [|ev pre IH]; intros p Hpre; simpl.
  - rewrite orb_false_r. by destruct p.
  - simpl in Hpre. apply andb_prop in Hpre as [Hev Hpre].
    rewrite (IH _ Hpre). destruct ev; simpl in *; try done.
    + by rewrite orb_true_r.
Qed.

Lemma probe_settles_at (pre : list ProbeEvent) (ev : ProbeEvent)
    (post : list ProbeEvent) :
  forallb (λ ev, negb (settles ev)) pre = true →
  settles ev = true →
  checkStreamAvailable false (pre ++ ev :: post)
  = resolved match ev with
             | probe_close code =>
                 negb (saw_error pre) && exit_code_is_zero code
                 && has_output (stdout_of pre)
             | _ => false
             end.
Proof.
  intros Hpre Hev. unfold checkStreamAvailable.
  rewrite foldl_app. simpl. rewrite probe_settled_stable.
  - rewrite (probe_before_settling _ _ Hpre). simpl.
    fold (stdout_of pre).
    destruct ev; try done; simpl.
    destruct (saw_error pre), (exit_code_is_zero code),
      (has_output (stdout_of pre)); done.
  - rewrite (probe_before_settling _ _ Hpre). simpl.
    destruct ev; try done; simpl; repeat case_match; done.
Qed.

Lemma split_at_first_settling (evs : list ProbeEvent) :
  (∃ ev, ev ∈ evs ∧ settles ev = true) →
  ∃ pre ev post, evs = pre ++ ev :: post ∧
    forallb (λ ev, negb (settles ev)) pre = true ∧ settles ev = true.
Proof.
  induction evs as [|e evs IH]; intros (ev & Hin & Hev).
  - by apply elem_of_nil in Hin.
  - destruct (settles e) eqn:He.
    + exists [], e, evs. done.
    + destruct IH as (pre & ev' & post & -> & Hpre & Hev').
      * apply elem_of_cons in Hin as [->|Hin]; [congruence|]. by exists ev.
      * exists (e :: pre), ev', post. simpl. rewrite He. done.
Qed.

Lemma saw_error_elem (evs : list ProbeEvent) :
  saw_error evs = true ↔ probe_error ∈ evs.
Proof.
  unfold saw_error. rewrite existsb_exists. split.
  - intros (ev & Hin & Hev). destruct ev; try done. by apply list_elem_of_In.
  - intros Hin. exists probe_error. split; [by apply list_elem_of_In|done].
Qed.

(** What [trimStart] leaves begins with no white space. *)
Lemma trimStart_idemp (s : string) :
  Str.trimStart (Str.trimStart s) = Str.trimStart s.
Proof.
  assert (H : ∀ n s, String.length s ≤ n →
                     Str.trimStart (Str.trimStart s) = Str.trimStart s);
    [|by apply (H (String.length s))].
  clear s. induction n as [|n IH]; intros s Hn.
  - destruct s; [done|simpl in Hn; lia].
  - destruct s as [|c s1]; [done|]. simpl in Hn. cbn [Str.trimStart].
    destruct (Str.space_width (String c s1)) as [|[|[|k]]] eqn:Hw.
    + cbn [Str.trimStart]. by rewrite Hw.
    + apply IH. lia.
    + destruct s1 as [|c1 s2]; [cbn [Str.trimStart]; by rewrite Hw|].
      apply IH. simpl in Hn. lia.
    + destruct s1 as [|c1 [|c2 s3]]; try (cbn [Str.trimStart]; by rewrite Hw).
      apply IH. simpl in Hn. lia.
Qed.

Lemma has_output_blank (out : string) : has_output out = negb (Str.blank out).
Proof.
  unfold has_output, Str.trim. destruct out as [|c out]; [done|].
  unfold Str.blank at 1.
  pose proof (trimStart_idemp (String c out)) as Hid.
  destruct (Str.trimStart (String c out)) as [|c' t]; [done|].
  cbn [Str.trimEnd]. unfold Str.blank. by rewrite Hid.
Qed.

(** C9: the promise of [checkStreamAvailable] is never rejected; it is
    resolved with a boolean as soon as the probe process closes or the
    safety timer fires (the timer is armed in every run in which the
    spawn does not throw, so every run settles), and at once when the
    spawn throws.  The value is [false] in every failure mode: a thrown
    spawn, the timer firing before the close, a close with an exit code
    other than 0 (a null code included), a close after an ['error']
    event, and a close after no output or white space only; it is
    [true] for a close with code 0, without error, after output that is
    not blank, and in no other case. *)
Theorem checkStreamAvailable_total (spawn_throws : bool) (evs : list ProbeEvent) :
  checkStreamAvailable spawn_throws evs ≠ rejected ∧
  (spawn_throws = true → checkStreamAvailable spawn_throws evs = resolved false) ∧
  ((∃ ev, ev ∈ evs ∧ settles ev = true) →
   ∃ b, checkStreamAvailable spawn_throws evs = resolved b) ∧
  (∀ pre ev post,
     spawn_throws = false →
     evs = pre ++ ev :: post →
     forallb (λ ev, negb (settles ev)) pre = true →
     settles ev = true →
     (ev = probe_timeout →
      checkStreamAvailable spawn_throws evs = resolved false) ∧
     (∀ code, ev = probe_close code → code ≠ Some 0%Z →
      checkStreamAvailable spawn_throws evs = resolved false) ∧
     (∀ code, ev = probe_close code → probe_error ∈ pre →
      checkStreamAvailable spawn_throws evs = resolved false) ∧
     (∀ code, ev = probe_close code → Str.blank (stdout_of pre) = true →
      checkStreamAvailable spawn_throws evs = resolved false) ∧
     (ev = probe_close (Some 0%Z) → probe_error ∉ pre →
      Str.blank (stdout_of pre) = false →
      checkStreamAvailable spawn_throws evs = resolved true) ∧
     (checkStreamAvailable spawn_throws evs = resolved true →
      ev = probe_close (Some 0%Z) ∧ (probe_error ∉ pre) ∧
      Str.blank (stdout_of pre) = false)).
Proof.
  split; [|split; [|split]].
  - unfold checkStreamAvailable. destruct spawn_throws; [done|].
    by apply probe_never_rejected.
  - by intros ->.
  - intros Hsettles. destruct spawn_throws; [by exists false|].
    destruct (split_at_first_settling evs Hsettles)
      as (pre & ev & post & -> & Hpre & Hev).
    rewrite (probe_settles_at pre ev post Hpre Hev). eauto.
  - intros pre ev post -> -> Hpre Hev.
    rewrite (probe_settles_at pre ev post Hpre Hev).
    assert (Herr : saw_error pre = false ↔ probe_error ∉ pre).
    { rewrite <- saw_error_elem. by destruct (saw_error pre). }
    split; [by intros ->|]. split; [|split; [|split; [|split]]].
    + intros code -> Hcode. f_equal.
      destruct code as [[| |]|]; simpl; try done; by rewrite andb_false_r.
    + intros code -> Hin. apply saw_error_elem in Hin. by rewrite Hin.
    + intros code -> Hblank. rewrite has_output_blank, Hblank.
      by rewrite andb_false_r.
    + intros -> Hin Hblank. apply Herr in Hin.
      by rewrite Hin, has_output_blank, Hblank.
    + destruct ev; try done. intros [= Htrue].
      apply andb_prop in Htrue as [[Hne Hcode]%andb_prop Hout].
      rewrite has_output_blank in Hout. apply negb_true_iff in Hout.
      apply negb_true_iff in Hne. apply Herr in Hne.
      split; [|done]. by destruct code as [[| |]|].
Qed.

Lemma checkStreamAvailable_total_witness :
  checkStreamAvailable false
    [probe_stdout "h264"; probe_close (Some 0%Z); probe_timeout] = resolved true ∧
  checkStreamAvailable false
    [probe_stdout "h264"; probe_close (Some 1%Z)] = resolved false ∧
  checkStreamAvailable false [probe_stdout "h264"; probe_close None]
  = resolved false ∧
  checkStreamAvailable false [probe_close (Some 0%Z)] = resolved false ∧
  checkStreamAvailable false
    [probe_stdout " "; probe_stdout (String "010" ""); probe_close (Some 0%Z)]
  = resolved false ∧
  checkStreamAvailable false
    [probe_stdout "h264"; probe_error; probe_close (Some 0%Z)] = resolved false ∧
  checkStreamAvailable false
    [probe_stdout "h264"; probe_stderr "Connection refused"; probe_timeout;
     probe_close (Some 0%Z)] = resolved false ∧
  checkStreamAvailable true [] = resolved false.
Proof.
  split; [|split; [|split; [|split; [|split; [|split; [|split]]]]]].
  - apply (proj1 (proj2 (proj2 (proj2 (proj2
      (proj2 (proj2 (proj2 (checkStreamAvailable_total false
         [probe_stdout "h264"; probe_close (Some 0%Z); probe_timeout])))
         [probe_stdout "h264"] (probe_close (Some 0%Z)) [probe_timeout]
         eq_refl eq_refl eq_refl eq_refl)))))); [reflexivity| |reflexivity].
    intros [=]%list_elem_of_singleton.
  - apply (proj1 (proj2
      (proj2 (proj2 (proj2 (checkStreamAvailable_total false
         [probe_stdout "h264"; probe_close (Some 1%Z)])))
         [probe_stdout "h264"] (probe_close (Some 1%Z)) []
         eq_refl eq_refl eq_refl eq_refl)) (Some 1%Z)); [reflexivity|discriminate].
  - apply (proj1 (proj2
      (proj2 (proj2 (proj2 (checkStreamAvailable_total false
         [probe_stdout "h264"; probe_close None])))
         [probe_stdout "h264"] (probe_close None) []
         eq_refl eq_refl eq_refl eq_refl)) None); [reflexivity|discriminate].
  - apply (proj1 (proj2 (proj2 (proj2
      (proj2 (proj2 (proj2 (checkStreamAvailable_total false
         [probe_close (Some 0%Z)])))
         [] (probe_close (Some 0%Z)) []
         eq_refl eq_refl eq_refl eq_refl)))) (Some 0%Z)); reflexivity.
  - apply (proj1 (proj2 (proj2 (proj2
      (proj2 (proj2 (proj2 (checkStreamAvailable_total false
         [probe_stdout " "; probe_stdout (String "010" ""); probe_close (Some 0%Z)])))
         [probe_stdout " "; probe_stdout (String "010" "")] (probe_close (Some 0%Z)) []
         eq_refl eq_refl eq_refl eq_refl)))) (Some 0%Z)); reflexivity.
  - apply (proj1 (proj2 (proj2
      (proj2 (proj2 (proj2 (checkStreamAvailable_total false
         [probe_stdout "h264"; probe_error; probe_close (Some 0%Z)])))
         [probe_stdout "h264"; probe_error] (probe_close (Some 0%Z)) []
         eq_refl eq_refl eq_refl eq_refl))) (Some 0%Z)); [reflexivity|].
    apply list_elem_of_further, list_elem_of_here.
  - apply (proj1
      (proj2 (proj2 (proj2 (checkStreamAvailable_total false
         [probe_stdout "h264"; probe_stderr "Connection refused"; probe_timeout;
          probe_close (Some 0%Z)])))
         [probe_stdout "h264"; probe_stderr "Connection refused"] probe_timeout
         [probe_close (Some 0%Z)]
         eq_refl eq_refl eq_refl eq_refl)). reflexivity.
  - apply (proj1 (proj2 (checkStreamAvailable_total true []))). reflexivity.
Defined.

(** ** Synchronization-source ids *)

Lemma parse_digits_acc (d : Decimal.uint) (acc : positive) :
  Str.parse_digits Str.digit_value 10 (Some (N.pos acc)) (NilEmpty.string_of_uint d)
  = Some (N.pos (Pos.of_uint_acc d acc)).
Proof.
  revert acc. induction d; intros acc; simpl; [done|..];
    (etrans; [|apply IHd]); f_equal; f_equal; lia.
Qed.

Lemma parse_digits_zero (d : Decimal.uint) :
  Str.parse_digits Str.digit_value 10 (Some 0%N) (NilEmpty.string_of_uint d)
  = Some (Pos.of_uint d).
Proof.
  induction d; simpl; try done; apply parse_digits_acc.
Qed.

Lemma parse_digits_start (acc : option N) (s : string) :
  s ≠ EmptyString → default 0%N acc = 0%N →
  Str.parse_digits Str.digit_value 10 acc s
  = match Str.digit_value (match s with String c _ => c | _ => "0"%char end) with
    | Some _ => Str.parse_digits Str.digit_value 10 (Some 0%N) s
    | None => acc
    end.
Proof.
  intros Hs Hacc. destruct s as [|c s]; [done|]. simpl.
  destruct (Str.digit_value c); [|done]. by rewrite Hacc.
Qed.

Lemma parse_digits_zeros (k : nat) (s : string) :
  Str.parse_digits Str.digit_value 10 (Some 0%N) (Str.repeat "0" k +:+ s)
  = Str.parse_digits Str.digit_value 10 (Some 0%N) s.
Proof. induction k; simpl; done. Qed.

Lemma digit_value_code (c : ascii) (d : N) :
  Str.digit_value c = Some d → (48 <= N_of_ascii c <= 57)%N.
Proof.
  unfold Str.digit_value. intros H. case_match; [|done].
  apply andb_prop in H0 as [?%N.leb_le ?%N.leb_le]. lia.
Qed.

Lemma all_digits_uint (d : Decimal.uint) : all_digits (NilEmpty.string_of_uint d).
Proof.
  unfold all_digits. induction d; simpl; constructor; try done; by eexists.
Qed.

Lemma all_digits_zeros (k : nat) (s : string) :
  all_digits s → all_digits (Str.repeat "0" k +:+ s).
Proof.
  unfold all_digits. intros Hs. induction k; simpl; [done|].
  constructor; [by eexists|done].
Qed.

(** A character of one byte that is not white space begins no white
    space. *)
Lemma trimStart_ascii (c : ascii) (s : string) :
  Str.is_space c = false → (N_of_ascii c < 128)%N →
  Str.trimStart (String c s) = String c s.
Proof.
  intros Hsp Hc. simpl. rewrite Hsp.
  assert (H194 : (N_of_ascii c =? 194)%N = false) by (apply N.eqb_neq; lia).
  assert (H225 : (N_of_ascii c =? 225)%N = false) by (apply N.eqb_neq; lia).
  assert (H226 : (N_of_ascii c =? 226)%N = false) by (apply N.eqb_neq; lia).
  assert (H227 : (N_of_ascii c =? 227)%N = false) by (apply N.eqb_neq; lia).
  assert (H239 : (N_of_ascii c =? 239)%N = false) by (apply N.eqb_neq; lia).
  destruct s as [|c1 [|c2 s]]; [done|..]; rewrite H194; simpl; [done|].
  by rewrite H225, H226, H227, H239.
Qed.

Lemma digit_not_space (c : ascii) (d : N) :
  Str.digit_value c = Some d → Str.is_space c = false ∧ (N_of_ascii c < 128)%N.
Proof.
  intros Hd. pose proof (digit_value_code c d Hd) as Hc. split; [|lia].
  unfold Str.is_space. apply orb_false_intro;
    [apply andb_false_intro2, N.leb_gt|apply N.eqb_neq]; lia.
Qed.

(** The integers up to 2^53 are doubles. *)
Lemma to_double_exact (z : Z) :
  (Z.abs z ≤ 2 ^ 53)%Z → Str.to_double z = Num z.
Proof.
  intros Hz. unfold Str.to_double.
  by rewrite (proj2 (Z.leb_le (Z.abs z) (2 ^ 53)) Hz).
Qed.

(** On a non-empty string of digits [parseInt] reads the whole string
    in radix 10. *)
Lemma parseInt_digits (s : string) :
  all_digits s → s ≠ EmptyString →
  Str.parseInt s
  = from_option (λ n, Str.to_double (Z.of_N n)) NaN
      (Str.parse_digits Str.digit_value 10 (Some 0%N) s).
Proof.
  unfold all_digits. intros Hs Hne. destruct s as [|c s]; [done|].
  simpl in Hs. apply Forall_cons in Hs as [[d Hd] Hs].
  pose proof (digit_value_code c d Hd) as Hc.
  destruct (digit_not_space c d Hd) as [Hsp Hlt].
  unfold Str.parseInt. rewrite (trimStart_ascii c s Hsp Hlt).
  replace (N_of_ascii c =? 45)%N with false by (symmetry; apply N.eqb_neq; lia).
  replace (N_of_ascii c =? 43)%N with false by (symmetry; apply N.eqb_neq; lia).
  assert (Hdec : Str.parse_digits Str.digit_value 10 None (String c s)
                 = Str.parse_digits Str.digit_value 10 (Some 0%N) (String c s)).
  { simpl. by rewrite Hd. }
  assert (Hone : ∀ o : option N,
            match o with
            | Some n => Str.to_double (1 * Z.of_N n)
            | None => NaN
            end = from_option (λ n, Str.to_double (Z.of_N n)) NaN o).
  { intros [n|]; simpl; [by rewrite Z.mul_1_l|done]. }
  destruct s as [|c1 s].
  - rewrite Hdec. apply Hone.
  - apply Forall_cons in Hs as [[d1 Hd1] Hs].
    pose proof (digit_value_code c1 d1 Hd1) as Hc1.
    replace (N_of_ascii c1 =? 120)%N with false by (symmetry; apply N.eqb_neq; lia).
    replace (N_of_ascii c1 =? 88)%N with false by (symmetry; apply N.eqb_neq; lia).
    rewrite andb_false_r. rewrite Hdec. apply Hone.
Qed.

Lemma toString_uint (n : N) :
  Str.toString n = NilEmpty.string_of_uint (N.to_uint n) ∧
  Str.toString n ≠ EmptyString.
Proof.
  unfold Str.toString, NilZero.string_of_uint.
  assert (Hn : N.to_uint n ≠ Decimal.Nil).
  { destruct n as [|p]; [done|]. apply DecimalPos.Unsigned.to_uint_nonnil. }
  destruct (N.to_uint n); done.
Qed.

Lemma parseInt_padded (k : nat) (n : N) :
  Str.parseInt (Str.padStart k "0" (Str.toString n)) = Str.to_double (Z.of_N n).
Proof.
  destruct (toString_uint n) as [Heq Hne]. unfold Str.padStart.
  rewrite parseInt_digits.
  - rewrite parse_digits_zeros, Heq, parse_digits_zero.
    change (Pos.of_uint (N.to_uint n)) with (N.of_uint (N.to_uint n)).
    by rewrite DecimalN.Unsigned.of_to.
  - apply all_digits_zeros. rewrite Heq. apply all_digits_uint.
  - destruct (k - String.length (Str.toString n))%nat; simpl; [done|discriminate].
Qed.





(** ** Shutdown of the bridge *)

Lemma existsb_fmap_false {A} (f : Effect → bool) (g : A → Effect) (l : list A) :
  (∀ x, f (g x) = false) → existsb f (g <$> l) = false.
Proof. intros Hf. induction l as [|x l IH]; simpl; [done|]. by rewrite Hf. Qed.

Lemma stop_spec (c : BridgeCtx) : stop c = (stopped c, stop_effects c, inr tt).
Proof.
  unfold stop, stopped, stop_effects. js_unfold.
  unfold set_bridge, with_isRunning, with_ffmpegProcesses, with_bridge_producers.
  destruct c as [b l]. simpl.
  destruct (mainRouter b); simpl; by rewrite ?app_nil_r.
Qed.

Lemma retry_tick_stopped (cameraId rtspUrl : string) (ok : bool) (a : StreamAnswers)
    (c : BridgeCtx) :
  isRunning (bridge c) = false →
  retry_tick cameraId rtspUrl ok a c = (c, [], inr tt).
Proof. intros Hrun. unfold retry_tick. js_unfold. by rewrite Hrun. Qed.

(** C7, as the code has it: [stop()] clears the running flag, sends
    SIGTERM to every process registered in [ffmpegProcesses], closes
    every producer registered in [producers], closes the main router,
    and empties both maps.  It makes no other call: no retry timer is
    cleared (the intervals stay armed; what stops them is the running
    flag, which makes every later firing return at once), no process is
    sent SIGKILL, and no transport is closed by the bridge itself. *)
Theorem stop_signals_and_closes (c : BridgeCtx) :
  stop c = (stopped c, stop_effects c, inr tt) ∧
  isRunning (bridge (stopped c)) = false ∧
  (∀ p, p ∈ JsMap.values (ffmpegProcesses (bridge c)) →
        ProcessKill p SIGTERM ∈ stop_effects c) ∧
  (∀ p, p ∈ JsMap.values (bridge_producers (bridge c)) →
        ProducerClose p ∈ stop_effects c) ∧
  intervals (loop (stopped c)) = intervals (loop c) ∧
  routers (bridge (stopped c)) = routers (bridge c) ∧
  existsb is_ClearInterval (stop_effects c) = false ∧
  existsb is_SIGKILL (stop_effects c) = false ∧
  existsb is_TransportClose (stop_effects c) = false ∧
  (∀ cameraId rtspUrl ok a,
     retry_tick cameraId rtspUrl ok a (stopped c) = (stopped c, [], inr tt)).
Proof.
  split; [apply stop_spec|]. split; [done|].
  unfold stop_effects.
  split; [|split; [|split; [done|split; [done|split; [|split; [|split]]]]]].
  - intros p Hp. apply elem_of_app. left.
    apply (list_elem_of_fmap_2 (λ p, ProcessKill p SIGTERM)), Hp.
  - intros p Hp. apply elem_of_app. right. apply elem_of_app. left.
    by apply list_elem_of_fmap_2.
  - rewrite !existsb_app, !existsb_fmap_false by done.
    by destruct (mainRouter (bridge c)).
  - rewrite !existsb_app, !existsb_fmap_false by done.
    by destruct (mainRouter (bridge c)).
  - rewrite !existsb_app, !existsb_fmap_false by done.
    by destruct (mainRouter (bridge c)).
  - intros. by apply retry_tick_stopped.
Qed.

(** C7 as stated fails: with the first camera producing and the second
    waiting on its retry timer, [stop()] leaves that timer armed and
    clears none, sends SIGTERM but never SIGKILL, and closes no
    transport. *)
Lemma stop_cancels_no_timer_and_never_kills :
  let '(w, es) := step world_ingesting on_stop in
  intervals (timers w)
  = [{| timer_id := 0; timer_cameraId := "cam02";
        timer_rtspUrl := "rtsp://10.0.0.2/b" |}] ∧
  existsb is_ClearInterval es = false ∧
  es = [ProcessKill ffmpeg1 SIGTERM; ProducerClose camera_video;
        ProducerClose camera_audio; RouterClose router1] ∧
  existsb is_SIGKILL es = false ∧
  existsb is_TransportClose es = false.
Proof. vm_compute. repeat split. Qed.

Lemma stop_signals_and_closes_witness :
  ProcessKill ffmpeg1 SIGTERM ∈ stop_effects (bridge_ctx world_ingesting) ∧
  ProducerClose camera_audio ∈ stop_effects (bridge_ctx world_ingesting) ∧
  retry_tick "cam02" "rtsp://10.0.0.2/b" true answers_producing
    (stopped (bridge_ctx world_ingesting))
  = (stopped (bridge_ctx world_ingesting), [], inr tt).
Proof.
  pose proof (stop_signals_and_closes (bridge_ctx world_ingesting))
    as (_ & _ & Hkill & Hclose & _ & _ & _ & _ & _ & Htick).
  split; [|split].
  - apply Hkill. vm_compute. apply list_elem_of_here.
  - apply Hclose. vm_compute. apply list_elem_of_further, list_elem_of_here.
  - apply Htick.
Defined.

(** ** The retry timers of the bridge *)

Lemma arm_retry_spec (cameraId rtspUrl : string) (st : CameraState) (c : BridgeCtx) :
  routers (bridge c) !! cameraId = Some st →
  arm_retry cameraId rtspUrl c
  = (rearmed cameraId rtspUrl st c, rearm_effects cameraId rtspUrl st c, inr tt).
Proof.
  intros Hst. unfold arm_retry, state_of, clearInterval, setInterval, update_state,
    rearmed, rearm_effects, cleared. js_unfold. unfold set_bridge, with_routers.
  simpl. rewrite Hst. simpl.
  destruct (retryTimer st) as [t|]; simpl; rewrite Hst; reflexivity.
Qed.

Lemma cleared_subseteq (h : option nat) (l : list RetryTimer) (x : RetryTimer) :
  x ∈ cleared h l → x ∈ l ∧ h ≠ Some (timer_id x).
Proof.
  destruct h as [t|]; simpl; [|done].
  rewrite list_elem_of_filter. intros [Hne Hin]. split; [done|congruence].
Qed.

Lemma cleared_NoDup (h : option nat) (l : list RetryTimer) :
  NoDup (timer_id <$> l) → NoDup (timer_id <$> cleared h l).
Proof.
  destruct h as [t|]; simpl; [|done]. induction l as [|x l IH]; simpl; [done|].
  rewrite NoDup_cons. intros [Hx Hl]. rewrite filter_cons.
  case_decide; [|by apply IH]. simpl. apply NoDup_cons. split; [|by apply IH].
  intros (y & Hy & Hin)%list_elem_of_fmap. apply Hx. apply list_elem_of_fmap.
  exists y. split; [done|]. by apply list_elem_of_filter in Hin as [_ ?].
Qed.

Lemma NoDup_fmap_eq {A B} (f : A → B) (l : list A) (x y : A) :
  NoDup (f <$> l) → x ∈ l → y ∈ l → f x = f y → x = y.
Proof.
  induction l as [|z l IH]; simpl; [by intros _ ?%elem_of_nil|].
  rewrite NoDup_cons, !elem_of_cons. intros [Hz Hl] [->|Hx] [->|Hy] Heq; auto.
  - destruct Hz. rewrite Heq. by apply list_elem_of_fmap_2.
  - destruct Hz. rewrite <- Heq. by apply list_elem_of_fmap_2.
Qed.

(** A handle held by a camera is not the handle of an interval of
    another camera. *)
Lemma tracked_foreign_timer (c : BridgeCtx) (cameraId : string) (x : RetryTimer) :
  timers_tracked c → x ∈ intervals (loop c) → timer_cameraId x ≠ cameraId →
  retryTimer (default empty_state (routers (bridge c) !! cameraId))
  ≠ Some (timer_id x).
Proof.
  intros (Hnd & _ & _ & Hback) Hx Hne Heq.
  destruct (routers (bridge c) !! cameraId) as [st|] eqn:Hst; [|done].
  destruct (Hback cameraId st (timer_id x) Hst Heq) as (y & Hy & Hid & Hcam).
  apply Hne. rewrite <- Hcam. f_equal.
  by apply (NoDup_fmap_eq timer_id (intervals (loop c))).
Qed.

Lemma cleared_keeps (h : option nat) (l : list RetryTimer) (x : RetryTimer) :
  x ∈ l → h ≠ Some (timer_id x) → x ∈ cleared h l.
Proof.
  intros Hx Hne. destruct h as [t|]; simpl; [|done].
  apply list_elem_of_filter. split; [congruence|done].
Qed.

Lemma rearmed_tracked (cameraId rtspUrl : string) (st : CameraState) (c : BridgeCtx) :
  retryTimer st
  = retryTimer (default empty_state (routers (bridge c) !! cameraId)) →
  timers_tracked c → timers_tracked (rearmed cameraId rtspUrl st c).
Proof.
  intros Hst Hc. pose proof Hc as (Hnd & Hlt & Href & Hback).
  unfold timers_tracked, rearmed. simpl. split; [|split; [|split]].
  - rewrite fmap_app. simpl. apply NoDup_app. split; [by apply cleared_NoDup|].
    split; [|apply NoDup_singleton].
    intros t (x & -> & [Hx _]%cleared_subseteq)%list_elem_of_fmap
      Heq%list_elem_of_singleton.
    specialize (Hlt x Hx). lia.
  - intros x [[Hx _]%cleared_subseteq| ->%list_elem_of_singleton]%elem_of_app.
    + specialize (Hlt x Hx). lia.
    + simpl. lia.
  - intros x [[Hx Hne]%cleared_subseteq| ->%list_elem_of_singleton]%elem_of_app.
    + destruct (Href x Hx) as (st' & Hst' & Hid).
      destruct (decide (timer_cameraId x = cameraId)) as [Heq|Hneq].
      * rewrite Heq in Hst'. rewrite Hst' in Hst. simpl in Hst. congruence.
      * exists st'. by rewrite lookup_insert_ne.
    + simpl. eexists. by rewrite lookup_insert_eq.
  - intros cam st' t Hst' Ht.
    destruct (decide (cameraId = cam)) as [<-|Hne].
    + rewrite lookup_insert_eq in Hst'. injection Hst' as <-. simpl in Ht.
      injection Ht as <-.
      exists {| timer_id := next_timer (loop c); timer_cameraId := cameraId;
                timer_rtspUrl := rtspUrl |}.
      split; [|done]. apply elem_of_app. right. by apply list_elem_of_singleton.
    + rewrite lookup_insert_ne in Hst' by done.
      destruct (Hback cam st' t Hst' Ht) as (x & Hx & Hid & Hcam).
      exists x. split; [|done]. apply elem_of_app. left.
      apply cleared_keeps; [done|]. rewrite Hst.
      apply tracked_foreign_timer; [done..|congruence].
Qed.

Lemma arm_retry_tracked (cameraId rtspUrl : string) :
  preserves (tracked_with cameraId) (arm_retry cameraId rtspUrl).
Proof.
  intros c [Hc [st Hst]]. rewrite (arm_retry_spec _ _ _ _ Hst).
  split; [apply rearmed_tracked; [by rewrite Hst|done]|].
  simpl. rewrite lookup_insert_eq. by eexists.
Qed.

Lemma update_state_tracked (cameraId cam : string) (f : CameraState → CameraState) :
  (∀ st, retryTimer (f st) = retryTimer st) →
  preserves (tracked_with cameraId) (update_state cam f).
Proof.
  intros Hf. apply preserves_modify.
  intros [b l] [(Hnd & Hlt & Href & Hback) Hcam].
  unfold tracked_with, timers_tracked, set_bridge, with_routers. simpl in *.
  destruct (routers b !! cam) as [st|] eqn:Hst; [|done].
  split; [split; [done|split; [done|split]]|].
  - intros x Hx. destruct (Href x Hx) as (st' & Hst' & Hid).
    destruct (decide (cam = timer_cameraId x)) as [->|Hne].
    + exists (f st). rewrite lookup_insert_eq. split; [done|].
      rewrite Hf. congruence.
    + exists st'. by rewrite lookup_insert_ne.
  - intros cam' st' t Hst' Ht. destruct (decide (cam = cam')) as [<-|Hne].
    + rewrite lookup_insert_eq in Hst'. injection Hst' as <-.
      rewrite Hf in Ht. by apply (Hback cam st).
    + rewrite lookup_insert_ne in Hst' by done. by apply (Hback cam' st').
  - destruct (decide (cam = cameraId)) as [->|Hne].
    + rewrite lookup_insert_eq. by eexists.
    + by rewrite lookup_insert_ne.
Qed.

Lemma set_bridge_tracked (cameraId : string) (f : RTSPBridge → RTSPBridge) :
  (∀ b, routers (f b) = routers b) →
  preserves (tracked_with cameraId) (modify (set_bridge f)).
Proof.
  intros Hf. apply preserves_modify. intros [b l] Hc.
  unfold tracked_with, timers_tracked, set_bridge in *. simpl in *.
  by rewrite Hf.
Qed.

Lemma preserves_intro {S A} (I : S → Prop) (m : Js S A) :
  preserves I m → hoare I m (λ _, I) I.
Proof. done. Qed.

Ltac preserves_step :=
  lazymatch goal with
  | |- preserves _ (bind _ _) => apply preserves_bind; [|intros ?]
  | |- preserves _ (try_catch _ _) => apply preserves_try_catch; [|intros ?]
  | |- preserves _ (ret _) => apply preserves_ret
  | |- preserves _ (throw _) => apply preserves_throw
  | |- preserves _ (gets _) => apply preserves_gets
  | |- preserves _ (effect _) => apply preserves_effect
  | |- preserves _ (effects _) => apply preserves_effects
  | |- preserves _ (await _ _) => apply preserves_await
  | |- preserves _ (when _ _) => apply preserves_when
  | |- preserves _ (arm_retry _ _) => apply arm_retry_tracked
  | |- preserves _ (update_state _ _) =>
      apply update_state_tracked; intros []; reflexivity
  | |- preserves _ (modify (set_bridge _)) =>
      apply set_bridge_tracked; intros []; reflexivity
  | |- preserves _ (if ?b then _ else _) => destruct b
  | |- preserves _ (match ?o with _ => _ end) => destruct o
  end.

Lemma ensure_state_tracked (cameraId : string) (known : option CameraState) :
  hoare (λ c, timers_tracked c ∧ known = routers (bridge c) !! cameraId)
    (match known with
     | Some _ => ret tt
     | None => modify (set_bridge (with_routers <[cameraId := empty_state]>))
     end)
    (λ _, tracked_with cameraId) (tracked_with cameraId).
Proof.
  destruct known as [st|].
  - apply hoare_ret. intros c [Hc Hst]. split; [done|]. rewrite <- Hst. by eexists.
  - apply hoare_modify. intros [b l] [(Hnd & Hlt & Href & Hback) Hnone].
    simpl in *. split; [split; [done|split; [done|split]]|].
    + intros x Hx. destruct (Href x Hx) as (st & Hst & Hid). simpl in *.
      exists st. split; [|done]. rewrite lookup_insert_ne; [done|].
      intros ->. congruence.
    + intros cam st t. simpl. destruct (decide (cameraId = cam)) as [<-|Hne].
      * rewrite lookup_insert_eq. by intros [= <-].
      * rewrite lookup_insert_ne by done. apply Hback.
    + simpl. rewrite lookup_insert_eq. by eexists.
Qed.

Lemma startFFmpegProcess_tracked (cam rtspUrl cameraId : string) (v a : N)
    (ans : StreamAnswers) :
  preserves (tracked_with cam) (startFFmpegProcess rtspUrl cameraId v a ans).
Proof. unfold startFFmpegProcess. repeat preserves_step. Qed.

Lemma attempt_tracked (rtspUrl cameraId : string) (a : StreamAnswers) :
  preserves timers_tracked (startRTSPStream rtspUrl cameraId a).
Proof.
  unfold startRTSPStream.
  apply hoare_try_catch with (E' := tracked_with cameraId);
    [|intros x; apply hoare_ret; by intros c [Hc _]].
  eapply hoare_bind; [apply hoare_gets|]. intros known.
  eapply hoare_bind; [apply ensure_state_tracked|]. intros ?.
  eapply hoare_conseq with (P' := tracked_with cameraId)
    (Q' := λ _, tracked_with cameraId) (E' := tracked_with cameraId);
    [|done|by intros ? c [Hc _]|done].
  apply preserves_intro.
  unfold state_of.
  repeat first [apply startFFmpegProcess_tracked | preserves_step].
Qed.

Lemma ffmpeg_close_spec (cameraId rtspUrl : string) (code : option Z) (c : BridgeCtx) :
  ffmpeg_close cameraId rtspUrl code c
  = (after_close cameraId rtspUrl c, close_effects cameraId rtspUrl c, inr tt).
Proof.
  destruct c as [b l].
  unfold ffmpeg_close, after_close, close_effects, after_release, release_effects,
    arm_retry, state_of, clearInterval, setInterval, update_state, rearmed,
    rearm_effects, cleared, close_if, delete_if.
  js_unfold. unfold set_bridge, with_routers, with_ffmpegProcesses,
    with_bridge_producers. simpl.
  destruct (routers b !! cameraId) as [st|] eqn:Hst; simpl.
  - destruct (videoProducer st), (audioProducer st), (videoTransport st),
      (audioTransport st), (isRunning b) eqn:Hrun; simpl;
      rewrite ?Hst, ?lookup_insert_eq; simpl;
      destruct (retryTimer st); simpl;
      rewrite ?Hst, ?lookup_insert_eq, ?insert_insert_eq, ?Hrun; simpl;
      rewrite ?lookup_insert_eq, ?insert_insert_eq; reflexivity.
  - destruct (isRunning b) eqn:Hrun; simpl;
      rewrite ?Hst, ?lookup_insert_eq, ?insert_insert_eq; simpl;
      rewrite ?lookup_insert_eq, ?insert_insert_eq; reflexivity.
Qed.

Lemma after_release_tracked (cameraId : string) (c : BridgeCtx) :
  timers_tracked c → timers_tracked (after_release cameraId c).
Proof.
  intros (Hnd & Hlt & Href & Hback). unfold timers_tracked, after_release. simpl.
  split; [done|split; [done|split]].
  - intros x Hx. destruct (Href x Hx) as (st & Hst & Hid).
    destruct (routers (bridge c) !! cameraId) as [st0|] eqn:Hst0; [|by exists st].
    destruct (decide (cameraId = timer_cameraId x)) as [->|Hne].
    + exists (released st0). rewrite lookup_insert_eq. split; [done|].
      simpl. congruence.
    + exists st. by rewrite lookup_insert_ne.
  - intros cam st t.
    destruct (routers (bridge c) !! cameraId) as [st0|] eqn:Hst0; [|apply Hback].
    destruct (decide (cameraId = cam)) as [<-|Hne].
    + rewrite lookup_insert_eq. intros [= <-]. simpl. by apply Hback.
    + rewrite lookup_insert_ne by done. apply Hback.
Qed.

Lemma after_release_retryTimer (cameraId : string) (c : BridgeCtx) :
  retryTimer (default empty_state
                (routers (bridge (after_release cameraId c)) !! cameraId))
  = retryTimer (default empty_state (routers (bridge c) !! cameraId)).
Proof.
  unfold after_release. simpl.
  destruct (routers (bridge c) !! cameraId) as [st0|] eqn:Hst0; simpl.
  - by rewrite lookup_insert_eq.
  - by rewrite Hst0.
Qed.

Lemma after_close_tracked (cameraId rtspUrl : string) (c : BridgeCtx) :
  timers_tracked c → timers_tracked (after_close cameraId rtspUrl c).
Proof.
  intros Hc. unfold after_close.
  destruct (isRunning (bridge c)); [|by apply after_release_tracked].
  apply rearmed_tracked; [|by apply after_release_tracked].
  by rewrite after_release_retryTimer.
Qed.

Lemma ffmpeg_close_tracked (cameraId rtspUrl : string) (code : option Z) :
  preserves timers_tracked (ffmpeg_close cameraId rtspUrl code).
Proof.
  intros c Hc. rewrite ffmpeg_close_spec. by apply after_close_tracked.
Qed.

Lemma stop_tracked : preserves timers_tracked stop.
Proof. intros c Hc. by rewrite stop_spec. Qed.

Lemma set_bridge_timers_tracked (f : RTSPBridge → RTSPBridge) :
  (∀ b, routers (f b) = routers b) →
  preserves timers_tracked (modify (set_bridge f)).
Proof.
  intros Hf. apply preserves_modify. intros [b l] Hc.
  unfold timers_tracked, set_bridge in *. simpl in *. by rewrite Hf.
Qed.

Lemma start_streams_tracked (urls : list string) (i : nat)
    (answers : nat → StreamAnswers) :
  preserves timers_tracked (start_streams i urls answers).
Proof.
  revert i. induction urls as [|url urls IH]; intros i; simpl.
  - apply preserves_ret.
  - apply preserves_bind; [apply attempt_tracked|]. intros _. apply IH.
Qed.

Lemma start_tracked (createRouter : option Router) (answers : nat → StreamAnswers) :
  preserves timers_tracked (start createRouter answers).
Proof.
  unfold start.
  repeat first
    [ apply start_streams_tracked
    | apply set_bridge_timers_tracked; intros []; reflexivity
    | preserves_step ].
Qed.

(** The firing of a retry interval clears the interval of the camera
    before it starts the attempt. *)
Lemma retry_tick_tracked (cameraId rtspUrl : string) (ok : bool) (a : StreamAnswers) :
  preserves timers_tracked (retry_tick cameraId rtspUrl ok a).
Proof.
  unfold retry_tick.
  apply preserves_bind; [apply preserves_gets|]. intros running.
  destruct (negb running); [apply preserves_ret|].
  destruct (negb ok); [apply preserves_ret|].
  unfold state_of.
  eapply hoare_bind; [apply hoare_gets|]. intros st.
  eapply hoare_bind with
    (R := λ _ c, NoDup (timer_id <$> intervals (loop c)) ∧
                 (∀ x, x ∈ intervals (loop c) → timer_id x < next_timer (loop c)) ∧
                 (∀ x, x ∈ intervals (loop c) →
                    timer_cameraId x ≠ cameraId ∧
                    ∃ st', routers (bridge c) !! timer_cameraId x = Some st' ∧
                           retryTimer st' = Some (timer_id x)) ∧
                 (∀ cam st' t, cam ≠ cameraId →
                    routers (bridge c) !! cam = Some st' → retryTimer st' = Some t →
                    ∃ x, x ∈ intervals (loop c) ∧ timer_id x = t ∧
                         timer_cameraId x = cam)).
  - intros c [Hc ->]. pose proof Hc as (Hnd & Hlt & Href & Hback).
    set (h := retryTimer (default empty_state (routers (bridge c) !! cameraId))).
    assert (Hgoal :
      let l := cleared h (intervals (loop c)) in
      NoDup (timer_id <$> l) ∧
      (∀ x, x ∈ l → timer_id x < next_timer (loop c)) ∧
      (∀ x, x ∈ l → timer_cameraId x ≠ cameraId ∧
         ∃ st', routers (bridge c) !! timer_cameraId x = Some st' ∧
                retryTimer st' = Some (timer_id x)) ∧
      (∀ cam st' t, cam ≠ cameraId →
         routers (bridge c) !! cam = Some st' → retryTimer st' = Some t →
         ∃ x, x ∈ l ∧ timer_id x = t ∧ timer_cameraId x = cam)).
    { simpl. split; [by apply cleared_NoDup|]. split; [|split].
      - intros x [Hx _]%cleared_subseteq. by apply Hlt.
      - intros x [Hx Hne]%cleared_subseteq.
        destruct (Href x Hx) as (st' & Hst' & Hid). split; [|by exists st'].
        intros Heq. apply Hne. unfold h. rewrite <- Heq, Hst'. done.
      - intros cam st' t Hne Hst' Ht.
        destruct (Hback cam st' t Hst' Ht) as (x & Hx & Hid & Hcam).
        exists x. split; [|done]. apply cleared_keeps; [done|].
        apply tracked_foreign_timer; [done..|congruence]. }
    unfold clearInterval. destruct h as [t|]; exact Hgoal.
  - intros ?. eapply hoare_bind with (R := λ _, timers_tracked).
    + apply hoare_modify. intros [b l] (Hnd & Hlt & Href & Hback).
      unfold set_bridge, with_routers, timers_tracked. simpl in *.
      split; [done|split; [done|split]].
      * intros x Hx. destruct (Href x Hx) as (Hne & st' & Hst' & Hid).
        exists st'. split; [|done].
        destruct (routers b !! cameraId); [|done]. by rewrite lookup_insert_ne.
      * intros cam st' t.
        destruct (routers b !! cameraId) as [st0|] eqn:Hst0.
        -- destruct (decide (cameraId = cam)) as [<-|Hne].
           ++ rewrite lookup_insert_eq. by intros [= <-].
           ++ rewrite lookup_insert_ne by done. by apply Hback.
        -- intros Hst' Ht. apply (Hback cam st' t); [|done..].
           intros ->. congruence.
    + intros ?. apply attempt_tracked.
Qed.

(** ** The server and the bridge do not touch each other *)

Ltac server_step :=
  lazymatch goal with
  | |- preserves _ (bind _ _) => apply preserves_bind; [|intros ?]
  | |- preserves _ (try_catch _ _) => apply preserves_try_catch; [|intros ?]
  | |- preserves _ (ret _) => apply preserves_ret
  | |- preserves _ (throw _) => apply preserves_throw
  | |- preserves _ (gets _) => apply preserves_gets
  | |- preserves _ (effect _) => apply preserves_effect
  | |- preserves _ (effects _) => apply preserves_effects
  | |- preserves _ (await _ _) => apply preserves_await
  | |- preserves _ (when _ _) => apply preserves_when
  | |- preserves _ (defined ?o) => unfold defined; destruct o
  | |- preserves _ (emit _) => intros ? ?; assumption
  | |- preserves _ (emit_to_room _) => intros ? ?; assumption
  | |- preserves _ (update_room ?r _) => unfold update_room; destruct r
  | |- preserves _ (update_peer _ _) => unfold update_peer
  | |- preserves _ (modify _) => apply preserves_modify; intros [[] ?] ?; assumption
  | |- preserves _ (if ?b then _ else _) => destruct b
  | |- preserves _ (match ?o with _ => _ end) => destruct o
  end.

Lemma handle_keeps_bridge (cmd : Command) (b : RTSPBridge) :
  preserves (λ c, rtspBridge (this c) = b) (handle cmd).
Proof.
  destruct cmd; simpl;
    unfold handleJoinRoom, handleCreateWebRTCTransport, handleConnectTransport,
      handleProduce, handleConsume, consume_body, handleResumeConsumer,
      handleDisconnect, peer_and_room;
    repeat server_step.
Qed.

Lemma run_socket_bridge (socketId : string) (cmd : Command) (w : World) :
  bridge_ctx (run_socket socketId (handle cmd) w).1 = bridge_ctx w.
Proof.
  unfold run_socket, bridge_ctx.
  pose proof (preserves_exec _ (handle cmd)
                {| this := server w; socket := socket_of w socketId |}
                (handle_keeps_bridge cmd (rtspBridge (server w))) eq_refl) as H.
  destruct (exec (handle cmd) _) as [c es]. simpl in *. by rewrite H.
Qed.

Lemma run_bridge_ctx (m : Js BridgeCtx unit) (w : World) :
  bridge_ctx (run_bridge m w).1 = (exec m (bridge_ctx w)).1.
Proof.
  unfold run_bridge, bridge_ctx.
  destruct (exec m _) as [c es]. simpl. by destruct c.
Qed.

Lemma step_tracked (w : World) (ev : Event) :
  timers_tracked (bridge_ctx w) → timers_tracked (bridge_ctx (step w ev).1).
Proof.
  intros Hw. destruct ev as [socketId cmd|createRouter answers|timer ok a|cam url code|];
    simpl.
  - by rewrite run_socket_bridge.
  - rewrite run_bridge_ctx. by apply preserves_exec; [apply start_tracked|].
  - destruct (find_timer w timer); [|done].
    rewrite run_bridge_ctx. by apply preserves_exec; [apply retry_tick_tracked|].
  - rewrite run_bridge_ctx. by apply preserves_exec; [apply ffmpeg_close_tracked|].
  - rewrite run_bridge_ctx. by apply preserves_exec; [apply stop_tracked|].
Qed.

Lemma run_tracked (evs : list Event) (w : World) :
  timers_tracked (bridge_ctx w) → timers_tracked (bridge_ctx (run w evs).1).
Proof.
  revert w. induction evs as [|ev evs IH]; intros w Hw; simpl; [done|].
  pose proof (step_tracked w ev Hw) as H1.
  destruct (step w ev) as [w1 es1]. specialize (IH w1 H1).
  by destruct (run w1 evs) as [w2 es2].
Qed.

Lemma reachable_tracked (urls : list string) (w : World) :
  reachable urls w → timers_tracked (bridge_ctx w).
Proof.
  intros [evs ->]. apply run_tracked. split; [constructor|].
  split; [|split]; [intros x Hx; by apply elem_of_nil in Hx..|].
  intros cam st t. simpl. by rewrite lookup_empty.
Qed.

Lemma run_app_state (w : World) (evs1 evs2 : list Event) :
  (run w (evs1 ++ evs2)).1 = (run (run w evs1).1 evs2).1.
Proof.
  revert w. induction evs1 as [|ev evs1 IH]; intros w; simpl; [done|].
  destruct (step w ev) as [w1 es1]. specialize (IH w1).
  destruct (run w1 (evs1 ++ evs2)) as [w2 es2].
  destruct (run w1 evs1) as [w3 es3]. simpl in *.
  by destruct (run w3 evs2).
Qed.

Lemma reachable_step (urls : list string) (w : World) (ev : Event) :
  reachable urls w → reachable urls (step w ev).1.
Proof.
  intros [evs ->]. exists (evs ++ [ev]). rewrite run_app_state. simpl.
  by destruct (step _ ev).
Qed.

(** ** The producers of the bridge and the camera objects *)

Lemma append_inj_r (s a b : string) : s +:+ a = s +:+ b → a = b.
Proof. induction s as [|c s IH]; simpl; [done|]. intros [= H]. by apply IH. Qed.


Lemma string_length_append (s a : string) :
  String.length (s +:+ a) = String.length s + String.length a.
Proof. induction s as [|c s IH]; simpl; [done|]. by rewrite IH. Qed.

Lemma append_suffix_inj (s s' a b : string) :
  String.length a = String.length b → s +:+ a = s' +:+ b → s = s' ∧ a = b.
Proof.
  intros Hlen. revert s'. induction s as [|c s IH]; intros s' Heq.
  - destruct s' as [|c' s']; [done|]. simpl in Heq.
    apply (f_equal String.length) in Heq. simpl in Heq.
    rewrite !string_length_append in Heq. simpl in Heq. lia.
  - destruct s' as [|c' s'].
    + simpl in Heq. apply (f_equal String.length) in Heq. simpl in Heq.
      rewrite !string_length_append in Heq. simpl in Heq. lia.
    + simpl in Heq. injection Heq as -> Heq. destruct (IH s' Heq) as [-> ->].
      done.
Qed.

Lemma video_key_inj (cam cam' : string) :
  cam +:+ "_video" = cam' +:+ "_video" → cam = cam'.
Proof. by intros [? _]%append_suffix_inj. Qed.

Lemma audio_key_inj (cam cam' : string) :
  cam +:+ "_audio" = cam' +:+ "_audio" → cam = cam'.
Proof. by intros [? _]%append_suffix_inj. Qed.

Lemma video_key_ne_audio (cam cam' : string) :
  cam +:+ "_video" ≠ cam' +:+ "_audio".
Proof. by intros [_ [=]]%append_suffix_inj. Qed.

Ltac key_ne :=
  let H := fresh in
  first
    [ apply video_key_ne_audio
    | intros H; symmetry in H; by apply video_key_ne_audio in H
    | intros H; apply video_key_inj in H; congruence
    | intros H; apply audio_key_inj in H; congruence ].

Lemma producers_tracked_ext (c c' : BridgeCtx) :
  routers (bridge c') = routers (bridge c) →
  bridge_producers (bridge c') = bridge_producers (bridge c) →
  producers_tracked c → producers_tracked c'.
Proof. unfold producers_tracked. by intros -> ->. Qed.

Lemma update_state_producers_tracked (cameraId cam : string)
    (f : CameraState → CameraState) :
  (∀ st, is_Some (videoProducer st) → is_Some (videoProducer (f st))) →
  (∀ st, is_Some (audioProducer st) → is_Some (audioProducer (f st))) →
  preserves (producers_tracked_with cameraId) (update_state cam f).
Proof.
  intros Hv Ha. apply preserves_modify. intros [b l] [Hc Hcam].
  unfold producers_tracked_with, producers_tracked, set_bridge, with_routers.
  simpl in *. destruct (routers b !! cam) as [st|] eqn:Hst; [|done].
  split.
  - intros cam'. destruct (Hc cam') as [Hvideo Haudio].
    destruct (decide (cam = cam')) as [<-|Hne].
    + rewrite lookup_insert_eq. split; intros Hkey.
      * destruct (Hvideo Hkey) as (st' & Hst' & Hp). exists (f st).
        split; [done|]. apply Hv. simpl in Hst'.
        by assert (st' = st) as -> by congruence.
      * destruct (Haudio Hkey) as (st' & Hst' & Hp). exists (f st).
        split; [done|]. apply Ha. simpl in Hst'.
        by assert (st' = st) as -> by congruence.
    + by rewrite lookup_insert_ne.
  - destruct (decide (cam = cameraId)) as [->|Hne].
    + rewrite lookup_insert_eq. by eexists.
    + by rewrite lookup_insert_ne.
Qed.

Lemma set_bridge_producers_tracked (cameraId : string) (f : RTSPBridge → RTSPBridge) :
  (∀ b, routers (f b) = routers b) →
  (∀ b, bridge_producers (f b) = bridge_producers b) →
  preserves (producers_tracked_with cameraId) (modify (set_bridge f)).
Proof.
  intros Hr Hp. apply preserves_modify. intros [b l] Hc.
  unfold producers_tracked_with, producers_tracked, set_bridge in *. simpl in *.
  by rewrite Hr, Hp.
Qed.

Lemma loop_producers_tracked {A} (cameraId : string) (m : Js BridgeCtx A) :
  (∀ c, bridge (m c).1.1 = bridge c) →
  preserves (producers_tracked_with cameraId) m.
Proof.
  intros Hm c Hc. specialize (Hm c).
  destruct (m c) as [[c' es] [x|a]]; simpl in Hm;
    unfold producers_tracked_with, producers_tracked in *; by rewrite Hm.
Qed.

Lemma clearInterval_producers_tracked (cameraId : string) (h : option nat) :
  preserves (producers_tracked_with cameraId) (clearInterval h).
Proof. apply loop_producers_tracked. intros c. by destruct h. Qed.

Lemma setInterval_producers_tracked (cameraId cam url : string) :
  preserves (producers_tracked_with cameraId) (setInterval cam url).
Proof. by apply loop_producers_tracked. Qed.

(** The four statements that store the producers of an attempt *)
Lemma store_producers_tracked (cameraId : string) (videoP audioP : Producer) :
  preserves (producers_tracked_with cameraId)
    (modify (set_bridge (with_bridge_producers
       (λ m, JsMap.set m (cameraId +:+ "_video") videoP))) ;;
     modify (set_bridge (with_bridge_producers
       (λ m, JsMap.set m (cameraId +:+ "_audio") audioP))) ;;
     update_state cameraId (with_videoProducer (Some videoP)) ;;
     update_state cameraId (with_audioProducer (Some audioP)))%js.
Proof.
  intros [b l] [Hc [st Hst]]. simpl in Hst.
  unfold update_state. js_unfold.
  unfold set_bridge, with_bridge_producers, with_routers. simpl.
  repeat (rewrite ?Hst, ?lookup_insert_eq; simpl).
  unfold producers_tracked_with, producers_tracked in *. simpl in *.
  rewrite insert_insert_eq. split; [|rewrite lookup_insert_eq; by eexists].
  intros cam. destruct (decide (cameraId = cam)) as [<-|Hne].
  - rewrite lookup_insert_eq. split; intros _; eexists; (split; [done|]);
      simpl; by eexists.
  - rewrite lookup_insert_ne by done.
    rewrite !jsmap_get_set_ne by key_ne. apply Hc.
Qed.

Ltac producers_step :=
  lazymatch goal with
  | |- preserves _ (bind (modify (set_bridge (with_bridge_producers _))) _) =>
      apply store_producers_tracked
  | |- preserves _ (bind _ _) => apply preserves_bind; [|intros ?]
  | |- preserves _ (try_catch _ _) => apply preserves_try_catch; [|intros ?]
  | |- preserves _ (ret _) => apply preserves_ret
  | |- preserves _ (throw _) => apply preserves_throw
  | |- preserves _ (gets _) => apply preserves_gets
  | |- preserves _ (effect _) => apply preserves_effect
  | |- preserves _ (effects _) => apply preserves_effects
  | |- preserves _ (await _ _) => apply preserves_await
  | |- preserves _ (when _ _) => apply preserves_when
  | |- preserves _ (clearInterval _) => apply clearInterval_producers_tracked
  | |- preserves _ (setInterval _ _) => apply setInterval_producers_tracked
  | |- preserves _ (update_state _ _) =>
      apply update_state_producers_tracked; intros []; simpl; done
  | |- preserves _ (modify (set_bridge _)) =>
      apply set_bridge_producers_tracked; intros []; reflexivity
  | |- preserves _ (if ?b then _ else _) => destruct b
  | |- preserves _ (match ?o with _ => _ end) => destruct o
  end.

Lemma ensure_state_producers_tracked (cameraId : string)
    (known : option CameraState) :
  hoare (λ c, producers_tracked c ∧ known = routers (bridge c) !! cameraId)
    (match known with
     | Some _ => ret tt
     | None => modify (set_bridge (with_routers <[cameraId := empty_state]>))
     end)
    (λ _, producers_tracked_with cameraId) (producers_tracked_with cameraId).
Proof.
  destruct known as [st|].
  - apply hoare_ret. intros c [Hc Hst]. split; [done|]. rewrite <- Hst. by eexists.
  - apply hoare_modify. intros [b l] [Hc Hnone]. simpl in *.
    split; [|simpl; rewrite lookup_insert_eq; by eexists].
    intros cam. destruct (Hc cam) as [Hv Ha]. simpl in *.
    destruct (decide (cameraId = cam)) as [<-|Hne].
    + split; intros Hkey.
      * destruct (Hv Hkey) as (st & Hst & _). congruence.
      * destruct (Ha Hkey) as (st & Hst & _). congruence.
    + by rewrite lookup_insert_ne.
Qed.

Lemma attempt_producers_tracked (rtspUrl cameraId : string) (a : StreamAnswers) :
  preserves producers_tracked (startRTSPStream rtspUrl cameraId a).
Proof.
  unfold startRTSPStream.
  apply hoare_try_catch with (E' := producers_tracked_with cameraId);
    [|intros x; apply hoare_ret; by intros c [Hc _]].
  eapply hoare_bind; [apply hoare_gets|]. intros known.
  eapply hoare_bind; [apply ensure_state_producers_tracked|]. intros ?.
  eapply hoare_conseq with (P' := producers_tracked_with cameraId)
    (Q' := λ _, producers_tracked_with cameraId)
    (E' := producers_tracked_with cameraId);
    [|done|by intros ? c [Hc _]|done].
  apply preserves_intro.
  unfold state_of, startFFmpegProcess, arm_retry, state_of.
  repeat producers_step.
Qed.

Lemma retry_tick_producers_tracked (cameraId rtspUrl : string) (ok : bool)
    (a : StreamAnswers) :
  preserves producers_tracked (retry_tick cameraId rtspUrl ok a).
Proof.
  unfold retry_tick.
  apply preserves_bind; [apply preserves_gets|]. intros running.
  destruct (negb running); [apply preserves_ret|].
  destruct (negb ok); [apply preserves_ret|].
  unfold state_of.
  apply preserves_bind; [apply preserves_gets|]. intros st.
  apply preserves_bind.
  { intros c Hc. unfold clearInterval. by destruct (retryTimer st). }
  intros ?. apply preserves_bind; [|intros ?; apply attempt_producers_tracked].
  apply preserves_modify. intros [b l] Hc.
  unfold producers_tracked, set_bridge, with_routers in *. simpl in *.
  destruct (routers b !! cameraId) as [st0|] eqn:Hst0; [|done].
  intros cam. destruct (Hc cam) as [Hv Ha].
  destruct (decide (cameraId = cam)) as [<-|Hne].
  - rewrite lookup_insert_eq. split; intros Hkey.
    + destruct (Hv Hkey) as (st' & Hst' & Hp). eexists. split; [done|].
      simpl. by assert (st' = st0) as -> by congruence.
    + destruct (Ha Hkey) as (st' & Hst' & Hp). eexists. split; [done|].
      simpl. by assert (st' = st0) as -> by congruence.
  - by rewrite lookup_insert_ne.
Qed.

Lemma get_delete_if_ne {A B} (o : option A) (k k' : string) (m : JsMap.t B) :
  k ≠ k' → JsMap.get (delete_if o k m) k' = JsMap.get m k'.
Proof. intros Hne. destruct o; simpl; [by apply jsmap_get_delete_ne|done]. Qed.

(** After the cleanup no producer is registered under the keys of the
    camera. *)
Lemma after_release_no_producer (cameraId : string) (c : BridgeCtx) :
  producers_tracked c →
  JsMap.get (bridge_producers (bridge (after_release cameraId c)))
    (cameraId +:+ "_video") = None ∧
  JsMap.get (bridge_producers (bridge (after_release cameraId c)))
    (cameraId +:+ "_audio") = None.
Proof.
  intros Hc. destruct (Hc cameraId) as [Hv Ha].
  unfold after_release. simpl.
  set (st := default empty_state (routers (bridge c) !! cameraId)).
  assert (Hvideo : videoProducer st = None →
                   JsMap.get (bridge_producers (bridge c)) (cameraId +:+ "_video")
                   = None).
  { intros Hnone. destruct (JsMap.get _ _) eqn:Hget; [|done].
    destruct Hv as (st' & Hst' & [q Hq]); [by eexists|].
    unfold st in Hnone. rewrite Hst' in Hnone. simpl in Hnone. congruence. }
  assert (Haudio : audioProducer st = None →
                   JsMap.get (bridge_producers (bridge c)) (cameraId +:+ "_audio")
                   = None).
  { intros Hnone.
    destruct (JsMap.get (bridge_producers (bridge c)) (cameraId +:+ "_audio"))
      eqn:Hget; [|done].
    destruct Ha as (st' & Hst' & [q Hq]); [by eexists|].
    unfold st in Hnone. rewrite Hst' in Hnone. simpl in Hnone. congruence. }
  split.
  - rewrite get_delete_if_ne by key_ne.
    destruct (videoProducer st); simpl; [apply jsmap_get_delete_eq|by apply Hvideo].
  - destruct (audioProducer st); simpl; [apply jsmap_get_delete_eq|].
    rewrite get_delete_if_ne by key_ne. by apply Haudio.
Qed.

Lemma after_release_producers_tracked (cameraId : string) (c : BridgeCtx) :
  producers_tracked c → producers_tracked (after_release cameraId c).
Proof.
  intros Hc cam.
  destruct (decide (cameraId = cam)) as [<-|Hne].
  - destruct (after_release_no_producer cameraId c Hc) as [-> ->].
    split; by intros [? ?].
  - destruct (Hc cam) as [Hv Ha]. unfold after_release. simpl.
    assert (Hr : match routers (bridge c) !! cameraId with
                 | Some st => <[cameraId := released st]> (routers (bridge c))
                 | None => routers (bridge c)
                 end !! cam = routers (bridge c) !! cam).
    { destruct (routers (bridge c) !! cameraId); [|done].
      by rewrite lookup_insert_ne. }
    rewrite Hr. by rewrite !get_delete_if_ne by key_ne.
Qed.

Lemma rearmed_producers_tracked (cameraId rtspUrl : string) (st : CameraState)
    (c : BridgeCtx) :
  JsMap.get (bridge_producers (bridge c)) (cameraId +:+ "_video") = None →
  JsMap.get (bridge_producers (bridge c)) (cameraId +:+ "_audio") = None →
  producers_tracked c → producers_tracked (rearmed cameraId rtspUrl st c).
Proof.
  intros Hv Ha Hc cam. unfold rearmed. simpl.
  destruct (decide (cameraId = cam)) as [<-|Hne].
  - rewrite Hv, Ha. split; by intros [? ?].
  - rewrite lookup_insert_ne by done. apply Hc.
Qed.

Lemma ffmpeg_close_producers_tracked (cameraId rtspUrl : string) (code : option Z) :
  preserves producers_tracked (ffmpeg_close cameraId rtspUrl code).
Proof.
  intros c Hc. rewrite ffmpeg_close_spec. unfold after_close.
  pose proof (after_release_producers_tracked cameraId c Hc) as Hrel.
  destruct (isRunning (bridge c)); [|done].
  destruct (after_release_no_producer cameraId c Hc) as [Hv Ha].
  by apply rearmed_producers_tracked.
Qed.

Lemma stop_producers_tracked : preserves producers_tracked stop.
Proof.
  intros c Hc. rewrite stop_spec. intros cam. unfold stopped. simpl.
  split; by intros [? ?].
Qed.

Lemma start_streams_producers_tracked (urls : list string) (i : nat)
    (answers : nat → StreamAnswers) :
  preserves producers_tracked (start_streams i urls answers).
Proof.
  revert i. induction urls as [|url urls IH]; intros i; simpl.
  - apply preserves_ret.
  - apply preserves_bind; [apply attempt_producers_tracked|]. intros ?. apply IH.
Qed.

Lemma start_producers_tracked (createRouter : option Router)
    (answers : nat → StreamAnswers) :
  preserves producers_tracked (start createRouter answers).
Proof.
  unfold start.
  repeat first
    [ apply start_streams_producers_tracked
    | apply preserves_modify; intros [[] ?] ?; assumption
    | producers_step ].
Qed.

Lemma step_producers_tracked (w : World) (ev : Event) :
  producers_tracked (bridge_ctx w) → producers_tracked (bridge_ctx (step w ev).1).
Proof.
  intros Hw. destruct ev as [socketId cmd|createRouter answers|timer ok a|cam url code|];
    simpl.
  - by rewrite run_socket_bridge.
  - rewrite run_bridge_ctx. by apply preserves_exec; [apply start_producers_tracked|].
  - destruct (find_timer w timer); [|done]. rewrite run_bridge_ctx.
    by apply preserves_exec; [apply retry_tick_producers_tracked|].
  - rewrite run_bridge_ctx.
    by apply preserves_exec; [apply ffmpeg_close_producers_tracked|].
  - rewrite run_bridge_ctx. by apply preserves_exec; [apply stop_producers_tracked|].
Qed.

Lemma reachable_producers_tracked (urls : list string) (w : World) :
  reachable urls w → producers_tracked (bridge_ctx w).
Proof.
  intros [evs ->].
  assert (Hrun : ∀ evs w, producers_tracked (bridge_ctx w) →
                 producers_tracked (bridge_ctx (run w evs).1)).
  { clear. intros evs. induction evs as [|ev evs IH]; intros w Hw; simpl; [done|].
    pose proof (step_producers_tracked w ev Hw) as H1.
    destruct (step w ev) as [w1 es1]. specialize (IH w1 H1).
    by destruct (run w1 evs) as [w2 es2]. }
  apply Hrun. intros cam. simpl. split; by intros [? ?].
Qed.

(** ** Exit of the transcoding process *)

Lemma step_ffmpeg_close (w : World) (cameraId rtspUrl : string) (code : option Z) :
  bridge_ctx (step w (on_ffmpeg_close cameraId rtspUrl code)).1
  = after_close cameraId rtspUrl (bridge_ctx w) ∧
  (step w (on_ffmpeg_close cameraId rtspUrl code)).2
  = close_effects cameraId rtspUrl (bridge_ctx w).
Proof.
  simpl. unfold run_bridge, exec. fold (bridge_ctx w).
  rewrite ffmpeg_close_spec. unfold bridge_ctx. simpl.
  split; [|done]. by destruct (after_close _ _ _).
Qed.

Lemma filter_none {A} (P : A → Prop) `{∀ x, Decision (P x)} (l : list A) :
  (∀ x, x ∈ l → ¬ P x) → filter P l = [].
Proof.
  induction l as [|x l IH]; intros Hl; [done|].
  rewrite filter_cons_False by (apply Hl, list_elem_of_here).
  apply IH. intros y Hy. by apply Hl, list_elem_of_further.
Qed.

Lemma tracked_camera_timers (c : BridgeCtx) (cameraId : string) (x : RetryTimer) :
  timers_tracked c → x ∈ intervals (loop c) → timer_cameraId x = cameraId →
  retryTimer (default empty_state (routers (bridge c) !! cameraId))
  = Some (timer_id x).
Proof.
  intros (_ & _ & Href & _) Hx <-. destruct (Href x Hx) as (st & -> & Hid). done.
Qed.

(** ** Producers of the ingest and the rooms of the server *)






(** ** Removal of a room when its last peer leaves *)

Lemma run_bridge_server (m : Js BridgeCtx unit) (w : World) :
  rooms (server (run_bridge m w).1) = rooms (server w) ∧
  peers (server (run_bridge m w).1) = peers (server w) ∧
  peer_objects (server (run_bridge m w).1) = peer_objects (server w).
Proof. unfold run_bridge. by destruct (exec m _) as [c es]. Qed.

Lemma registry_ok_server (s1 s2 : SFUServer) (sock1 sock2 : Socket) :
  rooms s1 = rooms s2 → peers s1 = peers s2 → peer_objects s1 = peer_objects s2 →
  registry_ok {| this := s2; socket := sock2 |} →
  registry_ok {| this := s1; socket := sock1 |}.
Proof.
  unfold registry_ok, rooms_populated, refs_allocated. simpl.
  by intros -> -> ->.
Qed.

Lemma step_registry_ok (w : World) (ev : Event) (sock sock' : Socket) :
  registry_ok {| this := server w; socket := sock |} →
  registry_ok {| this := server (step w ev).1; socket := sock' |}.
Proof.
  intros Hw.
  assert (Hbridge : ∀ m, registry_ok {| this := server (run_bridge m w).1;
                                        socket := sock' |}).
  { intros m. destruct (run_bridge_server m w) as (Hr & Hp & Ho).
    by apply (registry_ok_server _ (server w) _ sock). }
  destruct ev as [socketId cmd|createRouter answers|timer ok a|cam url code|];
    simpl; try apply Hbridge.
  - unfold run_socket.
    pose proof (preserves_exec _ (handle cmd)
                  {| this := server w; socket := socket_of w socketId |}
                  (handle_registry_ok cmd)) as H.
    destruct (exec (handle cmd) _) as [c es]. simpl in *.
    apply (registry_ok_server _ (this c) _ (socket c)); try done.
    destruct c. apply H. by apply (registry_ok_server _ (server w) _ sock).
  - destruct (find_timer w timer); [apply Hbridge|done].
Qed.

Lemma reachable_registry_ok (urls : list string) (w : World) (sock : Socket) :
  reachable urls w → registry_ok {| this := server w; socket := sock |}.
Proof.
  intros [evs ->].
  assert (Hrun : ∀ evs w, registry_ok {| this := server w; socket := sock |} →
                 registry_ok {| this := server (run w evs).1; socket := sock |}).
  { clear. intros evs. induction evs as [|ev evs IH]; intros w Hw; simpl; [done|].
    pose proof (step_registry_ok w ev sock sock Hw) as H1.
    destruct (step w ev) as [w1 es1]. specialize (IH w1 H1).
    by destruct (run w1 evs) as [w2 es2]. }
  apply Hrun. split; [|split]; simpl; apply map_Forall_empty.
Qed.

Lemma populated_iff_peer_count (s : SFUServer) (roomId : string) :
  rooms_populated s →
  is_Some (rooms s !! roomId) ↔ 1 ≤ peer_count s roomId.
Proof.
  intros Hpop. unfold peer_count.
  destruct (rooms s !! roomId) as [room|] eqn:Hroom.
  - split; [intros _|by eauto].
    destruct (size (room_peers room)) eqn:Hsize; [|lia].
    apply map_size_empty_inv in Hsize. by destruct (Hpop roomId room Hroom).
  - split; [by intros [? ?]|lia].
Qed.




(** Two sockets that join a room under the same peer id share one
    entry of its peer map: when the first disconnects, the entry goes,
    the peer count is 0 and the room is removed with its router closed,
    although the second socket is still connected and its producer is
    still in the room's producer map at that moment. *)
Example room_removed_under_a_connected_socket :
  let '(w, es) :=
    run (new_world [])
      [on_socket "s1" (join_room "security" "viewer" (Some router0));
       on_socket "s2" (join_room "security" "viewer" None);
       on_socket "s2" (create_webrtc_transport (Some transport2));
       on_socket "s2" (produce "t2" video vp8 (Some producer1));
       on_socket "s1" disconnect] in
  rooms (server w) !! "security" = None ∧
  closed_routers es = [router0] ∧
  closed_producers es = [] ∧
  peer_producers <$> peer_of (server w) "s2" = Some [("p1", producer1)].
Proof. vm_compute. repeat split. Qed.

(** ** Requests on a socket that has no peer *)

Lemma handle_without_peer (s : SFUServer) (sock : Socket) (cmd : Command)
    (msg : string) :
  peers_get s (socket_id sock) = None →
  (∀ roomId peerId createRouter, cmd ≠ join_room roomId peerId createRouter) →
  failure_message cmd = Some msg →
  handle cmd {| this := s; socket := sock |}
  = ({| this := s; socket := sock |},
     [SocketEmit (socket_id sock) (error_event msg)], inr tt).
Proof.
  intros Hnone Hjoin Hmsg.
  destruct cmd; simpl in *; try discriminate; injection Hmsg as <-.
  - by destruct (Hjoin roomId peerId createRouter).
  - unfold handleCreateWebRTCTransport, peer_and_room. js_unfold. simpl.
    by rewrite Hnone.
  - unfold handleConnectTransport. js_unfold. simpl. by rewrite Hnone.
  - unfold handleProduce, peer_and_room. js_unfold. simpl. by rewrite Hnone.
  - unfold handleConsume, consume_body, peer_and_room. js_unfold. simpl.
    by rewrite Hnone.
  - unfold handleResumeConsumer. js_unfold. simpl. by rewrite Hnone.
Qed.

(** X1: a request other than join-room and disconnect on a socket for
    which [this.peers] holds no peer (it never joined, or it has
    disconnected) is answered by exactly one [error] event, with the
    message of its handler; the handler calls nothing of the media
    engine and leaves the server and the socket as they are. *)
Theorem request_before_join_is_refused (s : SFUServer) (sock : Socket)
    (cmd : Command) (msg : string) :
  peers_get s (socket_id sock) = None →
  (∀ roomId peerId createRouter, cmd ≠ join_room roomId peerId createRouter) →
  failure_message cmd = Some msg →
  handle cmd {| this := s; socket := sock |}
  = ({| this := s; socket := sock |},
     [SocketEmit (socket_id sock) (error_event msg)], inr tt).
Proof. apply handle_without_peer. Qed.

Lemma request_before_join_witness :
  handle (produce "t1" video vp8 (Some producer1))
    {| this := new_server []; socket := new_socket "s9" |}
  = ({| this := new_server []; socket := new_socket "s9" |},
     [SocketEmit "s9" (error_event "Failed to create producer")], inr tt).
Proof.
  apply (request_before_join_is_refused (new_server []) (new_socket "s9")
           (produce "t1" video vp8 (Some producer1)) "Failed to create producer");
    [reflexivity|intros ? ? ?; discriminate|reflexivity].
Defined.

(** X2: a request of a joined socket that names a transport, or a
    consumer, which its peer does not hold is refused in the same way:
    one [error] event, no call of the engine, nothing changed. *)
Theorem unknown_object_is_refused (s : SFUServer) (sock : Socket) (ref : nat)
    (peer : Peer) :
  peers_get s (socket_id sock) = Some (ref, peer) →
  let c := {| this := s; socket := sock |} in
  let refused msg := (c, [SocketEmit (socket_id sock) (error_event msg)], inr tt) in
  (∀ transportId,
     JsMap.get (peer_transports peer) transportId = None →
     (∀ connected,
        handle (connect_transport transportId connected) c
        = refused "Failed to connect transport") ∧
     (∀ kind rtpParameters produced,
        handle (produce transportId kind rtpParameters produced) c
        = refused "Failed to create producer") ∧
     (∀ producerId canConsume consumed,
        handle (consume transportId producerId canConsume consumed) c
        = refused "Failed to create consumer")) ∧
  (∀ consumerId resumed,
     JsMap.get (peer_consumers peer) consumerId = None →
     handle (resume_consumer consumerId resumed) c
     = refused "Failed to resume consumer").
Proof.
  intros Hpeer c refused. subst c refused. split.
  - intros transportId Hnone. split; [|split].
    + intros connected. simpl. unfold handleConnectTransport. js_unfold. simpl.
      by rewrite Hpeer, Hnone.
    + intros kind rtpParameters produced. simpl.
      unfold handleProduce, peer_and_room. js_unfold. simpl. rewrite Hpeer.
      destruct (rooms_get s (socket_roomId sock)); simpl; [|done].
      by rewrite Hnone.
    + intros producerId canConsume consumed. simpl.
      unfold handleConsume, consume_body, peer_and_room. js_unfold. simpl.
      rewrite Hpeer.
      destruct (rooms_get s (socket_roomId sock)); simpl; [|done].
      by rewrite Hnone.
  - intros consumerId resumed Hnone. simpl.
    unfold handleResumeConsumer. js_unfold. simpl. by rewrite Hpeer, Hnone.
Qed.

Lemma unknown_object_is_refused_witness :
  handle (connect_transport "t404" (Some tt)) (ctx_of world_joined "s1")
  = (ctx_of world_joined "s1",
     [SocketEmit "s1" (error_event "Failed to connect transport")], inr tt) ∧
  handle (resume_consumer "c404" (Some tt)) (ctx_of world_joined "s1")
  = (ctx_of world_joined "s1",
     [SocketEmit "s1" (error_event "Failed to resume consumer")], inr tt).
Proof.
  pose proof (unknown_object_is_refused (server world_joined)
                (socket_of world_joined "s1") 0 peer1_joined eq_refl) as [Ht Hc].
  split.
  - apply (proj1 (Ht "t404" eq_refl) (Some tt)).
  - apply (Hc "c404" (Some tt) eq_refl).
Defined.

(** ** Requests that fail, and requests in general *)

Lemma join_never_throws (roomId peerId : string) (createRouter : option Router)
    (c : Ctx) :
  (handleJoinRoom roomId peerId createRouter c).2 = inr tt.
Proof.
  destruct c as [s sock].
  destruct (rooms s !! roomId) as [room|] eqn:Hroom.
  - by rewrite (join_existing_room s sock roomId peerId createRouter room Hroom).
  - destruct createRouter as [router|].
    + by rewrite (join_new_room s sock roomId peerId router Hroom).
    + by rewrite (join_router_rejected s sock roomId peerId Hroom).
Qed.

Ltac run_handler :=
  unfold handleCreateWebRTCTransport, handleConnectTransport, handleProduce,
    handleConsume, consume_body, handleResumeConsumer, peer_and_room;
  js_unfold; simpl;
  repeat (case_match; simpl in *; simplify_eq; simpl in *; try done).

Ltac error_answer :=
  split; [done|]; eexists; split; [done|]; simpl; by rewrite ?decide_True.

(** X3: a request that is answered by an [error] event has changed
    nothing: the server (rooms, peers, peer objects) and the socket are
    as before the request, and the [error] event, with the message of
    the handler, is the only message written to the socket. *)
Theorem failed_request_changes_nothing (cmd : Command) (c c' : Ctx)
    (es : list Effect) (r : Exn + unit) :
  handle cmd c = (c', es, r) →
  existsb is_error_event es = true →
  c' = c ∧
  ∃ msg, failure_message cmd = Some msg ∧
         emitted_to (socket_id (socket c)) es = [error_event msg].
Proof.
  destruct c as [s sock]. destruct cmd; simpl.
  1: { destruct (rooms s !! roomId) as [room|] eqn:Hroom.
       - rewrite (join_existing_room s sock roomId peerId createRouter room Hroom).
         intros [= <- <- <-]. unfold join_response. simpl.
         by destruct (JsMap.keys (room_producers room)).
       - destruct createRouter as [router|].
         + rewrite (join_new_room s sock roomId peerId router Hroom).
           intros [= <- <- <-]. discriminate.
         + rewrite (join_router_rejected s sock roomId peerId Hroom).
           intros [= <- <- <-] _. error_answer. }
  6: { rewrite disconnect_spec. intros [= <- <- <-].
       unfold disconnect_effects. simpl.
       destruct (peers_get s (socket_id sock)) as [[ref peer]|]; [|done].
       destruct (rooms_get s (socket_roomId sock)) as [room|]; [|done].
       rewrite !existsb_app, !existsb_fmap_false by done.
       by case_bool_decide. }
  3: { unfold handleProduce, peer_and_room. js_unfold. simpl.
       destruct (peers_get s (socket_id sock)) as [[ref peer]|];
         [destruct (rooms_get s (socket_roomId sock)) as [room|]|].
       - simpl.
         destruct (JsMap.get (peer_transports peer) transportId);
           [destruct produced|]; simpl.
         + destruct (socket_roomId sock); simpl; intros [= <- <- <-]; simpl.
           all: by intros ?.
         + intros [= <- <- <-] _. error_answer.
         + intros [= <- <- <-] _. error_answer.
       - simpl. intros [= <- <- <-] _. error_answer.
       - simpl. intros [= <- <- <-] _. error_answer. }
  all: intros H He; revert H He; run_handler.
  all: intros; simplify_eq; simpl in *; try done.
  all: error_answer.
Qed.

Lemma failed_request_changes_nothing_witness :
  (handle (produce "t1" video vp8 None) (ctx_of world_joined "s1")).1.1
  = ctx_of world_joined "s1" ∧
  ∃ msg, failure_message (produce "t1" video vp8 None) = Some msg ∧
    emitted_to "s1"
      (handle (produce "t1" video vp8 None) (ctx_of world_joined "s1")).1.2
    = [error_event msg].
Proof.
  apply (failed_request_changes_nothing (produce "t1" video vp8 None)
           (ctx_of world_joined "s1") _ _ (inr tt)); reflexivity.
Defined.

(** X4: given the payload object of its message, the handler of
    every request other than disconnect catches what its body throws,
    so its promise never rejects, and it writes at least one message to
    the requesting socket: every such request is answered. *)
Theorem every_request_is_answered (cmd : Command) (c : Ctx) :
  cmd ≠ disconnect →
  (handle cmd c).2 = inr tt ∧
  emitted_to (socket_id (socket c)) (handle cmd c).1.2 ≠ [].
Proof.
  intros Hcmd. destruct c as [s sock].
  destruct cmd; simpl; [| | | | | |by destruct Hcmd].
  1: { split; [apply join_never_throws|].
       destruct (rooms s !! roomId) as [room|] eqn:Hroom.
       - rewrite (join_existing_room s sock roomId peerId createRouter room Hroom).
         simpl. by rewrite decide_True.
       - destruct createRouter as [router|].
         + rewrite (join_new_room s sock roomId peerId router Hroom).
           simpl. by rewrite decide_True.
         + rewrite (join_router_rejected s sock roomId peerId Hroom).
           simpl. by rewrite decide_True. }
  3: { unfold handleProduce, peer_and_room. js_unfold. simpl.
       destruct (peers_get s (socket_id sock)) as [[ref peer]|];
         [destruct (rooms_get s (socket_roomId sock)) as [room|]|]; simpl.
       - destruct (JsMap.get (peer_transports peer) transportId);
           [destruct produced|]; simpl.
         + destruct (socket_roomId sock); simpl; by rewrite decide_True.
         + by rewrite decide_True.
         + by rewrite decide_True.
       - by rewrite decide_True.
       - by rewrite decide_True. }
  all: run_handler; rewrite ?decide_True by done; done.
Qed.

Lemma every_request_is_answered_witness :
  (handle (consume "t1" "p1" true None) (ctx_of world_producing "s1")).2 = inr tt ∧
  emitted_to "s1"
    (handle (consume "t1" "p1" true None) (ctx_of world_producing "s1")).1.2 ≠ [].
Proof.
  apply (every_request_is_answered (consume "t1" "p1" true None)
           (ctx_of world_producing "s1")).
  discriminate.
Defined.

(** ** Requests that succeed *)

Lemma peers_get_Some (s : SFUServer) (socketId : string) (ref : nat) (peer : Peer) :
  peers_get s socketId = Some (ref, peer) ↔
  peers s !! socketId = Some ref ∧ peer_objects s !! ref = Some peer.
Proof.
  unfold peers_get. destruct (peers s !! socketId) as [ref'|]; [|by split; [|intros []]].
  destruct (peer_objects s !! ref') as [p|] eqn:Hp.
  - split; [by intros [= <- <-]|]. intros [[= <-] Hobj]. congruence.
  - split; [done|]. intros [[= <-] Hobj]. congruence.
Qed.

Lemma peers_get_store_peer (s : SFUServer) (socketId : string) (ref ref' : nat)
    (p peer' : Peer) :
  peers_get s socketId = Some (ref', peer') →
  peers_get (store_peer ref p s) socketId
  = Some (ref', if decide (ref' = ref) then p else peer').
Proof.
  intros [Href Hobj]%peers_get_Some. unfold peers_get, store_peer. simpl.
  rewrite Href. destruct (decide (ref' = ref)) as [->|Hne].
  - rewrite list_lookup_insert_eq; [done|]. by eapply lookup_lt_Some.
  - by rewrite list_lookup_insert_ne, Hobj.
Qed.

Lemma create_transport_spec (s : SFUServer) (sock : Socket) (ref : nat) (peer : Peer)
    (room : Room) (transport : Transport) :
  peers_get s (socket_id sock) = Some (ref, peer) →
  rooms_get s (socket_roomId sock) = Some room →
  handleCreateWebRTCTransport (Some transport) {| this := s; socket := sock |}
  = ({| this := store_peer ref
                  (with_transports
                     (λ m, JsMap.set m (transport_id transport) transport) peer) s;
        socket := sock |},
     [CreateWebRtcTransport (room_router room);
      SocketEmit (socket_id sock)
        (webrtc_transport_created (transport_id transport)
           (transport_descriptor transport))],
     inr tt).
Proof.
  intros Hpeer Hroom. pose proof Hpeer as [_ Hobj]%peers_get_Some.
  unfold handleCreateWebRTCTransport, peer_and_room. js_unfold. simpl.
  by rewrite Hpeer, Hroom; simpl; rewrite Hobj.
Qed.

Lemma produce_spec (s : SFUServer) (sock : Socket) (ref : nat) (peer : Peer)
    (roomId : string) (room : Room) (transportId : string) (transport : Transport)
    (kind : MediaKind) (rtpParameters : RtpParameters) (producer : Producer) :
  peers_get s (socket_id sock) = Some (ref, peer) →
  socket_roomId sock = Some roomId →
  rooms s !! roomId = Some room →
  JsMap.get (peer_transports peer) transportId = Some transport →
  handleProduce transportId kind rtpParameters (Some producer)
    {| this := s; socket := sock |}
  = ({| this :=
          store_room roomId
            (with_room_producers
               (λ m, JsMap.set m (producer_id producer) producer) room)
            (store_peer ref
               (with_producers
                  (λ m, JsMap.set m (producer_id producer) producer) peer) s);
        socket := sock |},
     [TransportProduce transport kind rtpParameters;
      SocketToEmit (socket_id sock) (Some roomId)
        (new_producer (producer_id producer) (peer_id peer));
      SocketEmit (socket_id sock) (producer_created (producer_id producer))],
     inr tt).
Proof.
  intros Hpeer Hsock Hroom Ht. pose proof Hpeer as [_ Hobj]%peers_get_Some.
  unfold handleProduce, peer_and_room, rooms_get. js_unfold. simpl.
  repeat (rewrite ?Hpeer, ?Hsock, ?Hroom, ?Ht, ?Hobj; simpl). done.
Qed.

Lemma consume_spec (s : SFUServer) (sock : Socket) (ref : nat) (peer : Peer)
    (room : Room) (transportId producerId : string) (transport : Transport)
    (producer : Producer) (canConsume : bool) (consumed : option Consumer) :
  peers_get s (socket_id sock) = Some (ref, peer) →
  rooms_get s (socket_roomId sock) = Some room →
  JsMap.get (peer_transports peer) transportId = Some transport →
  JsMap.get (room_producers room) producerId = Some producer →
  handleConsume transportId producerId canConsume consumed
    {| this := s; socket := sock |}
  = match canConsume, consumed with
    | true, Some consumer =>
        ({| this := store_peer ref
                      (with_consumers
                         (λ m, JsMap.set m (consumer_id consumer) consumer) peer) s;
            socket := sock |},
         [RouterCanConsume (room_router room) producerId;
          TransportConsume transport producerId true;
          SocketEmit (socket_id sock)
            (consumer_created (consumer_id consumer) producerId
               (consumer_kind consumer) (consumer_rtpParameters consumer))],
         inr tt)
    | true, None =>
        ({| this := s; socket := sock |},
         [RouterCanConsume (room_router room) producerId;
          TransportConsume transport producerId true;
          SocketEmit (socket_id sock) (error_event "Failed to create consumer")],
         inr tt)
    | false, _ =>
        ({| this := s; socket := sock |},
         [RouterCanConsume (room_router room) producerId;
          SocketEmit (socket_id sock) (error_event "Failed to create consumer")],
         inr tt)
    end.
Proof.
  intros Hpeer Hroom Ht Hp. pose proof Hpeer as [_ Hobj]%peers_get_Some.
  unfold handleConsume, consume_body, peer_and_room. js_unfold. simpl.
  rewrite Hpeer, Hroom. simpl. rewrite Ht, Hp. simpl.
  destruct canConsume; simpl; [|done].
  destruct consumed as [consumer|]; simpl; [|done].
  by rewrite Hobj.
Qed.

Lemma connect_spec (s : SFUServer) (sock : Socket) (ref : nat) (peer : Peer)
    (transportId : string) (transport : Transport) (connected : option unit) :
  peers_get s (socket_id sock) = Some (ref, peer) →
  JsMap.get (peer_transports peer) transportId = Some transport →
  handleConnectTransport transportId connected {| this := s; socket := sock |}
  = ({| this := s; socket := sock |},
     [TransportConnect transport;
      SocketEmit (socket_id sock)
        (match connected with
         | Some _ => transport_connected transportId
         | None => error_event "Failed to connect transport"
         end)],
     inr tt).
Proof.
  intros Hpeer Ht. unfold handleConnectTransport. js_unfold. simpl.
  rewrite Hpeer, Ht. by destruct connected.
Qed.

Lemma resume_spec (s : SFUServer) (sock : Socket) (ref : nat) (peer : Peer)
    (consumerId : string) (consumer : Consumer) (resumed : option unit) :
  peers_get s (socket_id sock) = Some (ref, peer) →
  JsMap.get (peer_consumers peer) consumerId = Some consumer →
  handleResumeConsumer consumerId resumed {| this := s; socket := sock |}
  = ({| this := s; socket := sock |},
     [ConsumerResume consumer;
      SocketEmit (socket_id sock)
        (match resumed with
         | Some _ => consumer_resumed consumerId
         | None => error_event "Failed to resume consumer"
         end)],
     inr tt).
Proof.
  intros Hpeer Hc. unfold handleResumeConsumer. js_unfold. simpl.
  rewrite Hpeer, Hc. by destruct resumed.
Qed.

Lemma jsmap_set_keys {V} (m : JsMap.t V) (k : string) (v : V) :
  k ∈ JsMap.keys (JsMap.set m k v).
Proof.
  destruct (JsMap.get (JsMap.set m k v) k) eqn:Hget.
  - destruct (decide (k ∈ JsMap.keys (JsMap.set m k v))); [done|].
    apply jsmap_get_None_keys in n. congruence.
  - by rewrite jsmap_get_set_eq in Hget.
Qed.

Lemma peers_get_store_room (s : SFUServer) (roomId : string) (room : Room)
    (socketId : string) :
  peers_get (store_room roomId room s) socketId = peers_get s socketId.
Proof. done. Qed.

(** X5: a produce request of a joined socket on a transport of its
    peer, when the engine creates the producer, registers the producer
    under its id both in the producer map of the peer and in the
    producer map of the room of the socket (a later lookup of the id
    finds it in both), announces it with one [new-producer] message to
    the room, the sender excepted, and answers [producer-created]; the
    other rooms, the peers map and the socket are as before. *)
Theorem produce_registers_producer (s : SFUServer) (sock : Socket) (ref : nat)
    (peer : Peer) (roomId : string) (room : Room) (transportId : string)
    (transport : Transport) (kind : MediaKind) (rtpParameters : RtpParameters)
    (producer : Producer) (c' : Ctx) (es : list Effect) :
  peers_get s (socket_id sock) = Some (ref, peer) →
  socket_roomId sock = Some roomId →
  rooms s !! roomId = Some room →
  JsMap.get (peer_transports peer) transportId = Some transport →
  exec (handleProduce transportId kind rtpParameters (Some producer))
    {| this := s; socket := sock |} = (c', es) →
  es = [TransportProduce transport kind rtpParameters;
        SocketToEmit (socket_id sock) (Some roomId)
          (new_producer (producer_id producer) (peer_id peer));
        SocketEmit (socket_id sock) (producer_created (producer_id producer))] ∧
  (∃ peer' room',
     peer_of (this c') (socket_id sock) = Some peer' ∧
     rooms (this c') !! roomId = Some room' ∧
     peer_producers peer'
     = JsMap.set (peer_producers peer) (producer_id producer) producer ∧
     room_producers room'
     = JsMap.set (room_producers room) (producer_id producer) producer ∧
     JsMap.get (peer_producers peer') (producer_id producer) = Some producer ∧
     JsMap.get (room_producers room') (producer_id producer) = Some producer ∧
     peer_transports peer' = peer_transports peer ∧
     peer_consumers peer' = peer_consumers peer ∧
     room_router room' = room_router room ∧
     room_peers room' = room_peers room) ∧
  (∀ r, r ≠ roomId → rooms (this c') !! r = rooms s !! r) ∧
  peers (this c') = peers s ∧
  socket c' = sock.
Proof.
  intros Hpeer Hsock Hroom Ht.
  rewrite (exec_eq _ _ _ _ _
             (produce_spec s sock ref peer roomId room transportId transport kind
                rtpParameters producer Hpeer Hsock Hroom Ht)).
  intros [= <- <-]. split; [done|]. split; [|split; [|done]].
  - eexists _, _. split; [|split].
    + unfold peer_of. cbn [this]. rewrite peers_get_store_room.
      rewrite (peers_get_store_peer _ _ _ _ _ _ Hpeer). by rewrite decide_True.
    + cbn. apply lookup_insert_eq.
    + cbn. by rewrite !jsmap_get_set_eq.
  - intros r Hne. cbn. by rewrite lookup_insert_ne.
Qed.

Lemma produce_registers_producer_witness :
  (exec (handleProduce "t1" video vp8 (Some producer1))
     {| this := server_two_peers; socket := socket_s1 |}).2
  = [TransportProduce transport1 video vp8;
     SocketToEmit (socket_id socket_s1) (Some "security")
       (new_producer (producer_id producer1) (peer_id peer1_joined));
     SocketEmit (socket_id socket_s1) (producer_created (producer_id producer1))].
Proof.
  exact (proj1 (produce_registers_producer server_two_peers socket_s1 0
                  peer1_joined "security" two_peer_room "t1" transport1 video vp8
                  producer1 _ _ eq_refl eq_refl eq_refl eq_refl eq_refl)).
Defined.

(** X6: a producer registered by a produce request is announced to
    every socket that joins the room afterwards: the answer to the
    join-room is the capability snapshot followed by one
    [existing-producers] event that lists the ids of the producers of
    the room, the new one among them. *)
Theorem produced_is_listed_to_later_joiners (s : SFUServer) (sock : Socket)
    (ref : nat) (peer : Peer) (roomId : string) (room : Room)
    (transportId : string) (transport : Transport) (kind : MediaKind)
    (rtpParameters : RtpParameters) (producer : Producer) (c' : Ctx)
    (joiner : Socket) (peerId : string) (createRouter : option Router) :
  peers_get s (socket_id sock) = Some (ref, peer) →
  socket_roomId sock = Some roomId →
  rooms s !! roomId = Some room →
  JsMap.get (peer_transports peer) transportId = Some transport →
  c' = (exec (handleProduce transportId kind rtpParameters (Some producer))
          {| this := s; socket := sock |}).1 →
  ∃ ids,
    join_events (this c') joiner roomId peerId createRouter
    = [router_rtp_capabilities (rtpCapabilities (room_router room));
       existing_producers ids] ∧
    producer_id producer ∈ ids ∧
    (∀ k, k ∈ JsMap.keys (room_producers room) → k ∈ ids).
Proof.
  intros Hpeer Hsock Hroom Ht.
  rewrite (exec_eq _ _ _ _ _
             (produce_spec s sock ref peer roomId room transportId transport kind
                rtpParameters producer Hpeer Hsock Hroom Ht)).
  intros ->. cbn [fst this].
  set (room' := with_room_producers
                  (λ m, JsMap.set m (producer_id producer) producer) room).
  exists (JsMap.keys (room_producers room')).
  assert (Hin : producer_id producer ∈ JsMap.keys (room_producers room'))
    by apply jsmap_set_keys.
  split; [|split; [done|]].
  - unfold join_events.
    rewrite (exec_eq _ _ _ _ _
               (join_existing_room _ joiner roomId peerId createRouter room'
                  (lookup_insert_eq _ _ _))).
    cbn [snd]. rewrite emitted_to_join_response.
    destruct (JsMap.keys (room_producers room')); [|done].
    by apply elem_of_nil in Hin.
  - intros k Hk. subst room'. cbn.
    destruct (decide (k = producer_id producer)) as [->|Hne]; [done|].
    destruct (decide (k ∈ JsMap.keys
                (JsMap.set (room_producers room) (producer_id producer) producer)))
      as [|Hnot]; [done|].
    apply jsmap_get_None_keys in Hnot.
    rewrite jsmap_get_set_ne in Hnot by done.
    by apply jsmap_get_None_keys in Hnot.
Qed.

Lemma produced_is_listed_to_later_joiners_witness :
  ∃ ids,
    join_events
      (this (exec (handleProduce "t1" video vp8 (Some producer1))
               {| this := server_two_peers; socket := socket_s1 |}).1)
      (new_socket "s3") "security" "peer3" None
    = [router_rtp_capabilities (rtpCapabilities (room_router two_peer_room));
       existing_producers ids] ∧
    producer_id producer1 ∈ ids ∧
    (∀ k, k ∈ JsMap.keys (room_producers two_peer_room) → k ∈ ids).
Proof.
  exact (produced_is_listed_to_later_joiners server_two_peers socket_s1 0
           peer1_joined "security" two_peer_room "t1" transport1 video vp8
           producer1 _ (new_socket "s3") "peer3" None
           eq_refl eq_refl eq_refl eq_refl eq_refl).
Defined.

(** X7: a producer registered by a produce request can be consumed by
    the sockets of the room: a consume request that names its id, from
    a socket whose room is the same and on a transport of its own peer,
    passes the lookups, asks the router of the room whether the
    producer can be consumed and, when it can and the engine creates
    the consumer, is answered [consumer-created] for that producer. *)
Theorem produced_can_be_consumed (s : SFUServer) (sock : Socket) (ref : nat)
    (peer : Peer) (roomId : string) (room : Room) (transportId : string)
    (transport : Transport) (kind : MediaKind) (rtpParameters : RtpParameters)
    (producer : Producer) (c' : Ctx)
    (viewer : Socket) (ref2 : nat) (peer2 : Peer) (transportId2 : string)
    (transport2 : Transport) (consumer : Consumer) :
  peers_get s (socket_id sock) = Some (ref, peer) →
  socket_roomId sock = Some roomId →
  rooms s !! roomId = Some room →
  JsMap.get (peer_transports peer) transportId = Some transport →
  c' = (exec (handleProduce transportId kind rtpParameters (Some producer))
          {| this := s; socket := sock |}).1 →
  peers_get s (socket_id viewer) = Some (ref2, peer2) →
  socket_roomId viewer = Some roomId →
  JsMap.get (peer_transports peer2) transportId2 = Some transport2 →
  (exec (handleConsume transportId2 (producer_id producer) true (Some consumer))
     {| this := this c'; socket := viewer |}).2
  = [RouterCanConsume (room_router room) (producer_id producer);
     TransportConsume transport2 (producer_id producer) true;
     SocketEmit (socket_id viewer)
       (consumer_created (consumer_id consumer) (producer_id producer)
          (consumer_kind consumer) (consumer_rtpParameters consumer))].
Proof.
  intros Hpeer Hsock Hroom Ht.
  rewrite (exec_eq _ _ _ _ _
             (produce_spec s sock ref peer roomId room transportId transport kind
                rtpParameters producer Hpeer Hsock Hroom Ht)).
  intros -> Hpeer2 Hsock2 Ht2. cbn [fst this].
  set (room' := with_room_producers
                  (λ m, JsMap.set m (producer_id producer) producer) room).
  set (peer' := with_producers
                  (λ m, JsMap.set m (producer_id producer) producer) peer).
  assert (Hpeer2' : peers_get (store_room roomId room' (store_peer ref peer' s))
                      (socket_id viewer)
                    = Some (ref2, if decide (ref2 = ref) then peer' else peer2)).
  { rewrite peers_get_store_room. by apply peers_get_store_peer. }
  assert (Ht2' : JsMap.get
                   (peer_transports (if decide (ref2 = ref) then peer' else peer2))
                   transportId2 = Some transport2).
  { destruct (decide (ref2 = ref)) as [->|]; [|done]. cbn.
    apply peers_get_Some in Hpeer as [_ Hobj], Hpeer2 as [_ Hobj2]. congruence. }
  rewrite (exec_eq _ _ _ _ _
             (consume_spec _ viewer ref2 _ room' transportId2
                (producer_id producer) transport2 producer true (Some consumer)
                Hpeer2' ltac:(unfold rooms_get; rewrite Hsock2; apply lookup_insert_eq)
                Ht2' ltac:(apply jsmap_get_set_eq))).
  done.
Qed.

Lemma produced_can_be_consumed_witness :
  (exec (handleConsume "t2" (producer_id producer1) true (Some consumer1))
     {| this := this (exec (handleProduce "t1" video vp8 (Some producer1))
                        {| this := server_two_peers; socket := socket_s1 |}).1;
        socket := socket_s2 |}).2
  = [RouterCanConsume (room_router two_peer_room) (producer_id producer1);
     TransportConsume transport2 (producer_id producer1) true;
     SocketEmit (socket_id socket_s2)
       (consumer_created (consumer_id consumer1) (producer_id producer1)
          (consumer_kind consumer1) (consumer_rtpParameters consumer1))].
Proof.
  exact (produced_can_be_consumed server_two_peers socket_s1 0 peer1_joined
           "security" two_peer_room "t1" transport1 video vp8 producer1 _
           socket_s2 1 peer2_joined "t2" transport2 consumer1
           eq_refl eq_refl eq_refl eq_refl eq_refl eq_refl eq_refl eq_refl).
Defined.

(** X8: a consume request that finds its transport and the producer
    first asks the router of the room whether the producer can be
    consumed.  When it cannot, [transport.consume] is not called and
    the request fails; when it can, the consumer is created paused,
    and, if the engine creates it, it is registered under its id in the
    consumer map of the peer, where a later lookup finds it, and
    described to the socket in one [consumer-created] event.  The rooms
    and the peers map are never changed by a consume. *)
Theorem consume_creates_paused_consumer (s : SFUServer) (sock : Socket) (ref : nat)
    (peer : Peer) (room : Room) (transportId producerId : string)
    (transport : Transport) (producer : Producer) :
  peers_get s (socket_id sock) = Some (ref, peer) →
  rooms_get s (socket_roomId sock) = Some room →
  JsMap.get (peer_transports peer) transportId = Some transport →
  JsMap.get (room_producers room) producerId = Some producer →
  let c := {| this := s; socket := sock |} in
  (∀ consumed,
     handleConsume transportId producerId false consumed c
     = (c, [RouterCanConsume (room_router room) producerId;
            SocketEmit (socket_id sock) (error_event "Failed to create consumer")],
        inr tt)) ∧
  handleConsume transportId producerId true None c
  = (c, [RouterCanConsume (room_router room) producerId;
         TransportConsume transport producerId true;
         SocketEmit (socket_id sock) (error_event "Failed to create consumer")],
     inr tt) ∧
  (∀ consumer c' es,
     exec (handleConsume transportId producerId true (Some consumer)) c = (c', es) →
     es = [RouterCanConsume (room_router room) producerId;
           TransportConsume transport producerId true;
           SocketEmit (socket_id sock)
             (consumer_created (consumer_id consumer) producerId
                (consumer_kind consumer) (consumer_rtpParameters consumer))] ∧
     (∃ peer',
        peer_of (this c') (socket_id sock) = Some peer' ∧
        peer_consumers peer'
        = JsMap.set (peer_consumers peer) (consumer_id consumer) consumer ∧
        JsMap.get (peer_consumers peer') (consumer_id consumer) = Some consumer ∧
        peer_transports peer' = peer_transports peer ∧
        peer_producers peer' = peer_producers peer) ∧
     rooms (this c') = rooms s ∧
     peers (this c') = peers s ∧
     socket c' = sock).
Proof.
  intros Hpeer Hroom Ht Hp c. subst c. split; [|split].
  - intros consumed.
    apply (consume_spec s sock ref peer room transportId producerId transport
             producer false consumed Hpeer Hroom Ht Hp).
  - apply (consume_spec s sock ref peer room transportId producerId transport
             producer true None Hpeer Hroom Ht Hp).
  - intros consumer c' es.
    rewrite (exec_eq _ _ _ _ _
               (consume_spec s sock ref peer room transportId producerId transport
                  producer true (Some consumer) Hpeer Hroom Ht Hp)).
    intros [= <- <-]. split; [done|]. split; [|done].
    eexists. split.
    + unfold peer_of. cbn [this].
      rewrite (peers_get_store_peer _ _ _ _ _ _ Hpeer). by rewrite decide_True.
    + cbn. by rewrite jsmap_get_set_eq.
Qed.

Lemma consume_creates_paused_consumer_witness :
  handleConsume "t2" "p1" false (Some consumer1)
    {| this := server_producing; socket := socket_s2 |}
  = ({| this := server_producing; socket := socket_s2 |},
     [RouterCanConsume (room_router producing_room) "p1";
      SocketEmit (socket_id socket_s2) (error_event "Failed to create consumer")],
     inr tt).
Proof.
  exact (proj1 (consume_creates_paused_consumer server_producing socket_s2 1
                  peer2_joined producing_room "t2" "p1" transport2 producer1
                  eq_refl eq_refl eq_refl eq_refl) (Some consumer1)).
Defined.

(** ** Objects created for a socket are found by its later requests *)

(** X9: the transport created by a create-webrtc-transport request is
    registered under its id in the transport map of the peer of the
    socket and described to the socket in one
    [webrtc-transport-created] event; a connect-transport request of
    the socket that names this id finds the transport, connects it and
    is answered [transport-connected], or, when the engine refuses the
    connection, by one [error] event. *)
Theorem created_transport_is_found (s : SFUServer) (sock : Socket) (ref : nat)
    (peer : Peer) (room : Room) (transport : Transport) (c' : Ctx)
    (es : list Effect) :
  peers_get s (socket_id sock) = Some (ref, peer) →
  rooms_get s (socket_roomId sock) = Some room →
  exec (handleCreateWebRTCTransport (Some transport))
    {| this := s; socket := sock |} = (c', es) →
  es = [CreateWebRtcTransport (room_router room);
        SocketEmit (socket_id sock)
          (webrtc_transport_created (transport_id transport)
             (transport_descriptor transport))] ∧
  (∃ peer',
     peer_of (this c') (socket_id sock) = Some peer' ∧
     peer_transports peer'
     = JsMap.set (peer_transports peer) (transport_id transport) transport ∧
     peer_producers peer' = peer_producers peer ∧
     peer_consumers peer' = peer_consumers peer) ∧
  rooms (this c') = rooms s ∧
  peers (this c') = peers s ∧
  socket c' = sock ∧
  (∀ connected,
     handleConnectTransport (transport_id transport) connected c'
     = (c', [TransportConnect transport;
             SocketEmit (socket_id sock)
               (match connected with
                | Some _ => transport_connected (transport_id transport)
                | None => error_event "Failed to connect transport"
                end)],
        inr tt)).
Proof.
  intros Hpeer Hroom.
  rewrite (exec_eq _ _ _ _ _
             (create_transport_spec s sock ref peer room transport Hpeer Hroom)).
  intros [= <- <-].
  pose proof (peers_get_store_peer s (socket_id sock) ref ref
                (with_transports
                   (λ m, JsMap.set m (transport_id transport) transport) peer)
                peer Hpeer) as Hpeer'.
  rewrite decide_True in Hpeer' by done.
  split; [done|]. split; [|split; [done|split; [done|split; [done|]]]].
  - eexists. split; [unfold peer_of; cbn [this]; by rewrite Hpeer'|done].
  - intros connected.
    apply (connect_spec _ sock ref _ (transport_id transport) transport connected
             Hpeer').
    apply jsmap_get_set_eq.
Qed.

Lemma created_transport_is_found_witness :
  (exec (handleCreateWebRTCTransport (Some transport2))
     {| this := server_two_peers; socket := socket_s1 |}).2
  = [CreateWebRtcTransport (room_router two_peer_room);
     SocketEmit (socket_id socket_s1)
       (webrtc_transport_created (transport_id transport2)
          (transport_descriptor transport2))].
Proof.
  exact (proj1 (created_transport_is_found server_two_peers socket_s1 0
                  peer1_joined two_peer_room transport2 _ _
                  eq_refl eq_refl eq_refl)).
Defined.

(** X10: the consumer created by a consume request is found by a
    resume-consumer request of the same socket that names its id: the
    consumer is resumed and the socket is answered [consumer-resumed],
    or, when the engine refuses, by one [error] event; nothing of the
    server changes. *)
Theorem created_consumer_can_be_resumed (s : SFUServer) (sock : Socket) (ref : nat)
    (peer : Peer) (room : Room) (transportId producerId : string)
    (transport : Transport) (producer : Producer) (consumer : Consumer)
    (c' : Ctx) (resumed : option unit) :
  peers_get s (socket_id sock) = Some (ref, peer) →
  rooms_get s (socket_roomId sock) = Some room →
  JsMap.get (peer_transports peer) transportId = Some transport →
  JsMap.get (room_producers room) producerId = Some producer →
  c' = (exec (handleConsume transportId producerId true (Some consumer))
          {| this := s; socket := sock |}).1 →
  handleResumeConsumer (consumer_id consumer) resumed c'
  = (c', [ConsumerResume consumer;
          SocketEmit (socket_id sock)
            (match resumed with
             | Some _ => consumer_resumed (consumer_id consumer)
             | None => error_event "Failed to resume consumer"
             end)],
     inr tt).
Proof.
  intros Hpeer Hroom Ht Hp.
  rewrite (exec_eq _ _ _ _ _
             (consume_spec s sock ref peer room transportId producerId transport
                producer true (Some consumer) Hpeer Hroom Ht Hp)).
  intros ->. cbn [fst].
  pose proof (peers_get_store_peer s (socket_id sock) ref ref
                (with_consumers
                   (λ m, JsMap.set m (consumer_id consumer) consumer) peer)
                peer Hpeer) as Hpeer'.
  rewrite decide_True in Hpeer' by done.
  apply (resume_spec _ sock ref _ (consumer_id consumer) consumer resumed Hpeer').
  apply jsmap_get_set_eq.
Qed.

Lemma created_consumer_can_be_resumed_witness :
  handleResumeConsumer (consumer_id consumer1) (Some tt)
    (exec (handleConsume "t2" "p1" true (Some consumer1))
       {| this := server_producing; socket := socket_s2 |}).1
  = ((exec (handleConsume "t2" "p1" true (Some consumer1))
        {| this := server_producing; socket := socket_s2 |}).1,
     [ConsumerResume consumer1;
      SocketEmit (socket_id socket_s2) (consumer_resumed (consumer_id consumer1))],
     inr tt).
Proof.
  exact (created_consumer_can_be_resumed server_producing socket_s2 1
           peer2_joined producing_room "t2" "p1" transport2 producer1 consumer1
           _ (Some tt) eq_refl eq_refl eq_refl eq_refl eq_refl).
Defined.

(** ** Disconnect of a joined socket *)

Lemma remove_producers_get (ps : list Producer) (m : JsMap.t Producer) (k : string) :
  JsMap.get (remove_producers ps m) k
  = if decide (k ∈ producer_id <$> ps) then None else JsMap.get m k.
Proof.
  unfold remove_producers. revert m.
  induction ps as [|p ps IH]; intros m; [done|]. cbn [foldl].
  rewrite IH. change (k ∈ producer_id <$> p :: ps)
      with (k ∈ producer_id p :: (producer_id <$> ps)).
  destruct (decide (k ∈ producer_id <$> ps)) as [Hin|Hnot].
  - rewrite decide_True; [done|]. by apply elem_of_cons; right.
  - destruct (decide (producer_id p = k)) as [<-|Hne].
    + rewrite jsmap_get_delete_eq. rewrite decide_True; [done|].
      by apply elem_of_cons; left.
    + rewrite jsmap_get_delete_ne by done. rewrite decide_False; [done|].
      rewrite not_elem_of_cons. split; [congruence|done].
Qed.

Lemma after_disconnect_no_peer (c : Ctx) :
  peers_get (this (after_disconnect c)) (socket_id (socket (after_disconnect c)))
  = None.
Proof.
  unfold after_disconnect.
  destruct (peers_get (this c) (socket_id (socket c))) as [[ref peer]|] eqn:Hpeer;
    [|done].
  unfold peers_get. cbn. by rewrite lookup_delete_eq.
Qed.

(** X11: after a disconnect the socket has no peer, whatever it had
    before: a second disconnect does nothing and closes nothing, and
    every later request of the socket other than a join-room is
    answered by one [error] event and changes nothing. *)
Theorem disconnect_leaves_no_peer (c : Ctx) :
  let c1 := (exec handleDisconnect c).1 in
  peers_get (this c1) (socket_id (socket c1)) = None ∧
  handleDisconnect c1 = (c1, [], inr tt) ∧
  (∀ cmd msg,
     (∀ roomId peerId createRouter, cmd ≠ join_room roomId peerId createRouter) →
     failure_message cmd = Some msg →
     handle cmd c1
     = (c1, [SocketEmit (socket_id (socket c)) (error_event msg)], inr tt)).
Proof.
  rewrite (exec_eq _ _ _ _ _ (disconnect_spec c)). cbn [fst].
  pose proof (after_disconnect_no_peer c) as Hnone.
  assert (Hid : socket_id (socket (after_disconnect c)) = socket_id (socket c)).
  { unfold after_disconnect.
    by destruct (peers_get (this c) (socket_id (socket c))) as [[ref peer]|]. }
  generalize dependent (after_disconnect c). intros c1 Hnone Hid.
  split; [done|]. split.
  - rewrite disconnect_spec. unfold after_disconnect, disconnect_effects.
    by rewrite Hnone.
  - intros cmd msg Hjoin Hmsg. rewrite <- Hid.
    destruct c1 as [s1 sock1]. by apply handle_without_peer.
Qed.

Lemma disconnect_leaves_no_peer_witness :
  handle (produce "t1" video vp8 None)
    (exec handleDisconnect {| this := server_two_peers; socket := socket_s1 |}).1
  = ((exec handleDisconnect {| this := server_two_peers; socket := socket_s1 |}).1,
     [SocketEmit (socket_id (socket {| this := server_two_peers;
                                       socket := socket_s1 |}))
        (error_event "Failed to create producer")],
     inr tt).
Proof.
  exact (proj2 (proj2 (disconnect_leaves_no_peer
                         {| this := server_two_peers; socket := socket_s1 |}))
           (produce "t1" video vp8 None) "Failed to create producer"
           (λ _ _ _, ltac:(discriminate)) eq_refl).
Defined.

(** X12: the disconnect of a socket whose peer and room are registered
    closes every transport, then every producer, then every consumer of
    the peer, and the router of the room if no peer is left in it;
    nothing else is called.  The entry of the socket is removed from
    [this.peers]; in the room, if it stays, the entry of the peer id is
    removed and no producer is registered any more under the id of a
    producer of the peer, the other entries of the producer map being
    as before; the other rooms are untouched. *)
Theorem disconnect_releases_peer (s : SFUServer) (sock : Socket) (ref : nat)
    (peer : Peer) (roomId : string) (room : Room) (c' : Ctx) (es : list Effect) :
  peers_get s (socket_id sock) = Some (ref, peer) →
  socket_roomId sock = Some roomId →
  rooms s !! roomId = Some room →
  exec handleDisconnect {| this := s; socket := sock |} = (c', es) →
  es = (TransportClose <$> JsMap.values (peer_transports peer)) ++
       (ProducerClose <$> JsMap.values (peer_producers peer)) ++
       (ConsumerClose <$> JsMap.values (peer_consumers peer)) ++
       (if bool_decide (size (delete (peer_id peer) (room_peers room)) = 0)
        then [RouterClose (room_router room)] else []) ∧
  peers (this c') = delete (socket_id sock) (peers s) ∧
  (∀ room', rooms (this c') !! roomId = Some room' →
     room_router room' = room_router room ∧
     room_peers room' = delete (peer_id peer) (room_peers room) ∧
     (∀ p, p ∈ JsMap.values (peer_producers peer) →
           JsMap.get (room_producers room') (producer_id p) = None) ∧
     (∀ k, (∀ p, p ∈ JsMap.values (peer_producers peer) → producer_id p ≠ k) →
           JsMap.get (room_producers room') k = JsMap.get (room_producers room) k)) ∧
  (∀ r, r ≠ roomId → rooms (this c') !! r = rooms s !! r) ∧
  socket c' = sock.
Proof.
  intros Hpeer Hsock Hroom.
  rewrite (exec_eq _ _ _ _ _ (disconnect_spec _)).
  unfold after_disconnect, disconnect_effects, rooms_get. cbn [this socket].
  rewrite Hpeer, Hsock, Hroom. intros [= <- <-].
  split; [done|]. split; [done|]. split; [|split; [|done]].
  - intros room'. cbn [this rooms]. cbn [room_after_leave room_peers].
    case_bool_decide; [by rewrite lookup_delete_eq|].
    rewrite lookup_insert_eq. intros [= <-].
    split; [done|]. split; [done|]. cbn [room_after_leave room_producers]. split.
    + intros p Hp. rewrite remove_producers_get.
      rewrite decide_True; [done|]. by apply list_elem_of_fmap_2.
    + intros k Hk. rewrite remove_producers_get.
      rewrite decide_False; [done|].
      intros (p & -> & Hp)%list_elem_of_fmap. by apply (Hk p).
  - intros r Hne. cbn [this rooms].
    case_bool_decide; [by rewrite lookup_delete_ne|by rewrite lookup_insert_ne].
Qed.

Lemma disconnect_releases_peer_witness :
  (exec handleDisconnect {| this := server_producing; socket := socket_s1 |}).2
  = (TransportClose <$> JsMap.values (peer_transports peer1_producing)) ++
    (ProducerClose <$> JsMap.values (peer_producers peer1_producing)) ++
    (ConsumerClose <$> JsMap.values (peer_consumers peer1_producing)) ++
    (if bool_decide (size (delete (peer_id peer1_producing)
                             (room_peers producing_room)) = 0)
     then [RouterClose (room_router producing_room)] else []).
Proof.
  exact (proj1 (disconnect_releases_peer server_producing socket_s1 0
                  peer1_producing "security" producing_room _ _
                  eq_refl eq_refl eq_refl eq_refl)).
Defined.

(** X13: the disconnect of a socket whose peer is registered but whose
    room is not in the registry (the socket's room was removed while
    the socket stayed connected) only removes the entry of the socket
    from [this.peers]: the transports, producers and consumers of the
    peer are not closed. *)
Theorem disconnect_without_room_closes_nothing (s : SFUServer) (sock : Socket)
    (ref : nat) (peer : Peer) :
  peers_get s (socket_id sock) = Some (ref, peer) →
  rooms_get s (socket_roomId sock) = None →
  handleDisconnect {| this := s; socket := sock |}
  = ({| this := forget_peer (socket_id sock) s; socket := sock |}, [], inr tt).
Proof.
  intros Hpeer Hroom. rewrite disconnect_spec.
  unfold after_disconnect, disconnect_effects, forget_peer. cbn [this socket].
  rewrite Hpeer, Hroom. unfold rooms_get in Hroom.
  destruct (socket_roomId sock) as [r|]; [|done]. by rewrite Hroom.
Qed.

Lemma disconnect_without_room_witness :
  handleDisconnect (ctx_of world_room_removed "s2")
  = ({| this := forget_peer "s2" (server world_room_removed);
        socket := socket_of world_room_removed "s2" |}, [], inr tt).
Proof.
  apply (disconnect_without_room_closes_nothing (server world_room_removed)
           (socket_of world_room_removed "s2") 1
           {| peer_id := "viewer"; peer_socket := "s2";
              peer_transports := [("t2", transport2)];
              peer_producers := []; peer_consumers := [] |});
    reflexivity.
Defined.

(** ** The room route *)

(** X24: in every state the process reaches, [GET /rooms/:roomId]
    answers 404 exactly for the rooms that hold no peer, and otherwise
    reports the room with at least one participant; the producer ids it
    reports are those a socket joining the room at that moment is told
    in [existing-producers] (none being told when the list is
    empty). *)
Theorem room_route_reports_rooms_with_peers (urls : list string) (w : World)
    (roomId : string) :
  reachable urls w →
  (room_route (server w) roomId = error_json 404 "Room not found" ↔
   peer_count (server w) roomId = 0) ∧
  (∀ room,
     rooms (server w) !! roomId = Some room →
     room_route (server w) roomId
     = room_json roomId (peer_count (server w) roomId)
         (JsMap.keys (room_producers room)) ∧
     1 ≤ peer_count (server w) roomId ∧
     ∀ sock peerId createRouter,
       join_events (server w) sock roomId peerId createRouter
       = router_rtp_capabilities (rtpCapabilities (room_router room)) ::
         match JsMap.keys (room_producers room) with
         | [] => []
         | ids => [existing_producers ids]
         end).
Proof.
  intros Hreach.
  destruct (reachable_registry_ok urls w (new_socket "") Hreach) as [Hpop _].
  pose proof (populated_iff_peer_count (server w) roomId Hpop) as Hiff.
  unfold room_route, peer_count in *. simpl in Hiff.
  destruct (rooms (server w) !! roomId) as [room|] eqn:Hroom.
  - split.
    + split; [done|]. intros Hzero. destruct Hiff as [Hiff _].
      specialize (Hiff (mk_is_Some _ _ eq_refl)). lia.
    + intros ? [= <-]. split; [done|]. split; [by apply Hiff|].
      intros sock peerId createRouter. unfold join_events.
      rewrite (exec_eq _ _ _ _ _
                 (join_existing_room _ sock roomId peerId createRouter room Hroom)).
      cbn [snd]. by rewrite emitted_to_join_response.
  - split; [done|]. intros ? [=].
Qed.

Lemma room_route_witness :
  room_route (server world_joined) "security" = room_json "security" 1 [] ∧
  room_route (server world_joined) "lobby" = error_json 404 "Room not found".
Proof.
  pose proof (room_route_reports_rooms_with_peers [] world_joined "lobby"
                (ex_intro _ _ eq_refl)) as [H404 _].
  split; [reflexivity|]. apply H404. reflexivity.
Defined.

(** ** The peers of different sockets *)

Lemma request_outcome (cmd : Command) (s : SFUServer) (sock : Socket) (c' : Ctx)
    (es : list Effect) (r : Exn + unit) :
  handle cmd {| this := s; socket := sock |} = (c', es, r) →
  (∀ roomId peerId createRouter, cmd ≠ join_room roomId peerId createRouter) →
  cmd ≠ disconnect →
  socket c' = sock ∧ peers (this c') = peers s ∧
  (peer_objects (this c') = peer_objects s ∨
   ∃ ref p p',
     peers_get s (socket_id sock) = Some (ref, p) ∧
     peer_objects (this c') = <[ref := p']> (peer_objects s) ∧
     peer_socket p' = peer_socket p).
Proof.
  intros Hrun Hjoin Hdisc.
  destruct cmd; simpl in Hrun;
    [by destruct (Hjoin roomId peerId createRouter)| | | | | |done].
  - destruct (peers_get s (socket_id sock)) as [[ref p]|] eqn:Hpeer;
      [destruct (rooms_get s (socket_roomId sock)) as [room|] eqn:Hroom|].
    + destruct created as [transport|].
      * rewrite (create_transport_spec s sock ref p room transport Hpeer Hroom)
          in Hrun.
        injection Hrun as <- <- <-. split; [done|]. split; [done|]. right.
        by eexists _, _, _.
      * revert Hrun. unfold handleCreateWebRTCTransport, peer_and_room.
        js_unfold. simpl. rewrite Hpeer, Hroom. simpl.
        intros [= <- <- <-]. eauto.
    + revert Hrun. unfold handleCreateWebRTCTransport, peer_and_room.
      js_unfold. simpl. rewrite Hpeer, Hroom. simpl. intros [= <- <- <-]. eauto.
    + revert Hrun. unfold handleCreateWebRTCTransport, peer_and_room.
      js_unfold. simpl. rewrite Hpeer. simpl. intros [= <- <- <-]. eauto.
  - revert Hrun. unfold handleConnectTransport. js_unfold. simpl.
    destruct (peers_get s (socket_id sock)) as [[ref p]|]; simpl;
      [destruct (JsMap.get (peer_transports p) transportId); simpl;
       [destruct connected; simpl|]|];
      intros [= <- <- <-]; eauto.
  - destruct (peers_get s (socket_id sock)) as [[ref p]|] eqn:Hpeer;
      [destruct (socket_roomId sock) as [roomId|] eqn:Hsock;
       [destruct (rooms s !! roomId) as [room|] eqn:Hroom|]|].
    + destruct (JsMap.get (peer_transports p) transportId) as [transport|] eqn:Ht;
        [destruct produced as [producer|]|].
      * rewrite (produce_spec s sock ref p roomId room transportId transport kind
                   rtpParameters producer Hpeer Hsock Hroom Ht) in Hrun.
        injection Hrun as <- <- <-. split; [done|]. split; [done|]. right.
        by eexists _, _, _.
      * revert Hrun. unfold handleProduce, peer_and_room, rooms_get.
        js_unfold. simpl. rewrite Hpeer, Hsock. simpl. rewrite Hroom. simpl.
        rewrite Ht. simpl. intros [= <- <- <-]. eauto.
      * revert Hrun. unfold handleProduce, peer_and_room, rooms_get.
        js_unfold. simpl. rewrite Hpeer, Hsock. simpl. rewrite Hroom. simpl.
        rewrite Ht. simpl. intros [= <- <- <-]. eauto.
    + revert Hrun. unfold handleProduce, peer_and_room, rooms_get.
      js_unfold. simpl. rewrite Hpeer, Hsock. simpl. rewrite Hroom. simpl.
      intros [= <- <- <-]. eauto.
    + revert Hrun. unfold handleProduce, peer_and_room, rooms_get.
      js_unfold. simpl. rewrite Hpeer, Hsock. simpl. intros [= <- <- <-]. eauto.
    + revert Hrun. unfold handleProduce, peer_and_room.
      js_unfold. simpl. rewrite Hpeer. simpl. intros [= <- <- <-]. eauto.
  - destruct (peers_get s (socket_id sock)) as [[ref p]|] eqn:Hpeer;
      [destruct (rooms_get s (socket_roomId sock)) as [room|] eqn:Hroom|].
    + destruct (JsMap.get (peer_transports p) transportId) as [transport|] eqn:Ht;
        [destruct (JsMap.get (room_producers room) producerId) as [producer|] eqn:Hp|].
      * rewrite (consume_spec s sock ref p room transportId producerId transport
                   producer canConsume consumed Hpeer Hroom Ht Hp) in Hrun.
        destruct canConsume; [destruct consumed as [consumer|]|];
          injection Hrun as <- <- <-; eauto.
        split; [done|]. split; [done|]. right. by eexists _, _, _.
      * revert Hrun. unfold handleConsume, consume_body, peer_and_room.
        js_unfold. simpl. rewrite Hpeer, Hroom. simpl. rewrite Ht, Hp. simpl.
        intros [= <- <- <-]. eauto.
      * revert Hrun. unfold handleConsume, consume_body, peer_and_room.
        js_unfold. simpl. rewrite Hpeer, Hroom. simpl. rewrite Ht. simpl.
        intros [= <- <- <-]. eauto.
    + revert Hrun. unfold handleConsume, consume_body, peer_and_room.
      js_unfold. simpl. rewrite Hpeer, Hroom. simpl. intros [= <- <- <-]. eauto.
    + revert Hrun. unfold handleConsume, consume_body, peer_and_room.
      js_unfold. simpl. rewrite Hpeer. simpl. intros [= <- <- <-]. eauto.
  - revert Hrun. unfold handleResumeConsumer. js_unfold. simpl.
    destruct (peers_get s (socket_id sock)) as [[ref p]|]; simpl;
      [destruct (JsMap.get (peer_consumers p) consumerId); simpl;
       [destruct resumed; simpl|]|];
      intros [= <- <- <-]; eauto.
Qed.

Lemma after_join_owned (s : SFUServer) (sock : Socket) (roomId peerId : string)
    (room : Room) :
  peers_owned s → peers_owned (this (after_join s sock roomId peerId room)).
Proof.
  unfold peers_owned, map_Forall, after_join. simpl. intros Hs sid ref.
  destruct (decide (socket_id sock = sid)) as [<-|Hne].
  - rewrite lookup_insert_eq. intros [= <-]. exists (new_peer peerId (socket_id sock)).
    split; [|done]. by rewrite lookup_app_r, Nat.sub_diag.
  - rewrite lookup_insert_ne by done. intros Href.
    destruct (Hs sid ref Href) as (p & Hp & Hsock). exists p. split; [|done].
    rewrite lookup_app_l; [done|]. by eapply lookup_lt_Some.
Qed.

Lemma handle_peers_owned (cmd : Command) :
  preserves (λ c, peers_owned (this c)) (handle cmd).
Proof.
  intros [s sock] Hs. simpl in Hs.
  destruct (handle cmd {| this := s; socket := sock |}) as [[c' es] r] eqn:Hrun.
  assert (peers_owned (this c')); [|by destruct r].
  assert (Hother :
    (∀ roomId peerId createRouter, cmd ≠ join_room roomId peerId createRouter) →
    cmd ≠ disconnect → peers_owned (this c')).
  { intros Hjoin Hdisc.
    destruct (request_outcome _ s sock c' es r Hrun Hjoin Hdisc)
      as (_ & Hpeers & Hobjs).
    unfold peers_owned, map_Forall. rewrite Hpeers. intros sid ref Href.
    destruct (Hs sid ref Href) as (q & Hq & Hsock).
    destruct Hobjs as [->|(ref0 & p & p' & Hpeer & -> & Hp')]; [by exists q|].
    apply peers_get_Some in Hpeer as [Href0 Hp].
    destruct (decide (ref = ref0)) as [->|Hne].
    - exists p'. rewrite list_lookup_insert_eq by (by eapply lookup_lt_Some).
      split; [done|congruence].
    - exists q. by rewrite list_lookup_insert_ne. }
  destruct cmd; try (apply Hother; [intros ? ? ?; discriminate|discriminate]).
  - simpl in Hrun. destruct (rooms s !! roomId) as [room|] eqn:Hroom.
    + rewrite (join_existing_room s sock roomId peerId createRouter room Hroom)
        in Hrun.
      injection Hrun as <- <- <-. by apply after_join_owned.
    + destruct createRouter as [router|].
      * rewrite (join_new_room s sock roomId peerId router Hroom) in Hrun.
        injection Hrun as <- <- <-. by apply after_join_owned.
      * rewrite (join_router_rejected s sock roomId peerId Hroom) in Hrun.
        by injection Hrun as <- <- <-.
  - unfold handle in Hrun. rewrite disconnect_spec in Hrun.
    injection Hrun as <- <- <-.
    unfold after_disconnect. simpl.
    destruct (peers_get s (socket_id sock)) as [[ref peer]|]; [|done].
    unfold peers_owned, map_Forall. simpl.
    intros sid ref' [_ Href]%lookup_delete_Some. by apply Hs.
Qed.

Lemma step_peers_owned (w : World) (ev : Event) :
  peers_owned (server w) → peers_owned (server (step w ev).1).
Proof.
  intros Hw.
  assert (Hbridge : ∀ m, peers_owned (server (run_bridge m w).1)).
  { intros m. destruct (run_bridge_server m w) as (_ & Hp & Ho).
    unfold peers_owned. by rewrite Hp, Ho. }
  destruct ev as [socketId cmd|createRouter answers|timer ok a|cam url code|];
    simpl; try apply Hbridge.
  - unfold run_socket.
    pose proof (preserves_exec _ (handle cmd)
                  {| this := server w; socket := socket_of w socketId |}
                  (handle_peers_owned cmd) Hw) as H.
    by destruct (exec (handle cmd) _) as [c es].
  - destruct (find_timer w timer); [apply Hbridge|done].
Qed.

Lemma reachable_peers_owned (urls : list string) (w : World) :
  reachable urls w → peers_owned (server w).
Proof.
  intros [evs ->].
  assert (Hrun : ∀ evs w, peers_owned (server w) →
                          peers_owned (server (run w evs).1)).
  { clear. intros evs. induction evs as [|ev evs IH]; intros w Hw; simpl; [done|].
    pose proof (step_peers_owned w ev Hw) as H1.
    destruct (step w ev) as [w1 es1]. specialize (IH w1 H1).
    by destruct (run w1 evs) as [w2 es2]. }
  apply Hrun. apply map_Forall_empty.
Qed.

Lemma peers_get_None (s : SFUServer) (socketId : string) :
  refs_allocated s → peers_get s socketId = None → peers s !! socketId = None.
Proof.
  intros [Hrefs _]. unfold peers_get.
  destruct (peers s !! socketId) as [ref|] eqn:Href; [|done].
  destruct (lookup_lt_is_Some_2 (peer_objects s) ref (Hrefs _ _ Href)) as [p ->].
  done.
Qed.

Lemma request_keeps_other_peers (cmd : Command) (s : SFUServer) (sock : Socket)
    (other : string) (c' : Ctx) (es : list Effect) (r : Exn + unit) :
  peers_owned s → refs_allocated s → other ≠ socket_id sock →
  handle cmd {| this := s; socket := sock |} = (c', es, r) →
  peers (this c') !! other = peers s !! other ∧
  peers_get (this c') other = peers_get s other.
Proof.
  intros Howned [Hrefs _] Hne Hrun.
  assert (Hjoin : ∀ roomId peerId room,
    peers (this (after_join s sock roomId peerId room)) !! other = peers s !! other ∧
    peers_get (this (after_join s sock roomId peerId room)) other
    = peers_get s other).
  { intros roomId peerId room. unfold peers_get, after_join. simpl.
    rewrite lookup_insert_ne by done. split; [done|].
    destruct (peers s !! other) as [ref|] eqn:Href; [|done].
    by rewrite lookup_allocated by (by eapply Hrefs). }
  destruct cmd.
  1: { simpl in Hrun. destruct (rooms s !! roomId) as [room|] eqn:Hroom.
       - rewrite (join_existing_room s sock roomId peerId createRouter room Hroom)
           in Hrun.
         injection Hrun as <- <- <-. apply Hjoin.
       - destruct createRouter as [router|].
         + rewrite (join_new_room s sock roomId peerId router Hroom) in Hrun.
           injection Hrun as <- <- <-. apply Hjoin.
         + rewrite (join_router_rejected s sock roomId peerId Hroom) in Hrun.
           by injection Hrun as <- <- <-. }
  6: { unfold handle in Hrun. rewrite disconnect_spec in Hrun.
       injection Hrun as <- <- <-. unfold after_disconnect. simpl.
       destruct (peers_get s (socket_id sock)) as [[ref peer]|]; [|done].
       unfold peers_get. simpl. by rewrite lookup_delete_ne. }
  all: destruct (request_outcome _ s sock c' es r Hrun) as (_ & Hpeers & Hobjs);
    [intros ? ? ?; discriminate|discriminate|].
  all: rewrite Hpeers; split; [done|]; unfold peers_get; rewrite Hpeers.
  all: destruct Hobjs as [->|(ref0 & p & p' & Hpeer & -> & Hp')]; [done|].
  all: destruct (peers s !! other) as [ref|] eqn:Href; [|done].
  all: apply peers_get_Some in Hpeer as [Href0 Hp].
  all: rewrite list_lookup_insert_ne; [done|].
  all: intros <-; apply Hne.
  all: destruct (Howned _ _ Href) as (q & Hq & <-).
  all: destruct (Howned _ _ Href0) as (q0 & Hq0 & <-); congruence.
Qed.

(** X25: in every state the process reaches, the peer registered for
    a socket is an object created by a join-room of that very socket,
    so two sockets never share their peer object.  A request on one
    socket, whatever it is and however it ends, therefore leaves the
    peers of all other sockets as they are: their entry in
    [this.peers], their peer object with its transports, producers and
    consumers, and the [peerId] and [roomId] of their socket. *)
Theorem sockets_are_isolated (urls : list string) (w : World) :
  reachable urls w →
  (∀ socketId peer,
     peer_of (server w) socketId = Some peer → peer_socket peer = socketId) ∧
  (∀ socket1 socket2 ref,
     peers (server w) !! socket1 = Some ref →
     peers (server w) !! socket2 = Some ref → socket1 = socket2) ∧
  (∀ socketId other cmd w' es,
     other ≠ socketId →
     step w (on_socket socketId cmd) = (w', es) →
     peers (server w') !! other = peers (server w) !! other ∧
     peer_of (server w') other = peer_of (server w) other ∧
     sockets w' !! other = sockets w !! other).
Proof.
  intros Hreach.
  pose proof (reachable_peers_owned urls w Hreach) as Howned.
  destruct (reachable_registry_ok urls w (new_socket "") Hreach) as [_ Hrefs].
  simpl in Hrefs.
  split; [|split].
  - intros sid peer. unfold peer_of.
    destruct (peers_get (server w) sid) as [[ref p]|] eqn:Hpeer; [|done].
    intros [= <-]. apply peers_get_Some in Hpeer as [Href Hp].
    destruct (Howned sid ref Href) as (q & Hq & Hsock). congruence.
  - intros A B ref HA HB.
    destruct (Howned A ref HA) as (p & Hp & <-).
    destruct (Howned B ref HB) as (q & Hq & <-). congruence.
  - intros A B cmd w' es Hne. simpl. unfold run_socket, exec.
    destruct (handle cmd {| this := server w; socket := socket_of w A |})
      as [[c' es'] r] eqn:Hrun.
    intros [= <- <-]. simpl. rewrite lookup_insert_ne by done.
    destruct (request_keeps_other_peers cmd (server w) (socket_of w A) B c' es' r
                Howned Hrefs) as [Hpeers Hget]; [|done|].
    { unfold socket_of. by destruct (sockets w !! A). }
    unfold peer_of. by rewrite Hpeers, Hget.
Qed.

Lemma sockets_are_isolated_witness :
  peer_of (server (step world_room_removed
                     (on_socket "s1" (join_room "lobby" "peer1" (Some router1)))).1)
    "s2"
  = peer_of (server world_room_removed) "s2".
Proof.
  exact (proj1 (proj2 (proj2 (proj2 (sockets_are_isolated [] world_room_removed
                                       (ex_intro _ _ eq_refl)))
           "s1" "s2" (join_room "lobby" "peer1" (Some router1)) _ _
           ltac:(discriminate) (surjective_pairing _)))).
Defined.

(** ** The callbacks of the bridge never reject *)

Lemma returns_ret {S A} (a : A) : returns (ret (S:=S) a).
Proof. intros s. by exists a. Qed.

Lemma returns_gets {S A} (f : S → A) : returns (gets f).
Proof. intros s. by eexists. Qed.

Lemma returns_modify {S} (f : S → S) : returns (modify f).
Proof. intros s. by eexists. Qed.

Lemma returns_effect {S} (e : Effect) : returns (effect (S:=S) e).
Proof. intros s. by eexists. Qed.

Lemma returns_effects {S} (es : list Effect) : returns (effects (S:=S) es).
Proof. intros s. by eexists. Qed.

Lemma returns_bind {S A B} (m : Js S A) (k : A → Js S B) :
  returns m → (∀ a, returns (k a)) → returns (bind m k).
Proof.
  intros Hm Hk s. unfold bind. destruct (Hm s) as [a Ha].
  destruct (m s) as [[s1 e1] r]. simpl in Ha. subst r.
  destruct (Hk a s1) as [b Hb]. destruct (k a s1) as [[s2 e2] r]. by exists b.
Qed.

Lemma returns_when {S} (b : bool) (m : Js S unit) : returns m → returns (when b m).
Proof. intros Hm. destruct b; [done|apply returns_ret]. Qed.

(** A [try] block whose [catch] block returns *)
Lemma returns_try_catch {S A} (body : Js S A) (handler : Exn → Js S A) :
  (∀ x, returns (handler x)) → returns (try_catch body handler).
Proof.
  intros Hh s. unfold try_catch. destruct (body s) as [[s1 e1] [x|a]].
  - destruct (Hh x s1) as [b Hb]. destruct (handler x s1) as [[s2 e2] r].
    by exists b.
  - by exists a.
Qed.

Ltac returns_step :=
  lazymatch goal with
  | |- returns (bind _ _) => apply returns_bind; [|intros ?]
  | |- returns (try_catch _ _) => apply returns_try_catch; intros ?
  | |- returns (ret _) => apply returns_ret
  | |- returns (gets _) => apply returns_gets
  | |- returns (modify _) => apply returns_modify
  | |- returns (effect _) => apply returns_effect
  | |- returns (effects _) => apply returns_effects
  | |- returns (when _ _) => apply returns_when
  | |- returns (state_of _) => apply returns_gets
  | |- returns (update_state _ _) => apply returns_modify
  | |- returns (if ?b then _ else _) => destruct b
  | |- returns (match ?o with _ => _ end) => destruct o
  end.

Lemma clearInterval_returns (h : option nat) : returns (clearInterval h).
Proof. unfold clearInterval. repeat returns_step. Qed.

Lemma setInterval_returns (cameraId rtspUrl : string) :
  returns (setInterval cameraId rtspUrl).
Proof. unfold setInterval. repeat returns_step. Qed.

Lemma arm_retry_returns (cameraId rtspUrl : string) :
  returns (arm_retry cameraId rtspUrl).
Proof.
  unfold arm_retry.
  repeat first [apply clearInterval_returns | apply setInterval_returns
               | returns_step].
Qed.

Lemma attempt_returns (rtspUrl cameraId : string) (a : StreamAnswers) :
  returns (startRTSPStream rtspUrl cameraId a).
Proof. unfold startRTSPStream. repeat returns_step. Qed.

Lemma start_streams_returns (urls : list string) (i : nat)
    (answers : nat → StreamAnswers) :
  returns (start_streams i urls answers).
Proof.
  revert i. induction urls as [|url urls IH]; intros i; simpl.
  - apply returns_ret.
  - apply returns_bind; [apply attempt_returns|]. intros _. apply IH.
Qed.

Lemma start_returns (router : Router) (answers : nat → StreamAnswers) :
  returns (start (Some router) answers).
Proof.
  unfold start. apply returns_bind; [apply returns_gets|].
  intros running. destruct running; [apply returns_ret|].
  intros c. unfold try_catch.
  assert (Hbody : returns
    (modify (set_bridge (with_isRunning true)) ;;
     router <- await CreateRouter (Some router) ;;
     modify (set_bridge (with_mainRouter (Some router))) ;;
     urls <- gets (λ c, rtspUrls (bridge c)) ;;
     start_streams 0 (take maxCams urls) answers)).
  { apply returns_bind; [apply returns_modify|]. intros _.
    apply returns_bind; [intros s; by eexists|]. intros r.
    apply returns_bind; [apply returns_modify|]. intros _.
    apply returns_bind; [apply returns_gets|]. intros urls.
    apply start_streams_returns. }
  destruct (Hbody c) as [u Hu].
  destruct ((_ ;; _) c) as [[s1 e1] r]. simpl in Hu. subst r. by exists u.
Qed.

(** X14: the promises of the bridge never reject, whatever the media
    engine, the probe and the spawned process answer: every exception
    thrown in [startRTSPStream], which [start()] and the retry callback
    call without awaiting it, is caught by one of its two handlers,
    which throw nothing themselves; so the callback of the retry
    interval never rejects either, and [start()] returns once its
    router has been created, whichever cameras fail. *)
Theorem bridge_callbacks_never_reject :
  (∀ rtspUrl cameraId a, returns (startRTSPStream rtspUrl cameraId a)) ∧
  (∀ cameraId rtspUrl ok a, returns (retry_tick cameraId rtspUrl ok a)) ∧
  (∀ router answers, returns (start (Some router) answers)).
Proof.
  split; [|split].
  - apply attempt_returns.
  - intros. unfold retry_tick.
    repeat first [apply clearInterval_returns | apply attempt_returns
                 | returns_step].
  - apply start_returns.
Qed.


(** ** The cameras of [start()] *)

Lemma update_state_setup (c0 : BridgeCtx) (cameraId : string)
    (f : CameraState → CameraState) :
  preserves (same_setup c0) (update_state cameraId f).
Proof.
  apply preserves_modify. intros [b l] (Hrun & Hmain & Hurls & Hdom).
  unfold same_setup, set_bridge, with_routers. simpl in *.
  split; [done|split; [done|split; [done|]]].
  destruct (routers b !! cameraId) as [st|] eqn:Hst; [|done].
  rewrite dom_insert_lookup_L; [done|]. by rewrite Hst.
Qed.

Ltac setup_step :=
  lazymatch goal with
  | |- preserves _ (bind _ _) => apply preserves_bind; [|intros ?]
  | |- preserves _ (try_catch _ _) => apply preserves_try_catch; [|intros ?]
  | |- preserves _ (ret _) => apply preserves_ret
  | |- preserves _ (throw _) => apply preserves_throw
  | |- preserves _ (gets _) => apply preserves_gets
  | |- preserves _ (effect _) => apply preserves_effect
  | |- preserves _ (effects _) => apply preserves_effects
  | |- preserves _ (await _ _) => apply preserves_await
  | |- preserves _ (when _ _) => apply preserves_when
  | |- preserves _ (state_of _) => apply preserves_gets
  | |- preserves _ (update_state _ _) => apply update_state_setup
  | |- preserves _ (modify _) =>
      apply preserves_modify; intros [[] ?] ?; assumption
  | |- preserves _ (if ?b then _ else _) => destruct b
  | |- preserves _ (match ?o with _ => _ end) => destruct o
  end.

Lemma arm_retry_setup (c0 : BridgeCtx) (cameraId rtspUrl : string) :
  preserves (same_setup c0) (arm_retry cameraId rtspUrl).
Proof.
  unfold arm_retry, clearInterval, setInterval. repeat setup_step.
Qed.

Lemma ensured_dom (cameraId : string) (c : BridgeCtx) :
  dom (routers (bridge (ensured cameraId c)))
  = {[cameraId]} ∪ dom (routers (bridge c)).
Proof.
  unfold ensured. destruct (routers (bridge c) !! cameraId) as [st|] eqn:Hst.
  - apply elem_of_dom_2 in Hst. symmetry. apply subseteq_union_1_L.
    by apply singleton_subseteq_l.
  - simpl. by rewrite dom_insert_L.
Qed.

(** An attempt makes sure that its camera has an object and changes
    nothing else of the setup. *)
Lemma attempt_setup (rtspUrl cameraId : string) (a : StreamAnswers) (c : BridgeCtx) :
  same_setup (ensured cameraId c) (startRTSPStream rtspUrl cameraId a c).1.1.
Proof.
  assert (H : hoare (λ c', c' = c) (startRTSPStream rtspUrl cameraId a)
                (λ _, same_setup (ensured cameraId c))
                (same_setup (ensured cameraId c))).
  { unfold startRTSPStream.
    apply hoare_try_catch with (E' := same_setup (ensured cameraId c));
      [|intros x; apply preserves_ret].
    eapply hoare_bind; [apply hoare_gets|]. intros known.
    eapply hoare_bind with (R := λ _, same_setup (ensured cameraId c)).
    - intros c' [-> ->]. unfold ensured.
      destruct (routers (bridge c) !! cameraId); by simpl.
    - intros _. apply preserves_intro. unfold startFFmpegProcess.
      repeat first [apply arm_retry_setup | setup_step]. }
  specialize (H c eq_refl).
  by destruct (startRTSPStream rtspUrl cameraId a c) as [[c' es] [x|[]]].
Qed.

Lemma same_setup_trans (c0 c1 c2 : BridgeCtx) :
  same_setup c0 c1 → same_setup c1 c2 → same_setup c0 c2.
Proof.
  intros (? & ? & ? & ?) (? & ? & ? & ?). unfold same_setup.
  split; [congruence|split; [congruence|split; congruence]].
Qed.

Lemma ensured_setup (cameraId : string) (c : BridgeCtx) :
  isRunning (bridge (ensured cameraId c)) = isRunning (bridge c) ∧
  mainRouter (bridge (ensured cameraId c)) = mainRouter (bridge c) ∧
  rtspUrls (bridge (ensured cameraId c)) = rtspUrls (bridge c).
Proof. unfold ensured. by destruct (routers (bridge c) !! cameraId). Qed.

Lemma start_streams_setup (urls : list string) (i : nat)
    (answers : nat → StreamAnswers) (c : BridgeCtx) :
  let c' := (start_streams i urls answers c).1.1 in
  isRunning (bridge c') = isRunning (bridge c) ∧
  mainRouter (bridge c') = mainRouter (bridge c) ∧
  rtspUrls (bridge c') = rtspUrls (bridge c) ∧
  dom (routers (bridge c'))
  = list_to_set (cameraId_of <$> seq i (length urls)) ∪ dom (routers (bridge c)).
Proof.
  revert i c. induction urls as [|url urls IH]; intros i c; simpl.
  - split; [done|split; [done|split; [done|]]]. by rewrite (left_id_L ∅ (∪)).
  - unfold bind.
    pose proof (attempt_setup (Str.trim url) (cameraId_of i) (answers i) c)
      as (Hrun & Hmain & Hurls & Hdom).
    destruct (attempt_returns (Str.trim url) (cameraId_of i) (answers i) c)
      as [[] Hret].
    destruct (startRTSPStream _ _ _ c) as [[c1 e1] r]. simpl in *. subst r.
    specialize (IH (S i) c1). simpl in IH.
    destruct (start_streams (S i) urls answers c1) as [[c2 e2] r]. simpl in *.
    destruct IH as (Hrun' & Hmain' & Hurls' & Hdom').
    destruct (ensured_setup (cameraId_of i) c) as (Hrun0 & Hmain0 & Hurls0).
    rewrite Hrun', Hmain', Hurls', Hdom', Hrun, Hmain, Hurls, Hdom.
    rewrite ensured_dom, Hrun0, Hmain0, Hurls0.
    split; [done|split; [done|split; [done|]]].
    rewrite (assoc_L (∪)). f_equal. apply (comm_L (∪)).
Qed.

(** ** Camera ids *)

Lemma to_uint_norm (n : N) : Decimal.unorm (N.to_uint n) = N.to_uint n.
Proof.
  rewrite <- (DecimalN.Unsigned.of_to n) at 2.
  by rewrite DecimalN.Unsigned.to_of.
Qed.

Lemma to_uint_no_leading_zero (n : N) (d : Decimal.uint) :
  N.to_uint n = Decimal.D0 d → d = Decimal.Nil.
Proof.
  intros Hn. pose proof (to_uint_norm n) as Hnorm. rewrite Hn in Hnorm.
  rewrite DecimalFacts.unorm_D0 in Hnorm.
  assert (d = Decimal.Nil ∨ d ≠ Decimal.Nil) as [|Hne]
    by (destruct d; [by left|by right..]); [done|].
  pose proof (DecimalFacts.nb_digits_unorm d Hne) as Hle.
  rewrite Hnorm in Hle. simpl in Hle. lia.
Qed.

Lemma toString_inj (n m : N) : Str.toString n = Str.toString m → n = m.
Proof.
  unfold Str.toString. intros Heq.
  apply DecimalN.Unsigned.to_uint_inj.
  assert (Hn : N.to_uint n ≠ Decimal.Nil).
  { destruct n; [done|]. apply DecimalPos.Unsigned.to_uint_nonnil. }
  assert (Hm : N.to_uint m ≠ Decimal.Nil).
  { destruct m; [done|]. apply DecimalPos.Unsigned.to_uint_nonnil. }
  pose proof (NilZero.usu _ Hn) as H1. pose proof (NilZero.usu _ Hm) as H2.
  rewrite Heq in H1. congruence.
Qed.

(** The decimal notation of a positive number does not begin with 0. *)
Lemma toString_first (n : N) (s : string) :
  (0 < n)%N → Str.toString n ≠ String "0" s.
Proof.
  intros Hpos Heq. unfold Str.toString in Heq.
  destruct (N.to_uint n) as [|d|d|d|d|d|d|d|d|d|d] eqn:Hn; try discriminate.
  - destruct n; [done|]. by apply DecimalPos.Unsigned.to_uint_nonnil in Hn.
  - pose proof Hn as ->%to_uint_no_leading_zero.
    apply (DecimalN.Unsigned.to_uint_inj n 0) in Hn. lia.
Qed.

Lemma padStart_2 (s : string) :
  Str.padStart 2 "0" s
  = match s with
    | EmptyString => "00"
    | String c EmptyString => String "0" s
    | _ => s
    end.
Proof. by destruct s as [|c [|c' s]]. Qed.

Lemma cameraId_of_inj (i j : nat) : cameraId_of i = cameraId_of j → i = j.
Proof.
  unfold cameraId_of. intros Heq%append_inj_r.
  assert (Hi : (0 < N.of_nat (i + 1))%N) by lia.
  assert (Hj : (0 < N.of_nat (j + 1))%N) by lia.
  pose proof (toString_first _ "" Hi) as Hi0.
  pose proof (toString_first _ "" Hj) as Hj0.
  pose proof (proj2 (toString_uint (N.of_nat (i + 1)))) as Hie.
  pose proof (proj2 (toString_uint (N.of_nat (j + 1)))) as Hje.
  assert (Str.toString (N.of_nat (i + 1)) = Str.toString (N.of_nat (j + 1)))
    as Hs; [|apply toString_inj in Hs; lia].
  rewrite !padStart_2 in Heq.
  destruct (Str.toString (N.of_nat (i + 1))) as [|a [|a' s]] eqn:Hsi; [done|..];
    destruct (Str.toString (N.of_nat (j + 1))) as [|b [|b' t]] eqn:Hsj;
    try done.
  - by injection Heq as ->.
  - injection Heq as <- <- <-. exfalso. by apply (toString_first _ _ Hj Hsj).
  - injection Heq as -> -> ->. exfalso. by apply (toString_first _ _ Hi Hsi).
Qed.

(** X16: the camera id that [start()] gives to the URL at position
    [i] is ["cam"] followed by the decimal notation of [i + 1], padded
    with a zero to two digits: ["cam01"] to ["cam09"], then ["cam10"]
    and so on.  Different positions have different ids, so no two
    cameras share their object in [this.routers], their keys in
    [this.producers] or their process. *)
Theorem camera_ids_are_distinct (i j : nat) :
  (cameraId_of i = cameraId_of j → i = j) ∧
  (i < 9 → ∃ d, cameraId_of i = String "c" (String "a" (String "m"
                   (String "0" (String d EmptyString)))) ∧
                Str.digit_value d = Some (N.of_nat (i + 1))) ∧
  (cameraId_of i +:+ "_video" ≠ cameraId_of j +:+ "_audio") ∧
  (i ≠ j → cameraId_of i +:+ "_video" ≠ cameraId_of j +:+ "_video" ∧
           cameraId_of i +:+ "_audio" ≠ cameraId_of j +:+ "_audio").
Proof.
  split; [apply cameraId_of_inj|]. split; [|split].
  - intros Hi. do 9 (destruct i as [|i]; [eexists; split; reflexivity|]). lia.
  - apply video_key_ne_audio.
  - intros Hne. split.
    + intros Heq%video_key_inj. by apply Hne, cameraId_of_inj.
    + intros Heq%audio_key_inj. by apply Hne, cameraId_of_inj.
Qed.

Lemma camera_ids_are_distinct_witness :
  cameraId_of 0 +:+ "_video" ≠ cameraId_of 1 +:+ "_video" ∧
  cameraId_of 0 +:+ "_audio" ≠ cameraId_of 1 +:+ "_audio".
Proof.
  apply (proj2 (proj2 (proj2 (camera_ids_are_distinct 0 1)))). discriminate.
Defined.

Lemma cameraIds_NoDup (n : nat) : NoDup (cameraIds n).
Proof.
  unfold cameraIds. apply NoDup_fmap_2; [|apply NoDup_seq].
  intros i j. apply cameraId_of_inj.
Qed.

(** X15: [start()] does nothing while the bridge runs.  When the
    router of the bridge cannot be created it rejects with the running
    flag cleared again, and leaves nothing behind: no camera object, no
    process, no timer, no call besides the one that failed.  When the
    router is created, [start()] returns with the flag set and the
    router stored, and it has started an attempt for the first six
    configured URLs at most, and for no other: the cameras that have an
    object afterwards are those that had one before and ["cam01"] up to
    the number of these URLs; a bridge that starts without camera
    objects has exactly [min 6 n] of them afterwards. *)
Theorem start_outcomes (c : BridgeCtx) (answers : nat → StreamAnswers) :
  (isRunning (bridge c) = true →
   ∀ createRouter, start createRouter answers c = (c, [], inr tt)) ∧
  (isRunning (bridge c) = false →
   start None answers c = (c, [CreateRouter], inl Rejected)) ∧
  (isRunning (bridge c) = false →
   ∀ router c' es,
     exec (start (Some router) answers) c = (c', es) →
     let n := min maxCams (length (rtspUrls (bridge c))) in
     isRunning (bridge c') = true ∧
     mainRouter (bridge c') = Some router ∧
     rtspUrls (bridge c') = rtspUrls (bridge c) ∧
     dom (routers (bridge c'))
     = list_to_set (cameraIds n) ∪ dom (routers (bridge c)) ∧
     (routers (bridge c) = ∅ → size (routers (bridge c')) = n)).
Proof.
  destruct c as [[procs rs prods urls running main] l]. simpl.
  split; [|split]; intros ->; [done..|].
  intros router c' es. unfold start, exec. js_unfold.
  unfold set_bridge, with_mainRouter, with_isRunning. simpl.
  set (c0 := {| bridge := {| ffmpegProcesses := procs; routers := rs;
                             bridge_producers := prods; rtspUrls := urls;
                             isRunning := true; mainRouter := Some router |};
                loop := l |}).
  pose proof (start_streams_setup (take maxCams urls) 0 answers c0)
    as (Hrun & Hmain & Hurls & Hdom).
  destruct (start_streams_returns (take maxCams urls) 0 answers c0) as [[] Hret].
  destruct (start_streams 0 (take maxCams urls) answers c0) as [[c1 e1] r].
  simpl in *. subst r. intros [= <- <-].
  rewrite length_take in Hdom. fold (cameraIds (maxCams `min` length urls)) in Hdom.
  split; [done|split; [done|split; [done|split; [done|]]]].
  intros ->. rewrite <- size_dom, Hdom, dom_empty_L, (right_id_L ∅ (∪)).
  rewrite size_list_to_set by apply cameraIds_NoDup.
  unfold cameraIds. by rewrite length_fmap, length_seq.
Qed.

Lemma start_outcomes_witness :
  size (routers (bridge
          (exec (start (Some router1) (λ _, answers_no_signal))
             {| bridge := new_bridge (replicate 8 "rtsp://10.0.0.1/a");
                loop := {| intervals := []; next_timer := 0 |} |}).1))
  = min maxCams
      (length (rtspUrls (bridge
         {| bridge := new_bridge (replicate 8 "rtsp://10.0.0.1/a");
            loop := {| intervals := []; next_timer := 0 |} |}))).
Proof.
  exact (proj2 (proj2 (proj2 (proj2
           (proj2 (proj2 (start_outcomes
                            {| bridge := new_bridge (replicate 8 "rtsp://10.0.0.1/a");
                               loop := {| intervals := []; next_timer := 0 |} |}
                            (λ _, answers_no_signal)))
              eq_refl router1 _ _ (surjective_pairing _))))) eq_refl).
Defined.

(** ** The paths of an attempt *)

Lemma ensured_lookup (cameraId : string) (c : BridgeCtx) :
  routers (bridge (ensured cameraId c)) !! cameraId
  = Some (default empty_state (routers (bridge c) !! cameraId)).
Proof.
  unfold ensured. destruct (routers (bridge c) !! cameraId) as [st|] eqn:Hst.
  - by rewrite Hst.
  - simpl. by rewrite lookup_insert_eq.
Qed.

Lemma ensured_tracked (cameraId : string) (c : BridgeCtx) :
  timers_tracked c → timers_tracked (ensured cameraId c).
Proof.
  intros Hc.
  pose proof (ensure_state_tracked cameraId (routers (bridge c) !! cameraId) c
                (conj Hc eq_refl)) as H.
  unfold ensured. destruct (routers (bridge c) !! cameraId); [done|].
  by destruct H.
Qed.

Lemma ensured_producers_tracked (cameraId : string) (c : BridgeCtx) :
  producers_tracked c → producers_tracked (ensured cameraId c).
Proof.
  intros Hc.
  pose proof (ensure_state_producers_tracked cameraId
                (routers (bridge c) !! cameraId) c (conj Hc eq_refl)) as H.
  unfold ensured. destruct (routers (bridge c) !! cameraId); [done|].
  by destruct H.
Qed.

Lemma attempt_no_signal_spec (rtspUrl cameraId : string) (a : StreamAnswers)
    (c : BridgeCtx) :
  available a = false →
  let st := default empty_state (routers (bridge c) !! cameraId) in
  startRTSPStream rtspUrl cameraId a c
  = (rearmed cameraId rtspUrl st (ensured cameraId c),
     rearm_effects cameraId rtspUrl st (ensured cameraId c), inr tt).
Proof.
  intros Hav st. unfold startRTSPStream. rewrite Hav. simpl.
  unfold try_catch, bind at 1, bind at 1, gets.
  pose proof (arm_retry_spec cameraId rtspUrl st (ensured cameraId c)
                (ensured_lookup cameraId c)) as Harm.
  unfold ensured in *.
  destruct (routers (bridge c) !! cameraId) as [st0|] eqn:Hst; simpl.
  - by rewrite Harm.
  - unfold modify. by rewrite Harm.
Qed.

(** The armed intervals after [arm_retry]: the camera has the new one
    only, the other cameras keep theirs. *)
Lemma rearmed_timers (cameraId rtspUrl : string) (st : CameraState) (c : BridgeCtx) :
  timers_tracked c →
  retryTimer st = retryTimer (default empty_state (routers (bridge c) !! cameraId)) →
  timers_of cameraId (loop (rearmed cameraId rtspUrl st c))
  = [{| timer_id := next_timer (loop c); timer_cameraId := cameraId;
        timer_rtspUrl := rtspUrl |}] ∧
  (∀ x, timer_cameraId x ≠ cameraId →
        x ∈ intervals (loop (rearmed cameraId rtspUrl st c)) ↔ x ∈ intervals (loop c)).
Proof.
  intros Htracked Hst.
  assert (Hcam : ∀ x, x ∈ intervals (loop c) → timer_cameraId x = cameraId →
                      retryTimer st = Some (timer_id x)).
  { intros x Hx Heq. rewrite Hst. by apply tracked_camera_timers. }
  split.
  - unfold timers_of, rearmed. simpl. rewrite filter_app.
    rewrite filter_cons_True by done. rewrite filter_nil.
    replace (filter _ (cleared _ _)) with (@nil RetryTimer); [done|].
    symmetry. apply filter_none.
    intros x [Hx Hne]%cleared_subseteq Hc. by rewrite (Hcam x Hx Hc) in Hne.
  - intros x Hc. unfold rearmed. simpl. rewrite elem_of_app, list_elem_of_singleton.
    split.
    + intros [[Hx _]%cleared_subseteq| ->]; [done|]. by simpl in Hc.
    + intros Hx. left. apply cleared_keeps; [done|]. rewrite Hst.
      by apply tracked_foreign_timer.
Qed.

Lemma run_bridge_eq (m : Js BridgeCtx unit) (w w' : World) (es : list Effect)
    (c' : BridgeCtx) (es' : list Effect) (r : Exn + unit) :
  m (bridge_ctx w) = (c', es', r) →
  run_bridge m w = (w', es) →
  rtspBridge (server w') = bridge c' ∧ timers w' = loop c' ∧ es = es' ∧
  rooms (server w') = rooms (server w) ∧ peers (server w') = peers (server w) ∧
  sockets w' = sockets w.
Proof.
  unfold run_bridge, exec. fold (bridge_ctx w). intros ->. by intros [= <- <-].
Qed.

(** X17: an attempt that finds no stream (the probe answers false)
    creates no transport and starts no process: it only makes sure that
    the camera has its object, clears the retry interval the camera
    may have and arms a new one.  In every state the process reaches,
    the camera has exactly that one interval afterwards, the intervals
    of the other cameras are as before, and the processes and the
    producers of the bridge are untouched. *)
Theorem attempt_without_signal_arms_retry (urls : list string) (w w' : World)
    (rtspUrl cameraId : string) (a : StreamAnswers) (es : list Effect) :
  reachable urls w →
  available a = false →
  run_bridge (startRTSPStream rtspUrl cameraId a) w = (w', es) →
  let st := camera_state w cameraId in
  let new := next_interval w cameraId rtspUrl in
  es = close_if ClearInterval (retryTimer st) ++
       [SetInterval (timer_id new) cameraId rtspUrl] ∧
  timers_of cameraId (timers w') = [new] ∧
  (∀ x, timer_cameraId x ≠ cameraId →
        x ∈ intervals (timers w') ↔ x ∈ intervals (timers w)) ∧
  routers (rtspBridge (server w')) !! cameraId
  = Some (with_retryTimer (Some (timer_id new)) st) ∧
  ffmpegProcesses (rtspBridge (server w')) = ffmpegProcesses (rtspBridge (server w)) ∧
  bridge_producers (rtspBridge (server w'))
  = bridge_producers (rtspBridge (server w)).
Proof.
  intros Hreach Hav Hrun st new.
  pose proof (reachable_tracked urls w Hreach) as Htracked.
  destruct (run_bridge_eq _ _ _ _ _ _ _
              (attempt_no_signal_spec rtspUrl cameraId a (bridge_ctx w) Hav) Hrun)
    as (-> & -> & -> & _).
  fold (camera_state w cameraId). fold st.
  assert (Hnext : next_timer (loop (ensured cameraId (bridge_ctx w)))
                  = next_timer (timers w)).
  { unfold ensured. by destruct (routers _ !! cameraId). }
  assert (Hint : intervals (loop (ensured cameraId (bridge_ctx w)))
                 = intervals (timers w)).
  { unfold ensured. by destruct (routers _ !! cameraId). }
  destruct (rearmed_timers cameraId rtspUrl st (ensured cameraId (bridge_ctx w))
              (ensured_tracked _ _ Htracked)) as [Hone Hothers].
  { by rewrite ensured_lookup. }
  rewrite Hnext in Hone. rewrite Hint in Hothers.
  split; [|split; [done|split; [done|split; [|split]]]].
  - unfold rearm_effects, close_if. by rewrite Hnext.
  - unfold rearmed. simpl. by rewrite lookup_insert_eq, Hnext.
  - unfold rearmed, ensured. simpl. by destruct (routers _ !! cameraId).
  - unfold rearmed, ensured. simpl. by destruct (routers _ !! cameraId).
Qed.

Lemma attempt_without_signal_witness :
  timers_of "cam01"
    (timers (run_bridge (startRTSPStream "rtsp://10.0.0.1/a" "cam01" answers_no_signal)
               (new_world ["rtsp://10.0.0.1/a"])).1)
  = [next_interval (new_world ["rtsp://10.0.0.1/a"]) "cam01" "rtsp://10.0.0.1/a"].
Proof.
  exact (proj1 (proj2 (attempt_without_signal_arms_retry ["rtsp://10.0.0.1/a"]
                         (new_world ["rtsp://10.0.0.1/a"]) _
                         "rtsp://10.0.0.1/a" "cam01" answers_no_signal _
                         (ex_intro _ [] eq_refl) eq_refl (surjective_pairing _)))).
Defined.





(** X19: an attempt that finds the stream but cannot create one of
    its two transports, or whose ffmpeg process fails to start, stops
    there: the calls made so far are the only ones, no transport is
    closed, no producer is created, and no retry interval is armed or
    cleared (the timers and the [retryTimer] of the camera are as
    before).  In the third case the process is registered and the
    camera object holds the two transports, so that the ['close']
    event of the process is what arms the retry. *)
Theorem attempt_without_transport_is_not_retried (w w' : World)
    (rtspUrl cameraId : string) (a : StreamAnswers) (es : list Effect) :
  available a = true →
  videoTransport_created a = None ∨ audioTransport_created a = None ∨
    started a = false →
  run_bridge (startRTSPStream rtspUrl cameraId a) w = (w', es) →
  let b := rtspBridge (server w) in
  es = CreatePlainTransport (mainRouter b) ::
       match videoTransport_created a with
       | None => []
       | Some videoT =>
           CreatePlainTransport (mainRouter b) ::
           match audioTransport_created a with
           | None => []
           | Some audioT =>
               [SpawnFFmpeg cameraId rtspUrl (transport_localPort videoT)
                  (transport_localPort audioT)]
           end
       end ∧
  timers w' = timers w ∧
  retryTimer (camera_state w' cameraId) = retryTimer (camera_state w cameraId) ∧
  bridge_producers (rtspBridge (server w')) = bridge_producers b ∧
  is_Some (routers (rtspBridge (server w')) !! cameraId) ∧
  match videoTransport_created a, audioTransport_created a with
  | Some videoT, Some audioT =>
      JsMap.get (ffmpegProcesses (rtspBridge (server w'))) cameraId
      = Some (spawned a) ∧
      videoTransport (camera_state w' cameraId) = Some videoT ∧
      audioTransport (camera_state w' cameraId) = Some audioT
  | _, _ =>
      ffmpegProcesses (rtspBridge (server w')) = ffmpegProcesses b ∧
      videoTransport (camera_state w' cameraId)
      = videoTransport (camera_state w cameraId) ∧
      audioTransport (camera_state w' cameraId)
      = audioTransport (camera_state w cameraId)
  end.
Proof.
  intros Hav Hnone. unfold run_bridge, exec, camera_state.
  destruct w as [[rms prs objs [procs rs prods urls running main]] socks l].
  unfold startRTSPStream, startFFmpegProcess, update_state.
  js_unfold. unfold set_bridge, with_routers, with_ffmpegProcesses. simpl.
  rewrite Hav. simpl.
  destruct (rs !! cameraId) as [st|] eqn:Hcam; simpl;
    (destruct (videoTransport_created a) as [videoT|]; simpl;
     [destruct (audioTransport_created a) as [audioT|]; simpl;
      [destruct (started a); simpl;
       [by destruct Hnone as [|[|]]|]|]|]);
    repeat (rewrite ?Hcam, ?lookup_insert_eq, ?insert_insert_eq; simpl);
    intros [= <- <-]; simpl;
    repeat (rewrite ?Hcam, ?lookup_insert_eq, ?insert_insert_eq,
              ?jsmap_get_set_eq; simpl);
    by eauto 10.
Qed.

Lemma attempt_without_transport_witness :
  timers (run_bridge
            (startRTSPStream "rtsp://10.0.0.1/a" "cam01"
               {| available := true;
                  videoTransport_created := Some plain_video;
                  audioTransport_created := None;
                  spawned := ffmpeg1; started := true;
                  videoProducer_created := None;
                  audioProducer_created := None |})
            world_ingesting).1
  = timers world_ingesting.
Proof.
  exact (proj1 (proj2 (attempt_without_transport_is_not_retried world_ingesting _
                         "rtsp://10.0.0.1/a" "cam01"
                         {| available := true;
                            videoTransport_created := Some plain_video;
                            audioTransport_created := None;
                            spawned := ffmpeg1; started := true;
                            videoProducer_created := None;
                            audioProducer_created := None |} _
                         eq_refl (or_intror (or_introl eq_refl))
                         (surjective_pairing _)))).
Defined.

(** ** Retry intervals in every state *)

Lemma NoDup_fmap_const {A B} (f : A → B) (l : list A) (b : B) :
  NoDup (f <$> l) → (∀ x, x ∈ l → f x = b) → length l ≤ 1.
Proof.
  destruct l as [|x [|y l]]; simpl; [lia..|].
  intros Hnd Hall. exfalso. apply NoDup_cons in Hnd as [Hx _]. apply Hx.
  rewrite (Hall x), <- (Hall y); [apply list_elem_of_here|..].
  - apply list_elem_of_further, list_elem_of_here.
  - apply list_elem_of_here.
Qed.

Lemma NoDup_fmap_filter {A B} (f : A → B) (P : A → Prop) `{∀ x, Decision (P x)}
    (l : list A) :
  NoDup (f <$> l) → NoDup (f <$> filter P l).
Proof.
  induction l as [|x l IH]; simpl; [done|].
  rewrite NoDup_cons. intros [Hx Hl]. rewrite filter_cons.
  case_decide; [|by apply IH]. simpl. apply NoDup_cons. split; [|by apply IH].
  intros (y & Hy & Hin)%list_elem_of_fmap. apply Hx. apply list_elem_of_fmap.
  exists y. split; [done|]. by apply list_elem_of_filter in Hin as [_ ?].
Qed.

(** X21: in every state the process reaches, the armed retry
    intervals are exactly those the camera objects refer to: a camera
    has at most one armed interval, and it has one exactly when the
    [retryTimer] of its object holds a handle, which is then the
    handle of that interval; the handles of the armed intervals are
    pairwise distinct.  So no interval is armed twice for a camera and
    none is lost while it is armed. *)
Theorem one_retry_timer_per_camera (urls : list string) (w : World)
    (cameraId : string) :
  reachable urls w →
  timer_id <$> timers_of cameraId (timers w)
  = option_list (retryTimer (camera_state w cameraId)) ∧
  length (timers_of cameraId (timers w)) ≤ 1 ∧
  NoDup (timer_id <$> intervals (timers w)).
Proof.
  intros Hreach.
  pose proof (reachable_tracked urls w Hreach) as Htracked.
  pose proof Htracked as (Hnd & _ & Href & Hback).
  assert (Hcam : ∀ x, x ∈ timers_of cameraId (timers w) →
                      retryTimer (camera_state w cameraId) = Some (timer_id x)).
  { intros x [Hc Hx]%list_elem_of_filter.
    by apply (tracked_camera_timers (bridge_ctx w)). }
  assert (Hnd' : NoDup (timer_id <$> timers_of cameraId (timers w))).
  { by apply NoDup_fmap_filter. }
  split; [|split; [|done]].
  - destruct (retryTimer (camera_state w cameraId)) as [t|] eqn:Ht.
    + assert (Hlen : length (timers_of cameraId (timers w)) ≤ 1).
      { apply (NoDup_fmap_const timer_id _ t); [done|].
        intros x Hx. specialize (Hcam x Hx). congruence. }
      unfold camera_state in Ht.
      destruct (routers (rtspBridge (server w)) !! cameraId) as [st|] eqn:Hst;
        [|done].
      destruct (Hback cameraId st t Hst Ht) as (x & Hx & Hid & Hc).
      assert (Hin : x ∈ timers_of cameraId (timers w)).
      { by apply list_elem_of_filter. }
      destruct (timers_of cameraId (timers w)) as [|y [|z l]]; simpl in *.
      * by apply elem_of_nil in Hin.
      * apply list_elem_of_singleton in Hin as <-. by rewrite Hid.
      * lia.
    + destruct (timers_of cameraId (timers w)) as [|x l]; [done|].
      specialize (Hcam x (list_elem_of_here _ _)). done.
  - destruct (timers_of cameraId (timers w)) as [|x l] eqn:Hl; [simpl; lia|].
    apply (NoDup_fmap_const timer_id _ (timer_id x)); [done|].
    intros y Hy. pose proof (Hcam x (list_elem_of_here _ _)) as Hx.
    specialize (Hcam y Hy). congruence.
Qed.

Lemma one_retry_timer_per_camera_witness :
  timer_id <$> timers_of "cam02" (timers world_ingesting)
  = option_list (retryTimer (camera_state world_ingesting "cam02")).
Proof.
  exact (proj1 (one_retry_timer_per_camera
                  ["rtsp://10.0.0.1/a"; "rtsp://10.0.0.2/b"] world_ingesting "cam02"
                  (ex_intro _ _ eq_refl))).
Defined.

(** X22: when the ffmpeg process of a camera exits while the bridge
    does not run (after [stop()]), the ['close'] handler still
    unregisters the process and closes the producers and the transports
    the camera object holds (this is where the transports of a camera
    are closed after a stop), but it arms no interval and clears none:
    the timers are as before. *)
Theorem exit_after_stop_arms_nothing (w w' : World) (cameraId rtspUrl : string)
    (code : option Z) (es : list Effect) :
  isRunning (rtspBridge (server w)) = false →
  step w (on_ffmpeg_close cameraId rtspUrl code) = (w', es) →
  let st := camera_state w cameraId in
  es = close_if ProducerClose (videoProducer st) ++
       close_if ProducerClose (audioProducer st) ++
       close_if TransportClose (videoTransport st) ++
       close_if TransportClose (audioTransport st) ∧
  timers w' = timers w ∧
  JsMap.get (ffmpegProcesses (rtspBridge (server w'))) cameraId = None ∧
  camera_state w' cameraId = released st ∧
  isRunning (rtspBridge (server w')) = false.
Proof.
  intros Hrun Hstep st.
  destruct (step_ffmpeg_close w cameraId rtspUrl code) as [Hctx Hes].
  rewrite Hstep in Hctx, Hes. simpl in Hctx, Hes.
  assert (Hw' : rtspBridge (server w')
                = bridge (after_close cameraId rtspUrl (bridge_ctx w))
                ∧ timers w' = loop (after_close cameraId rtspUrl (bridge_ctx w))).
  { rewrite <- Hctx. done. }
  destruct Hw' as [Hb Hl]. unfold camera_state in *. rewrite Hb, Hl.
  clear Hb Hl Hctx Hstep.
  unfold after_close, close_effects in *. simpl in *. rewrite Hrun in *.
  split; [|split; [done|split; [|split; [|done]]]].
  - subst es. by rewrite app_nil_r.
  - unfold after_release. simpl. apply jsmap_get_delete_eq.
  - unfold after_release. simpl.
    destruct (routers (rtspBridge (server w)) !! cameraId) as [st0|] eqn:Hst;
      simpl.
    + by rewrite lookup_insert_eq.
    + by rewrite Hst.
Qed.

Lemma exit_after_stop_arms_nothing_witness :
  timers (step (step world_ingesting on_stop).1
            (on_ffmpeg_close "cam01" "rtsp://10.0.0.1/a" None)).1
  = timers (step world_ingesting on_stop).1.
Proof.
  exact (proj1 (proj2 (exit_after_stop_arms_nothing
                         (step world_ingesting on_stop).1 _
                         "cam01" "rtsp://10.0.0.1/a" None _
                         eq_refl (surjective_pairing _)))).
Defined.

(** ** The start of the ffmpeg process *)

Lemma launch_step_settled (process : ChildProcess) (l : Launch) (ev : FFmpegEvent) :
  launch_promise l ≠ pending →
  launch_promise (launch_step process l ev) = launch_promise l.
Proof.
  intros Hl. destruct ev; simpl; try done.
  - destruct (negb (launch_started l) && announces_start d); [|done]. simpl.
    by destruct (launch_promise l).
  - by destruct (launch_promise l).
  - destruct (negb (launch_started l)); [|done]. simpl.
    by destruct (launch_promise l).
Qed.

Lemma launch_settled_stable (process : ChildProcess) (evs : list FFmpegEvent)
    (l : Launch) :
  launch_promise l ≠ pending →
  launch_promise (foldl (launch_step process) l evs) = launch_promise l.
Proof.
  revert l. induction evs as [|ev evs IH]; intros l Hl; simpl; [done|].
  rewrite IH; [by apply launch_step_settled|].
  by rewrite launch_step_settled.
Qed.

Lemma launch_before_settling (process : ChildProcess) (pre : list FFmpegEvent) :
  forallb (λ ev, negb (launch_settles ev)) pre = true →
  foldl (launch_step process) new_launch pre = new_launch.
Proof.
  induction pre as [|ev pre IH] using rev_ind; [done|].
  rewrite forallb_app, foldl_app. simpl.
  intros [Hpre [Hev _]%andb_true_iff]%andb_true_iff. rewrite (IH Hpre).
  destruct ev; simpl in *; try done. by destruct (announces_start d).
Qed.

(** X23: the promise of [startFFmpegProcess] is settled by the first
    of these events: a chunk of the error output of ffmpeg that
    contains ["Stream mapping:"] or ["Press [q] to stop"], the timer of
    5 s, or an ['error'] event of the process.  It is resolved with the
    process in the first two cases and rejected in the third; what
    comes later changes nothing.  Other events do not settle it: not
    the exit of the process, not standard output, and not an
    announcement that is split over two chunks.  Since the timer is
    always armed, every start settles. *)
Theorem ffmpeg_start_settles_once (process : ChildProcess)
    (evs : list FFmpegEvent) :
  (forallb (λ ev, negb (launch_settles ev)) evs = true →
   ffmpeg_started process evs = pending) ∧
  (∀ pre ev post,
     evs = pre ++ ev :: post →
     forallb (λ ev, negb (launch_settles ev)) pre = true →
     launch_settles ev = true →
     ffmpeg_started process evs
     = match ev with
       | ffmpeg_error => rejected
       | _ => resolved process
       end) ∧
  (ffmpeg_timeout ∈ evs → ffmpeg_started process evs ≠ pending).
Proof.
  assert (Hat : ∀ pre ev post,
    forallb (λ ev, negb (launch_settles ev)) pre = true →
    launch_settles ev = true →
    ffmpeg_started process (pre ++ ev :: post)
    = match ev with ffmpeg_error => rejected | _ => resolved process end).
  { intros pre ev post Hpre Hev. unfold ffmpeg_started.
    rewrite foldl_app, (launch_before_settling process pre Hpre). simpl.
    rewrite launch_settled_stable.
    - destruct ev; simpl in *; try done. by rewrite Hev.
    - destruct ev; simpl in *; try done. by rewrite Hev. }
  split; [|split].
  - intros Hpre. unfold ffmpeg_started. by rewrite launch_before_settling.
  - intros pre ev post -> Hpre Hev. by apply Hat.
  - intros Hin.
    assert (∃ pre ev post, evs = pre ++ ev :: post ∧
              forallb (λ ev, negb (launch_settles ev)) pre = true ∧
              launch_settles ev = true) as (pre & ev & post & -> & Hpre & Hev).
    { clear Hat. induction evs as [|e evs IH]; [by apply elem_of_nil in Hin|].
      destruct (launch_settles e) eqn:He; [by exists [], e, evs|].
      apply elem_of_cons in Hin as [<-|Hin]; [done|].
      destruct (IH Hin) as (pre & ev & post & -> & Hpre & Hev).
      exists (e :: pre), ev, post. simpl. by rewrite He. }
    rewrite (Hat pre ev post Hpre Hev). by destruct ev.
Qed.

Lemma ffmpeg_start_settles_once_witness :
  ffmpeg_started ffmpeg1
    [ffmpeg_stderr "Stream map"; ffmpeg_stderr "ping:"; ffmpeg_exit (Some 1%Z)]
  = pending ∧
  ffmpeg_started ffmpeg1
    ([ffmpeg_stderr "Stream map"; ffmpeg_stderr "ping:"; ffmpeg_exit (Some 1%Z)] ++
     ffmpeg_timeout :: [ffmpeg_error])
  = resolved ffmpeg1.
Proof.
  split.
  - exact (proj1 (ffmpeg_start_settles_once ffmpeg1
                    [ffmpeg_stderr "Stream map"; ffmpeg_stderr "ping:";
                     ffmpeg_exit (Some 1%Z)]) eq_refl).
  - exact (proj1 (proj2 (ffmpeg_start_settles_once ffmpeg1 _))
             [ffmpeg_stderr "Stream map"; ffmpeg_stderr "ping:";
              ffmpeg_exit (Some 1%Z)] ffmpeg_timeout [ffmpeg_error]
             eq_refl eq_refl eq_refl).
Defined.

(** ** The media service *)

Lemma parseInt_negative_digits (s : string) :
  all_digits s → s ≠ EmptyString →
  Str.parseInt (String "-" s)
  = from_option (λ n, Str.to_double (- Z.of_N n)) NaN
      (Str.parse_digits Str.digit_value 10 (Some 0%N) s).
Proof.
  unfold all_digits. intros Hs Hne. destruct s as [|c s]; [done|].
  simpl in Hs. apply Forall_cons in Hs as [[d Hd] Hs].
  pose proof (digit_value_code c d Hd) as Hc.
  unfold Str.parseInt. rewrite trimStart_ascii by (by vm_compute).
  change (N_of_ascii "-" =? 45)%N with true. cbv iota beta.
  assert (Hdec : Str.parse_digits Str.digit_value 10 None (String c s)
                 = Str.parse_digits Str.digit_value 10 (Some 0%N) (String c s)).
  { simpl. by rewrite Hd. }
  assert (Hopp : ∀ o : option N,
            match o with
            | Some n => Str.to_double (-1 * Z.of_N n)
            | None => NaN
            end = from_option (λ n, Str.to_double (- Z.of_N n)) NaN o).
  { intros [n|]; simpl; [f_equal; lia|done]. }
  destruct s as [|c1 s]; [rewrite Hdec; apply Hopp|].
  apply Forall_cons in Hs as [[d1 Hd1] Hs].
  pose proof (digit_value_code c1 d1 Hd1) as Hc1.
  replace (N_of_ascii c1 =? 120)%N with false by (symmetry; apply N.eqb_neq; lia).
  replace (N_of_ascii c1 =? 88)%N with false by (symmetry; apply N.eqb_neq; lia).
  rewrite andb_false_r. rewrite Hdec. apply Hopp.
Qed.

Lemma parse_digits_toString (n : N) :
  Str.parse_digits Str.digit_value 10 (Some 0%N) (Str.toString n) = Some n.
Proof.
  destruct (toString_uint n) as [Heq Hne].
  rewrite Heq, parse_digits_zero.
  change (Pos.of_uint (N.to_uint n)) with (N.of_uint (N.to_uint n)).
  by rewrite DecimalN.Unsigned.of_to.
Qed.

Lemma parseInt_toString (n : N) :
  Str.parseInt (Str.toString n) = Str.to_double (Z.of_N n).
Proof. apply (parseInt_padded 0 n). Qed.

(** A double is 0 only if the integer it rounds is 0, and it is never
    NaN. *)
Lemma to_double_truthy (z : Z) :
  z ≠ 0%Z → Str.to_double z ≠ Num 0 ∧ Str.to_double z ≠ NaN.
Proof.
  intros Hz. unfold Str.to_double.
  destruct (Z.abs z <=? 2 ^ 53)%Z eqn:Hsmall; [split; congruence|].
  apply Z.leb_gt in Hsmall.
  set (e := (Z.log2 (Z.abs z) - 52)%Z).
  set (q := Z.shiftr (Z.abs z) e).
  set (q' := if (_ || _)%bool then (q + 1)%Z else q).
  destruct (2 ^ 1024 <=? Z.shiftl q' e)%Z; [done|]. split; [|done].
  assert (Hlog : (53 ≤ Z.log2 (Z.abs z))%Z).
  { apply Z.log2_le_pow2; lia. }
  assert (He : (0 ≤ e)%Z) by (unfold e; lia).
  assert (Hq : (0 < q)%Z).
  { unfold q. rewrite Z.shiftr_div_pow2 by done.
    apply Z.div_str_pos. split; [apply Z.pow_pos_nonneg; lia|].
    transitivity (2 ^ Z.log2 (Z.abs z))%Z.
    - apply Z.pow_le_mono_r; unfold e; lia.
    - apply Z.log2_spec. lia. }
  assert (Hq' : (0 < q')%Z) by (unfold q'; case_match; lia).
  assert (Hv : (0 < Z.shiftl q' e)%Z).
  { rewrite Z.shiftl_mul_pow2 by done.
    apply Z.mul_pos_pos; [done|apply Z.pow_pos_nonneg; lia]. }
  intros [= H0]. apply Z.eq_mul_0 in H0 as [H0|H0]; [|lia].
  by apply (proj1 (Z.sgn_null_iff z)) in H0.
Qed.

(** X27: the port range of the worker is read from the environment
    with [parseInt(...) || fallback]: an unset variable, a value that
    does not begin with a number, and the number 0 all give the
    fallback (10000 and 10100), so that a port setting is never 0 and
    never NaN.  The decimal notation of a positive integer gives the
    double nearest to it, which is the integer itself up to 2^53 and
    may be another integer, or infinite, above.  Nothing checks that
    the number is a port: a negative number is taken as it is. *)
Theorem port_setting_falls_back (env : option string) (fallback : Z) :
  (fallback ≠ 0%Z → port_setting env fallback ≠ Num 0) ∧
  port_setting env fallback ≠ NaN ∧
  (env = None → port_setting env fallback = Num fallback) ∧
  (∀ s, env = Some s → Str.parseInt s = NaN ∨ Str.parseInt s = Num 0 →
        port_setting env fallback = Num fallback) ∧
  (∀ n, (0 < n)%N → env = Some (Str.toString n) →
        port_setting env fallback = Str.to_double (Z.of_N n) ∧
        ((Z.of_N n ≤ 2 ^ 53)%Z → port_setting env fallback = Num (Z.of_N n))) ∧
  (∀ n, (0 < n)%N → env = Some (String "-" (Str.toString n)) →
        port_setting env fallback = Str.to_double (- Z.of_N n) ∧
        ((Z.of_N n ≤ 2 ^ 53)%Z → port_setting env fallback = Num (- Z.of_N n))).
Proof.
  assert (Htruthy : ∀ z, z ≠ 0%Z →
            match Str.to_double z with
            | NaN | Num 0 => Num fallback
            | x => x
            end = Str.to_double z).
  { intros z Hz. destruct (to_double_truthy z Hz) as [H0 Hnan].
    by destruct (Str.to_double z) as [|[| |]|]. }
  split; [|split; [|split; [|split; [|split]]]].
  - intros Hf. unfold port_setting.
    destruct (Str.parseInt (default "undefined" env)) as [|[|p|p]|]; congruence.
  - unfold port_setting.
    by destruct (Str.parseInt (default "undefined" env)) as [|[|p|p]|].
  - by intros ->.
  - intros s -> [Hs|Hs]; unfold port_setting; simpl; by rewrite Hs.
  - intros n Hn ->. unfold port_setting. cbn [from_option id].
    rewrite parseInt_toString, Htruthy by lia.
    split; [done|]. intros Hsmall. apply to_double_exact. lia.
  - intros n Hn ->. unfold port_setting. cbn [from_option id].
    destruct (toString_uint n) as [Heq Hne].
    rewrite parseInt_negative_digits; [|rewrite Heq; apply all_digits_uint|done].
    rewrite parse_digits_toString. cbn [from_option].
    rewrite Htruthy by lia. split; [done|]. intros Hsmall.
    apply to_double_exact. lia.
Qed.

Lemma port_setting_witness :
  port_setting (Some "0") 10000 = Num 10000 ∧
  port_setting (Some "rtp") 10000 = Num 10000 ∧
  port_setting (Some (Str.toString 40000)) 10000 = Num 40000 ∧
  port_setting (Some (Str.toString 9007199254740993)) 10000
  = Str.to_double 9007199254740993 ∧
  port_setting (Some (String "-" (Str.toString 1))) 10000 = Num (-1).
Proof.
  split; [|split; [|split; [|split]]].
  - exact (proj1 (proj2 (proj2 (proj2 (port_setting_falls_back (Some "0") 10000))))
             "0" eq_refl (or_intror eq_refl)).
  - exact (proj1 (proj2 (proj2 (proj2 (port_setting_falls_back (Some "rtp") 10000))))
             "rtp" eq_refl (or_introl eq_refl)).
  - apply (proj1 (proj2 (proj2 (proj2 (proj2
             (port_setting_falls_back (Some (Str.toString 40000)) 10000)))))
             40000%N eq_refl eq_refl). by vm_compute.
  - apply (proj1 (proj2 (proj2 (proj2 (proj2
             (port_setting_falls_back (Some (Str.toString 9007199254740993)) 10000)))))
             9007199254740993%N eq_refl eq_refl).
  - apply (proj2 (proj2 (proj2 (proj2 (proj2
             (port_setting_falls_back (Some (String "-" (Str.toString 1))) 10000)))))
             1%N eq_refl eq_refl). by vm_compute.
Defined.

(** The double nearest to 2^53 + 1 is 2^53. *)
Example port_setting_rounds :
  port_setting (Some "9007199254740993") 10000 = Num 9007199254740992.
Proof. reflexivity. Qed.

(** X28: no method of the media service assigns [this.router], which
    the constructor sets to null.  Whatever calls the service has
    served, [getRouterCapabilities()] therefore throws "Router not
    initialized", and [GET /router-capabilities] answers with status
    500.  A router is created through the worker: before [init()] has
    created it, [createRouter()] throws without calling the engine. *)
Theorem router_capabilities_route_always_fails (minPort maxPort : option string)
    (calls : list ServiceCall) :
  let m := foldl service_step (new_service minPort maxPort) calls in
  service_router m = None ∧
  getRouterCapabilities m = (m, [], inl (Error "Router not initialized")) ∧
  capabilities_route m = error_json 500 "Internal server error" ∧
  (worker m = None →
   ∀ created, service_createRouter created m = (m, [], inl TypeError)) ∧
  (∀ w, worker m = Some w →
     ∀ created, (service_createRouter created m).1.2 = [WorkerCreateRouter w]).
Proof.
  intros m.
  assert (Hrouter : service_router m = None).
  { subst m.
    assert (Hgen : ∀ m0, service_router m0 = None →
                         service_router (foldl service_step m0 calls) = None);
      [|by apply Hgen].
    induction calls as [|call calls IH]; intros m0 Hm0; simpl; [done|].
    apply IH. destruct call; simpl; try done.
    - by destruct created.
    - unfold service_createRouter. by destruct (worker m0).
    - unfold service_createPlainTransport. by destruct router.
    - unfold getRouterCapabilities. by rewrite Hm0. }
  split; [done|]. split; [|split; [|split]].
  - unfold getRouterCapabilities. by rewrite Hrouter.
  - unfold capabilities_route, getRouterCapabilities. by rewrite Hrouter.
  - intros Hw created. unfold service_createRouter. by rewrite Hw.
  - intros w Hw created. unfold service_createRouter. by rewrite Hw.
Qed.

Lemma router_capabilities_route_witness :
  service_createRouter (Some router0) (foldl service_step (new_service None None) [])
  = (foldl service_step (new_service None None) [], [], inl TypeError).
Proof.
  exact (proj1 (proj2 (proj2 (proj2
           (router_capabilities_route_always_fails None None []))))
           eq_refl (Some router0)).
Defined.

(** ** The bridge with its awaits: what every turn keeps *)

Lemma preserves_and {S A} (I J : S → Prop) (m : Js S A) :
  preserves I m → preserves J m → preserves (λ s, I s ∧ J s) m.
Proof.
  intros HI HJ s [Hi Hj]. specialize (HI s Hi). specialize (HJ s Hj).
  by destruct (m s) as [[s' es] [x|a]].
Qed.

Lemma preserves_answered {S A} (I : S → Prop) (answer : option A) :
  preserves I (answered answer).
Proof. destruct answer; [apply preserves_ret|apply preserves_throw]. Qed.

(** *** The camera objects are never removed *)

Lemma has_camera_set_bridge (cam : string) (f : RTSPBridge → RTSPBridge) :
  (∀ b, is_Some (routers b !! cam) → is_Some (routers (f b) !! cam)) →
  preserves (has_camera cam) (modify (set_bridge f)).
Proof. intros Hf. apply preserves_modify. intros [b l]. apply Hf. Qed.

Lemma has_camera_update_state (cam cameraId : string) (f : CameraState → CameraState) :
  preserves (has_camera cam) (update_state cameraId f).
Proof.
  apply has_camera_set_bridge. intros b Hcam. simpl.
  destruct (routers b !! cameraId) eqn:Hst; [|done].
  destruct (decide (cameraId = cam)) as [->|Hne].
  - rewrite lookup_insert_eq. by eexists.
  - by rewrite lookup_insert_ne.
Qed.

Lemma has_camera_loop {A} (cam : string) (m : Js BridgeCtx A) :
  (∀ c, bridge (m c).1.1 = bridge c) → preserves (has_camera cam) m.
Proof.
  intros Hm c Hc. specialize (Hm c). unfold has_camera in *.
  destruct (m c) as [[c' es] [x|a]]; simpl in Hm; by rewrite Hm.
Qed.

Lemma has_camera_clearInterval (cam : string) (h : option nat) :
  preserves (has_camera cam) (clearInterval h).
Proof. apply has_camera_loop. intros c. by destruct h. Qed.

Lemma has_camera_setInterval (cam cameraId url : string) :
  preserves (has_camera cam) (setInterval cameraId url).
Proof. by apply has_camera_loop. Qed.

Lemma has_camera_ensure (cam cameraId : string) :
  preserves (has_camera cam)
    (modify (set_bridge (with_routers <[cameraId := empty_state]>))).
Proof.
  apply has_camera_set_bridge. intros b Hcam. simpl.
  destruct (decide (cameraId = cam)) as [->|Hne].
  - rewrite lookup_insert_eq. by eexists.
  - by rewrite lookup_insert_ne.
Qed.

Ltac camera_step :=
  lazymatch goal with
  | |- preserves _ (bind _ _) => apply preserves_bind; [|intros ?]
  | |- preserves _ (try_catch _ _) => apply preserves_try_catch; [|intros ?]
  | |- preserves _ (ret _) => apply preserves_ret
  | |- preserves _ (throw _) => apply preserves_throw
  | |- preserves _ (gets _) => apply preserves_gets
  | |- preserves _ (effect _) => apply preserves_effect
  | |- preserves _ (effects _) => apply preserves_effects
  | |- preserves _ (await _ _) => apply preserves_await
  | |- preserves _ (answered _) => apply preserves_answered
  | |- preserves _ (when _ _) => apply preserves_when
  | |- preserves _ (clearInterval _) => apply has_camera_clearInterval
  | |- preserves _ (setInterval _ _) => apply has_camera_setInterval
  | |- preserves _ (update_state _ _) => apply has_camera_update_state
  | |- preserves _ (modify (set_bridge (with_routers (insert _ _)))) =>
      apply has_camera_ensure
  | |- preserves _ (modify (set_bridge _)) =>
      apply has_camera_set_bridge; intros []; simpl; done
  | |- preserves _ (if ?b then _ else _) => destruct b
  | |- preserves _ (match ?o with _ => _ end) => destruct o
  end.

Lemma has_camera_arm_retry (cam cameraId rtspUrl : string) :
  preserves (has_camera cam) (arm_retry cameraId rtspUrl).
Proof. unfold arm_retry, state_of. repeat camera_step. Qed.

Lemma has_camera_producers_failed (cam rtspUrl cameraId : string)
    (videoT audioT : Transport) :
  preserves (has_camera cam) (producers_failed rtspUrl cameraId videoT audioT).
Proof.
  unfold producers_failed, state_of.
  repeat first [apply has_camera_arm_retry | camera_step].
Qed.

Lemma has_camera_begin (cam rtspUrl cameraId : string) :
  preserves (has_camera cam) (startRTSPStream_begin rtspUrl cameraId).
Proof. unfold startRTSPStream_begin. repeat camera_step. Qed.

Lemma has_camera_resume (cam rtspUrl cameraId : string) (at_ : Awaits)
    (a : StreamAnswers) :
  preserves (has_camera cam) (startRTSPStream_resume rtspUrl cameraId at_ a).
Proof.
  unfold startRTSPStream_resume.
  destruct at_;
    repeat first [apply has_camera_arm_retry | apply has_camera_producers_failed
                 | camera_step].
Qed.

Lemma has_camera_retry_resume (cam cameraId rtspUrl : string) (ok : bool) :
  preserves (has_camera cam) (retry_resume cameraId rtspUrl ok).
Proof.
  unfold retry_resume, state_of.
  repeat first [apply has_camera_begin | camera_step].
Qed.

Lemma has_camera_launch (cam : string) (urls : list string) (i : nat) :
  preserves (has_camera cam) (launch_streams i urls).
Proof.
  revert i. induction urls as [|url urls IH]; intros i; simpl.
  - apply preserves_ret.
  - repeat first [apply has_camera_begin | apply IH | camera_step].
Qed.

Lemma has_camera_start_begin (cam : string) : preserves (has_camera cam) start_begin.
Proof. unfold start_begin. repeat camera_step. Qed.

Lemma has_camera_start_resume (cam : string) (created : option Router) :
  preserves (has_camera cam) (start_resume created).
Proof.
  unfold start_resume. repeat first [apply has_camera_launch | camera_step].
Qed.

Lemma has_camera_stop (cam : string) : preserves (has_camera cam) stop.
Proof. intros c Hc. by rewrite stop_spec. Qed.

Lemma has_camera_ffmpeg_close (cam cameraId rtspUrl : string) (code : option Z) :
  preserves (has_camera cam) (ffmpeg_close cameraId rtspUrl code).
Proof.
  unfold ffmpeg_close.
  repeat first [apply has_camera_arm_retry | camera_step].
Qed.

(** *** The retry timers stay tracked *)

Ltac tracked_step :=
  lazymatch goal with
  | |- preserves _ (answered _) => apply preserves_answered
  | |- _ => preserves_step
  end.

Lemma producers_failed_tracked (rtspUrl cameraId : string) (videoT audioT : Transport) :
  preserves (tracked_with cameraId) (producers_failed rtspUrl cameraId videoT audioT).
Proof. unfold producers_failed, state_of. repeat tracked_step. Qed.

Lemma begin_tracked (rtspUrl cameraId : string) :
  hoare timers_tracked (startRTSPStream_begin rtspUrl cameraId)
    (λ _, tracked_with cameraId) (tracked_with cameraId).
Proof.
  unfold startRTSPStream_begin.
  apply hoare_try_catch with (E' := tracked_with cameraId);
    [|intros x; by apply hoare_ret].
  eapply hoare_bind; [apply hoare_gets|]. intros known.
  eapply hoare_bind; [apply ensure_state_tracked|]. intros ?.
  by apply hoare_ret.
Qed.

Lemma resume_tracked (rtspUrl cameraId : string) (at_ : Awaits) (a : StreamAnswers) :
  preserves (tracked_with cameraId) (startRTSPStream_resume rtspUrl cameraId at_ a).
Proof.
  unfold startRTSPStream_resume.
  destruct at_; repeat first [apply producers_failed_tracked | tracked_step].
Qed.

Lemma unarm_spec (cameraId : string) (c : BridgeCtx) :
  (st <- state_of cameraId ;;
   clearInterval (retryTimer st) ;;
   update_state cameraId (with_retryTimer None)) c
  = (unarmed cameraId c,
     close_if ClearInterval
       (retryTimer (default empty_state (routers (bridge c) !! cameraId))),
     inr tt).
Proof.
  destruct c as [b [l n]]. unfold state_of, clearInterval, update_state, unarmed.
  js_unfold. unfold set_bridge, with_routers, cleared, close_if. simpl.
  by destruct (retryTimer (default empty_state (routers b !! cameraId))).
Qed.

Lemma unarmed_tracked (cameraId : string) (c : BridgeCtx) :
  timers_tracked c →
  timers_tracked (unarmed cameraId c) ∧
  timers_of cameraId (loop (unarmed cameraId c)) = [] ∧
  (∀ x, timer_cameraId x ≠ cameraId →
        x ∈ intervals (loop (unarmed cameraId c)) ↔ x ∈ intervals (loop c)).
Proof.
  intros Hc. pose proof Hc as (Hnd & Hlt & Href & Hback).
  unfold unarmed.
  set (h := retryTimer (default empty_state (routers (bridge c) !! cameraId))).
  assert (Hown : ∀ x, x ∈ cleared h (intervals (loop c)) →
                      timer_cameraId x ≠ cameraId).
  { intros x [Hx Hne]%cleared_subseteq Heq. apply Hne. unfold h.
    by rewrite (tracked_camera_timers c cameraId x Hc Hx Heq). }
  assert (Hkeep : ∀ x, x ∈ intervals (loop c) → timer_cameraId x ≠ cameraId →
                       x ∈ cleared h (intervals (loop c))).
  { intros x Hx Hne. apply cleared_keeps; [done|].
    by apply tracked_foreign_timer. }
  clearbody h.
  split; [|split].
  - unfold timers_tracked. simpl.
    split; [by apply cleared_NoDup|]. split; [|split].
    + intros x [Hx _]%cleared_subseteq. by apply Hlt.
    + intros x Hx. pose proof (Hown x Hx) as Hne.
      apply cleared_subseteq in Hx as [Hx _].
      destruct (Href x Hx) as (st' & Hst' & Hid). exists st'. split; [|done].
      destruct (routers (bridge c) !! cameraId); [|done].
      by rewrite lookup_insert_ne.
    + intros cam st' t.
      destruct (routers (bridge c) !! cameraId) as [st0|] eqn:Hst0.
      * destruct (decide (cameraId = cam)) as [<-|Hne].
        -- rewrite lookup_insert_eq. by intros [= <-].
        -- rewrite lookup_insert_ne by done. intros Hst' Ht.
           destruct (Hback cam st' t Hst' Ht) as (x & Hx & Hid & Hcam).
           exists x. split; [|done]. apply Hkeep; [done|congruence].
      * intros Hst' Ht.
        destruct (Hback cam st' t Hst' Ht) as (x & Hx & Hid & Hcam).
        exists x. split; [|done]. apply Hkeep; [done|]. congruence.
  - unfold timers_of. simpl. apply filter_none.
    intros x Hx Heq. by apply (Hown x Hx).
  - intros x Hne. simpl. split.
    + by intros [Hx _]%cleared_subseteq.
    + intros Hx. by apply Hkeep.
Qed.

Lemma retry_resume_spec (cameraId rtspUrl : string) (c : BridgeCtx) :
  retry_resume cameraId rtspUrl true c
  = let '(c', es, r) := startRTSPStream_begin rtspUrl cameraId (unarmed cameraId c) in
    (c', close_if ClearInterval
           (retryTimer (default empty_state (routers (bridge c) !! cameraId))) ++ es,
     r).
Proof.
  unfold retry_resume. cbn [negb].
  generalize (startRTSPStream_begin rtspUrl cameraId). intros m.
  destruct c as [b [l n]]. unfold state_of, clearInterval, update_state, unarmed.
  js_unfold. unfold set_bridge, with_routers, cleared, close_if. simpl.
  destruct (retryTimer (default empty_state (routers b !! cameraId))); simpl;
    by destruct (m _) as [[c3 es] r].
Qed.

Lemma retry_resume_tracked (cameraId rtspUrl : string) (ok : bool) :
  hoare timers_tracked (retry_resume cameraId rtspUrl ok)
    (λ _, timers_tracked) timers_tracked.
Proof.
  destruct ok; [|by apply hoare_ret].
  intros c Hc. rewrite retry_resume_spec.
  destruct (unarmed_tracked cameraId c Hc) as [Hun _].
  pose proof (begin_tracked rtspUrl cameraId (unarmed cameraId c) Hun) as Hb.
  destruct (startRTSPStream_begin rtspUrl cameraId (unarmed cameraId c))
    as [[c3 e3] [x3|a3]]; by destruct Hb.
Qed.

Lemma launch_tracked (urls : list string) (i : nat) :
  preserves timers_tracked (launch_streams i urls).
Proof.
  revert i. induction urls as [|url urls IH]; intros i; simpl.
  - apply preserves_ret.
  - apply preserves_bind.
    + eapply hoare_conseq;
        [apply begin_tracked|done|by intros ? ? [? ?]|by intros ? [? ?]].
    + intros ?. apply preserves_bind; [apply IH|]. intros ?. apply preserves_ret.
Qed.

Lemma start_begin_tracked : preserves timers_tracked start_begin.
Proof.
  unfold start_begin.
  repeat first [apply set_bridge_timers_tracked; intros []; reflexivity
               | tracked_step].
Qed.

Lemma start_resume_tracked (created : option Router) :
  preserves timers_tracked (start_resume created).
Proof.
  unfold start_resume.
  repeat first [apply launch_tracked
               | apply set_bridge_timers_tracked; intros []; reflexivity
               | tracked_step].
Qed.

(** *** The producers stay tracked *)

Ltac produced_step :=
  lazymatch goal with
  | |- preserves _ (answered _) => apply preserves_answered
  | |- preserves _ (bind (answered ?o) _) =>
      apply preserves_bind; [apply preserves_answered|intros ?]
  | |- _ => producers_step
  end.

Lemma producers_failed_producers_tracked (rtspUrl cameraId : string)
    (videoT audioT : Transport) :
  preserves (producers_tracked_with cameraId)
    (producers_failed rtspUrl cameraId videoT audioT).
Proof. unfold producers_failed, arm_retry, state_of. repeat produced_step. Qed.

Lemma begin_producers_tracked (rtspUrl cameraId : string) :
  hoare producers_tracked (startRTSPStream_begin rtspUrl cameraId)
    (λ _, producers_tracked_with cameraId) (producers_tracked_with cameraId).
Proof.
  unfold startRTSPStream_begin.
  apply hoare_try_catch with (E' := producers_tracked_with cameraId);
    [|intros x; by apply hoare_ret].
  eapply hoare_bind; [apply hoare_gets|]. intros known.
  eapply hoare_bind; [apply ensure_state_producers_tracked|]. intros ?.
  by apply hoare_ret.
Qed.

Lemma resume_producers_tracked (rtspUrl cameraId : string) (at_ : Awaits)
    (a : StreamAnswers) :
  preserves (producers_tracked_with cameraId)
    (startRTSPStream_resume rtspUrl cameraId at_ a).
Proof.
  unfold startRTSPStream_resume.
  destruct at_; unfold arm_retry, state_of;
    repeat first [apply producers_failed_producers_tracked | produced_step].
Qed.

Lemma unarmed_producers_tracked (cameraId : string) (c : BridgeCtx) :
  producers_tracked c → producers_tracked (unarmed cameraId c).
Proof.
  intros Hc cam. destruct (Hc cam) as [Hv Ha]. unfold unarmed. simpl.
  destruct (routers (bridge c) !! cameraId) as [st0|] eqn:Hst0; [|done].
  destruct (decide (cameraId = cam)) as [<-|Hne].
  - rewrite lookup_insert_eq. split; intros Hkey.
    + destruct (Hv Hkey) as (st' & Hst' & Hp). eexists. split; [done|].
      simpl. by assert (st' = st0) as -> by congruence.
    + destruct (Ha Hkey) as (st' & Hst' & Hp). eexists. split; [done|].
      simpl. by assert (st' = st0) as -> by congruence.
  - by rewrite lookup_insert_ne.
Qed.

Lemma retry_resume_producers_tracked (cameraId rtspUrl : string) (ok : bool) :
  preserves producers_tracked (retry_resume cameraId rtspUrl ok).
Proof.
  destruct ok; [|by apply hoare_ret].
  intros c Hc. rewrite retry_resume_spec.
  pose proof (unarmed_producers_tracked cameraId c Hc) as Hun.
  pose proof (begin_producers_tracked rtspUrl cameraId (unarmed cameraId c) Hun) as Hb.
  destruct (startRTSPStream_begin rtspUrl cameraId (unarmed cameraId c))
    as [[c3 e3] [x3|a3]]; by destruct Hb.
Qed.

Lemma launch_producers_tracked (urls : list string) (i : nat) :
  preserves producers_tracked (launch_streams i urls).
Proof.
  revert i. induction urls as [|url urls IH]; intros i; simpl.
  - apply preserves_ret.
  - apply preserves_bind.
    + eapply hoare_conseq;
        [apply begin_producers_tracked|done|by intros ? ? [? ?]|by intros ? [? ?]].
    + intros ?. apply preserves_bind; [apply IH|]. intros ?. apply preserves_ret.
Qed.

Lemma start_begin_producers_tracked : preserves producers_tracked start_begin.
Proof.
  unfold start_begin.
  repeat first [apply preserves_modify; intros [[] ?] ?; assumption
               | produced_step].
Qed.

Lemma start_resume_producers_tracked (created : option Router) :
  preserves producers_tracked (start_resume created).
Proof.
  unfold start_resume.
  repeat first [apply launch_producers_tracked
               | apply preserves_modify; intros [[] ?] ?; assumption
               | produced_step].
Qed.

(** *** Every turn keeps the invariant *)

Lemma run_segment_ctx {A} (m : Js BridgeCtx A) (w : World) :
  bridge_ctx (run_segment m w).1.1 = (m (bridge_ctx w)).1.1 ∧
  (run_segment m w).1.2 = (m (bridge_ctx w)).1.2 ∧
  (run_segment m w).2 = (m (bridge_ctx w)).2.
Proof.
  unfold run_segment. destruct (m (bridge_ctx w)) as [[c es] r]. simpl.
  by destruct c.
Qed.

Lemma run_segment_hoare {A} (P E : BridgeCtx → Prop) (Q : A → BridgeCtx → Prop)
    (m : Js BridgeCtx A) (w : World) :
  hoare P m Q E → P (bridge_ctx w) →
  match (run_segment m w).2 with
  | inr a => Q a (bridge_ctx (run_segment m w).1.1)
  | inl _ => E (bridge_ctx (run_segment m w).1.1)
  end.
Proof.
  intros Hm Hw. destruct (run_segment_ctx m w) as (-> & _ & ->).
  specialize (Hm _ Hw). by destruct (m (bridge_ctx w)) as [[c es] [x|a]].
Qed.

Lemma run_segment_preserves {A} (I : BridgeCtx → Prop) (m : Js BridgeCtx A)
    (w : World) :
  preserves I m → I (bridge_ctx w) → I (bridge_ctx (run_segment m w).1.1).
Proof.
  intros Hm Hw. pose proof (run_segment_hoare I I (λ _, I) m w Hm Hw) as H.
  by destruct (run_segment m w).2.
Qed.

Lemma run_bridge_preserves (I : BridgeCtx → Prop) (m : Js BridgeCtx unit) (w : World) :
  preserves I m → I (bridge_ctx w) → I (bridge_ctx (run_bridge m w).1).
Proof. intros Hm Hw. rewrite run_bridge_ctx. by apply preserves_exec. Qed.

Lemma begin_has_camera (rtspUrl cameraId : string) :
  hoare (λ _, True) (startRTSPStream_begin rtspUrl cameraId)
    (λ _, has_camera cameraId) (has_camera cameraId).
Proof.
  unfold startRTSPStream_begin.
  apply hoare_try_catch with (E' := has_camera cameraId);
    [|intros x; by apply hoare_ret].
  eapply hoare_bind; [apply hoare_gets|]. intros known.
  eapply hoare_bind with (R := λ _, has_camera cameraId); [|intros ?; by apply hoare_ret].
  destruct known as [st|].
  - apply hoare_ret. intros c [_ Hst]. unfold has_camera. rewrite <- Hst. by eexists.
  - apply hoare_modify. intros [b l] _. unfold has_camera. simpl.
    rewrite lookup_insert_eq. by eexists.
Qed.

Lemma launched_have_camera (urls : list string) (i : nat) :
  hoare (λ _, True) (launch_streams i urls)
    (λ tasks c, ∀ t cameraId, t ∈ tasks → task_camera t = Some cameraId →
                              has_camera cameraId c)
    (λ _, True).
Proof.
  revert i. induction urls as [|url urls IH]; intros i; simpl.
  - apply hoare_ret. by intros c _ t cam ?%elem_of_nil.
  - eapply hoare_bind;
      [eapply hoare_conseq; [apply begin_has_camera|done|intros a c H; exact H|done]|].
    intros at_. intros c Hc. unfold bind.
    pose proof (IH (S i) c I) as Hrest.
    pose proof (has_camera_launch (cameraId_of i) urls (S i) c Hc) as Hkeep.
    destruct (launch_streams (S i) urls c) as [[c' es] [x|tasks]]; [done|].
    simpl. intros t cam [->|Hin]%elem_of_cons Hcam.
    + destruct at_; simpl in Hcam; [|done]. by injection Hcam as <-.
    + by apply (Hrest t).
Qed.

Lemma find_timer_Some (w : World) (t : nat) (x : RetryTimer) :
  find_timer w t = Some x → x ∈ intervals (timers w) ∧ timer_id x = t.
Proof.
  unfold find_timer. intros [Hin Hid]%find_some.
  split; [by apply list_elem_of_In|]. by apply bool_decide_eq_true in Hid.
Qed.

Lemma task_of_camera (rtspUrl cameraId cam : string) (r : Exn + option Awaits) :
  task_camera (task_of rtspUrl cameraId r) = Some cam → cam = cameraId.
Proof. destruct r as [x|[at_|]]; simpl; congruence. Qed.

Lemma turn_ok (s : Async) (t : Turn) : async_ok s → async_ok (turn s t).1.
Proof.
  intros (Htimers & Hproducers & Htasks).
  assert (Hkeep : ∀ {A} (m : Js BridgeCtx A),
            (∀ cam, preserves (has_camera cam) m) →
            ∀ t cam, t ∈ suspended s → task_camera t = Some cam →
                     has_camera cam (bridge_ctx (run_segment m (current s)).1.1)).
  { intros A m Hm t0 cam Hin Hcam. apply run_segment_preserves; [apply Hm|].
    by apply (Htasks t0). }
  assert (Hkeep' : ∀ (m : Js BridgeCtx unit),
            (∀ cam, preserves (has_camera cam) m) →
            ∀ t cam, t ∈ suspended s → task_camera t = Some cam →
                     has_camera cam (bridge_ctx (run_bridge m (current s)).1)).
  { intros m Hm t0 cam Hin Hcam. apply run_bridge_preserves; [apply Hm|].
    by apply (Htasks t0). }
  destruct t as [socketId cmd| | |timer|cameraId rtspUrl code|i created|i a]; simpl.
  - pose proof (run_socket_bridge socketId cmd (current s)) as Hb.
    destruct (run_socket socketId (handle cmd) (current s)) as [w es]. simpl in *.
    unfold async_ok. simpl. by rewrite Hb.
  - pose proof (run_segment_preserves _ start_begin (current s)
                  start_begin_tracked Htimers) as H1.
    pose proof (run_segment_preserves _ start_begin (current s)
                  start_begin_producers_tracked Hproducers) as H2.
    pose proof (Hkeep _ start_begin has_camera_start_begin) as H3.
    destruct (run_segment start_begin (current s)) as [[w es] r]. simpl in *.
    split; [done|]. split; [done|]. simpl.
    intros t0 cam [Hin|Hin]%elem_of_app Hcam; [by apply (H3 t0)|].
    destruct r as [x|[|]]; try by apply elem_of_nil in Hin.
    apply list_elem_of_singleton in Hin as ->. done.
  - pose proof (run_bridge_preserves _ stop (current s) stop_tracked Htimers) as H1.
    pose proof (run_bridge_preserves _ stop (current s)
                  stop_producers_tracked Hproducers) as H2.
    pose proof (Hkeep' stop has_camera_stop) as H3.
    by destruct (run_bridge stop (current s)) as [w es].
  - destruct (find_timer (current s) timer) as [x|] eqn:Hfind; [|done].
    apply find_timer_Some in Hfind as [Hx _].
    destruct Htimers as (Hnd & Hlt & Href & Hback).
    destruct (Href x Hx) as (st & Hst & _).
    unfold run_segment, retry_begin, gets. simpl.
    split; [|split]; simpl.
    + by destruct (current s) as [[] ? ?].
    + by destruct (current s) as [[] ? ?].
    + assert (Hsame : ∀ cam, has_camera cam (bridge_ctx (current s)) →
                has_camera cam
                  (bridge_ctx {| server := with_rtspBridge (rtspBridge (server (current s)))
                                              (server (current s));
                                 sockets := sockets (current s);
                                 timers := timers (current s) |})).
      { intros cam. by destruct (current s) as [[] ? ?]. }
      intros t0 cam [Hin|Hin]%elem_of_app Hcam; [by apply Hsame, (Htasks t0)|].
      destruct (isRunning (rtspBridge (server (current s))));
        [|by apply elem_of_nil in Hin].
      apply list_elem_of_singleton in Hin as ->. simpl in Hcam.
      injection Hcam as <-. apply Hsame. unfold has_camera. simpl.
      simpl in Hst. rewrite Hst. by eexists.
  - pose proof (run_bridge_preserves _ (ffmpeg_close cameraId rtspUrl code) (current s)
                  (ffmpeg_close_tracked _ _ _) Htimers) as H1.
    pose proof (run_bridge_preserves _ (ffmpeg_close cameraId rtspUrl code) (current s)
                  (ffmpeg_close_producers_tracked _ _ _) Hproducers) as H2.
    pose proof (Hkeep' (ffmpeg_close cameraId rtspUrl code)
                  (λ cam, has_camera_ffmpeg_close cam _ _ _)) as H3.
    by destruct (run_bridge (ffmpeg_close cameraId rtspUrl code) (current s))
      as [w es].
  - destruct (suspended s !! i) as [[| | |]|] eqn:Hi; try done.
    pose proof (run_segment_preserves _ (start_resume created) (current s)
                  (start_resume_tracked _) Htimers) as H1.
    pose proof (run_segment_preserves _ (start_resume created) (current s)
                  (start_resume_producers_tracked _) Hproducers) as H2.
    pose proof (Hkeep _ (start_resume created)
                  (λ cam, has_camera_start_resume cam _)) as H3.
    assert (H4 : match (run_segment (start_resume created) (current s)).2 with
                 | inr tasks =>
                     ∀ t cam, t ∈ tasks → task_camera t = Some cam →
                       has_camera cam
                         (bridge_ctx (run_segment (start_resume created) (current s)).1.1)
                 | inl _ => True
                 end).
    { apply (run_segment_hoare (λ _, True) (λ _, True)
               (λ tasks c, ∀ t cam, t ∈ tasks → task_camera t = Some cam →
                                    has_camera cam c)); [|done].
      unfold start_resume.
      apply hoare_try_catch with (E' := λ _, True).
      - eapply hoare_bind with (R := λ _ _, True);
          [by destruct created|]. intros router.
        eapply hoare_bind with (R := λ _ _, True); [done|]. intros ?.
        eapply hoare_bind with (R := λ _ _, True); [done|]. intros urls.
        apply launched_have_camera.
      - intros x. eapply hoare_bind with (R := λ _ _, True); [done|].
        intros ?. by apply hoare_throw. }
    destruct (run_segment (start_resume created) (current s)) as [[w es] r].
    simpl in *. split; [done|]. split; [done|]. simpl.
    intros t0 cam [Hin|Hin]%elem_of_app Hcam.
    + apply list_elem_of_lookup in Hin as [j Hj].
      destruct (decide (i = j)) as [<-|Hne].
      * rewrite list_lookup_insert_eq in Hj by (by eapply lookup_lt_Some).
        by injection Hj as <-.
      * rewrite list_lookup_insert_ne in Hj by done.
        apply (H3 t0); [|done]. by eapply list_elem_of_lookup_2.
    + destruct r as [x|tasks]; [by apply elem_of_nil in Hin|]. by apply (H4 t0).
  - destruct (suspended s !! i) as [[|rtspUrl cameraId at_|cameraId rtspUrl|]|] eqn:Hi;
      try done.
    + assert (Hcam : has_camera cameraId (bridge_ctx (current s))).
      { apply (Htasks (streaming rtspUrl cameraId at_)); [|done].
        by eapply list_elem_of_lookup_2. }
      pose proof (run_segment_preserves _
                    (startRTSPStream_resume rtspUrl cameraId at_ a) (current s)
                    (resume_tracked _ _ _ _) (conj Htimers Hcam)) as [H1 H1'].
      pose proof (run_segment_preserves _
                    (startRTSPStream_resume rtspUrl cameraId at_ a) (current s)
                    (resume_producers_tracked _ _ _ _) (conj Hproducers Hcam))
        as [H2 _].
      pose proof (Hkeep _ (startRTSPStream_resume rtspUrl cameraId at_ a)
                    (λ cam, has_camera_resume cam _ _ _ _)) as H3.
      destruct (run_segment _ (current s)) as [[w es] r].
      simpl in *. split; [done|]. split; [done|]. simpl.
      intros t0 cam Hin Hc. apply list_elem_of_lookup in Hin as [j Hj].
      destruct (decide (i = j)) as [<-|Hne].
      * rewrite list_lookup_insert_eq in Hj by (by eapply lookup_lt_Some).
        injection Hj as <-. apply task_of_camera in Hc as ->. done.
      * rewrite list_lookup_insert_ne in Hj by done.
        apply (H3 t0); [|done]. by eapply list_elem_of_lookup_2.
    + assert (Hcam : has_camera cameraId (bridge_ctx (current s))).
      { apply (Htasks (polling cameraId rtspUrl)); [|done].
        by eapply list_elem_of_lookup_2. }
      pose proof (run_segment_preserves _
                    (retry_resume cameraId rtspUrl (available a)) (current s)
                    (retry_resume_tracked _ _ _) Htimers) as H1.
      pose proof (run_segment_preserves _
                    (retry_resume cameraId rtspUrl (available a)) (current s)
                    (retry_resume_producers_tracked _ _ _) Hproducers) as H2.
      pose proof (Hkeep _ (retry_resume cameraId rtspUrl (available a))
                    (λ cam, has_camera_retry_resume cam _ _ _)) as H3.
      pose proof (run_segment_preserves _
                    (retry_resume cameraId rtspUrl (available a)) (current s)
                    (has_camera_retry_resume cameraId _ _ _) Hcam) as H4.
      destruct (run_segment _ (current s)) as [[w es] r].
      simpl in *. split; [done|]. split; [done|]. simpl.
      intros t0 cam Hin Hc. apply list_elem_of_lookup in Hin as [j Hj].
      destruct (decide (i = j)) as [<-|Hne].
      * rewrite list_lookup_insert_eq in Hj by (by eapply lookup_lt_Some).
        injection Hj as <-. apply task_of_camera in Hc as ->. done.
      * rewrite list_lookup_insert_ne in Hj by done.
        apply (H3 t0); [|done]. by eapply list_elem_of_lookup_2.
Qed.

Lemma turns_ok (ts : list Turn) (s : Async) : async_ok s → async_ok (turns s ts).1.
Proof.
  revert s. induction ts as [|t ts IH]; intros s Hs; simpl; [done|].
  pose proof (turn_ok s t Hs) as H1.
  destruct (turn s t) as [s1 es1]. specialize (IH s1 H1).
  by destruct (turns s1 ts) as [s2 es2].
Qed.

Lemma reached_ok (urls : list string) (s : Async) : reached urls s → async_ok s.
Proof.
  intros [ts ->]. apply turns_ok. split; [|split].
  - split; [constructor|].
    split; [|split]; [intros x Hx; by apply elem_of_nil in Hx..|].
    intros cam st t. simpl. by rewrite lookup_empty.
  - intros cam. simpl. split; by intros [? ?].
  - by intros t cam ?%elem_of_nil.
Qed.

Lemma turns_app (s : Async) (ts1 ts2 : list Turn) :
  (turns s (ts1 ++ ts2)).1 = (turns (turns s ts1).1 ts2).1.
Proof.
  revert s. induction ts1 as [|t ts1 IH]; intros s; simpl; [done|].
  destruct (turn s t) as [s1 es1]. specialize (IH s1).
  destruct (turns s1 (ts1 ++ ts2)) as [s2 es2].
  destruct (turns s1 ts1) as [s3 es3]. simpl in *.
  by destruct (turns s3 ts2).
Qed.

Lemma reached_turn (urls : list string) (s : Async) (t : Turn) :
  reached urls s → reached urls (turn s t).1.
Proof.
  intros [ts ->]. exists (ts ++ [t]). rewrite turns_app. simpl.
  by destruct (turn _ t).
Qed.

(** ** Exit of the transcoding process, with the awaits *)





(** ** An attempt that nothing interrupts *)

Lemma uninterrupted_attempt (rtspUrl cameraId : string) (a : StreamAnswers)
    (c : BridgeCtx) :
  (at_ <- startRTSPStream_begin rtspUrl cameraId ;;
   uninterrupted 6 rtspUrl cameraId at_ a) c
  = startRTSPStream rtspUrl cameraId a c.
Proof.
  destruct c as [b [l n]].
  destruct a as [av vt at_ sp stt vp ap].
  unfold startRTSPStream, startRTSPStream_begin, uninterrupted,
    startRTSPStream_resume, producers_failed, startFFmpegProcess, answered.
  cbn [available videoTransport_created audioTransport_created spawned started
       videoProducer_created audioProducer_created].
  unfold arm_retry, state_of, clearInterval, setInterval, update_state.
  js_unfold. unfold set_bridge, with_routers, with_ffmpegProcesses,
    with_bridge_producers. cbn [bridge loop routers fst snd].
  destruct (routers b !! cameraId) as [st|] eqn:Hst; cbn;
    destruct av; cbn; rewrite ?Hst, ?lookup_insert_eq; cbn;
    try (destruct (retryTimer st); cbn; rewrite ?Hst, ?lookup_insert_eq; reflexivity);
    try reflexivity.
  all: destruct vt as [videoT|]; cbn; [|reflexivity].
  all: destruct at_ as [audioT|]; cbn; [|reflexivity].
  all: rewrite ?Hst, ?lookup_insert_eq; cbn; rewrite ?lookup_insert_eq; cbn.
  all: destruct stt; cbn; [|reflexivity].
  all: rewrite ?lookup_insert_eq; cbn.
  all: destruct vp as [videoP|]; cbn;
    [destruct ap as [audioP|]; cbn|];
    rewrite ?lookup_insert_eq; cbn; rewrite ?lookup_insert_eq; cbn;
    try reflexivity.
  all: destruct (isRunning b); cbn; rewrite ?lookup_insert_eq; cbn;
    try reflexivity.
  all: try (destruct (retryTimer st); cbn; rewrite ?lookup_insert_eq; reflexivity).
Qed.

Lemma uninterrupted_retry (cameraId rtspUrl : string) (ok : bool)
    (a : StreamAnswers) (c : BridgeCtx) :
  (running <- retry_begin ;;
   if running
   then at_ <- retry_resume cameraId rtspUrl ok ;;
        uninterrupted 6 rtspUrl cameraId at_ a
   else ret tt) c
  = retry_tick cameraId rtspUrl ok a c.
Proof.
  pose proof (uninterrupted_attempt rtspUrl cameraId a) as Hrun.
  unfold retry_tick, retry_begin, retry_resume, state_of.
  unfold bind, gets, ret in *. cbv beta iota.
  destruct (isRunning (bridge c)); cbn [negb]; cbv beta iota; [|reflexivity].
  destruct ok; cbn [negb]; cbv beta iota; [|reflexivity].
  destruct (clearInterval _ c) as [[c1 e1] [x1|[]]]; [done|].
  destruct (update_state cameraId (with_retryTimer None) c1) as [[c2 e2] [x2|[]]];
    [done|].
  specialize (Hrun c2).
  destruct (startRTSPStream_begin rtspUrl cameraId c2) as [[c3 e3] [x3|at_]].
  - by rewrite <- Hrun.
  - destruct (uninterrupted 6 rtspUrl cameraId at_ a c3) as [[c4 e4] r4].
    rewrite <- Hrun. by rewrite !app_assoc.
Qed.

(** ** The retry callback, with its await *)

Lemma begin_spec (rtspUrl cameraId : string) (c : BridgeCtx) :
  startRTSPStream_begin rtspUrl cameraId c
  = (ensured cameraId c, [], inr (Some awaits_probe)).
Proof.
  unfold startRTSPStream_begin, ensured. js_unfold.
  by destruct (routers (bridge c) !! cameraId).
Qed.

Lemma ensured_has (cameraId : string) (c : BridgeCtx) :
  has_camera cameraId c → ensured cameraId c = c.
Proof. unfold has_camera, ensured. by intros [st ->]. Qed.

Lemma run_segment_eq {A} (m : Js BridgeCtx A) (w w' : World) (es : list Effect)
    (r : Exn + A) (c' : BridgeCtx) (es' : list Effect) (r' : Exn + A) :
  m (bridge_ctx w) = (c', es', r') →
  run_segment m w = (w', es, r) →
  rtspBridge (server w') = bridge c' ∧ timers w' = loop c' ∧ es = es' ∧ r = r' ∧
  rooms (server w') = rooms (server w) ∧ peers (server w') = peers (server w) ∧
  sockets w' = sockets w.
Proof. unfold run_segment. intros ->. by intros [= <- <- <-]. Qed.

Lemma run_segment_unchanged {A} (m : Js BridgeCtx A) (w : World) (r : Exn + A) :
  m (bridge_ctx w) = (bridge_ctx w, [], r) → run_segment m w = (w, [], r).
Proof. unfold run_segment. intros ->. by destruct w as [[] ? ?]. Qed.

(** X20: the callback of a retry interval awaits its probe, and the
    handlers of other events run in the meantime.  In every state the
    process reaches: when an armed interval fires, the callback changes
    and calls nothing, and it waits for its probe if the bridge runs.
    When the probe finds no stream, the callback ends there: nothing
    changes and nothing is called, whatever the interval that fired
    has become.  When the probe finds the stream, the callback clears
    the interval the camera object refers to at that moment, which need
    not be the one that fired, sets [retryTimer] to null and starts an
    attempt, which waits for its own probe; it does not look at the
    running flag again.  The camera has no armed interval then, the
    intervals of the other cameras are as before, and the processes and
    the producers of the bridge are untouched. *)
Theorem retry_success_stops_polling (urls : list string) (s : Async) :
  reached urls s →
  (∀ t x,
     find_timer (current s) t = Some x →
     turn s (turn_interval t)
     = ({| current := current s;
           suspended := suspended s ++
                        if isRunning (rtspBridge (server (current s)))
                        then [polling (timer_cameraId x) (timer_rtspUrl x)]
                        else [] |}, [])) ∧
  (∀ i cameraId rtspUrl a,
     suspended s !! i = Some (polling cameraId rtspUrl) →
     (available a = false →
      turn s (turn_answer i a)
      = ({| current := current s; suspended := <[i := settled]> (suspended s) |},
         [])) ∧
     (available a = true →
      ∀ s' es,
        turn s (turn_answer i a) = (s', es) →
        es = close_if ClearInterval (retryTimer (camera_state (current s) cameraId)) ∧
        timers_of cameraId (timers (current s')) = [] ∧
        routers (rtspBridge (server (current s'))) !! cameraId
        = Some (with_retryTimer None (camera_state (current s) cameraId)) ∧
        (∀ y, timer_cameraId y ≠ cameraId →
              y ∈ intervals (timers (current s')) ↔
              y ∈ intervals (timers (current s))) ∧
        suspended s'
        = <[i := streaming rtspUrl cameraId awaits_probe]> (suspended s) ∧
        ffmpegProcesses (rtspBridge (server (current s')))
        = ffmpegProcesses (rtspBridge (server (current s))) ∧
        bridge_producers (rtspBridge (server (current s')))
        = bridge_producers (rtspBridge (server (current s))))).
Proof.
  intros Hreach. destruct (reached_ok urls s Hreach) as (Htimers & _ & Htasks).
  split.
  - intros t x Hfind. unfold turn. rewrite Hfind.
    rewrite (run_segment_unchanged retry_begin (current s)
               (inr (isRunning (rtspBridge (server (current s)))))) by done.
    by destruct (isRunning (rtspBridge (server (current s)))).
  - intros i cameraId rtspUrl a Hi. split.
    + intros Hav. unfold turn. rewrite Hi, Hav.
      by rewrite (run_segment_unchanged (retry_resume cameraId rtspUrl false)
                    (current s) (inr None)).
    + intros Hav s' es. unfold turn. rewrite Hi, Hav.
      assert (Hcam : has_camera cameraId (bridge_ctx (current s))).
      { apply (Htasks (polling cameraId rtspUrl)); [|done].
        by eapply list_elem_of_lookup_2. }
      pose proof (retry_resume_spec cameraId rtspUrl (bridge_ctx (current s))) as Hspec.
      rewrite begin_spec in Hspec.
      destruct (unarmed_tracked cameraId (bridge_ctx (current s)) Htimers)
        as (Hun & Hnone & Hothers).
      assert (Hcam' : has_camera cameraId (unarmed cameraId (bridge_ctx (current s)))).
      { destruct Hcam as [st Hst]. unfold has_camera, unarmed. simpl in *.
        rewrite Hst, lookup_insert_eq. by eexists. }
      rewrite (ensured_has _ _ Hcam') in Hspec. rewrite app_nil_r in Hspec.
      destruct (run_segment (retry_resume cameraId rtspUrl true) (current s))
        as [[w1 es1] r1] eqn:Hseg.
      destruct (run_segment_eq _ _ _ _ _ _ _ _ Hspec Hseg)
        as (Hb & Hl & -> & -> & _).
      intros [= <- <-]. simpl. rewrite Hb, Hl.
      split; [done|]. split; [done|]. split; [|split; [done|]].
      * destruct Hcam as [st Hst]. unfold unarmed, camera_state. simpl in *.
        by rewrite Hst, lookup_insert_eq.
      * done.
Qed.

Lemma retry_success_stops_polling_witness :
  turn async_ingesting (turn_interval 0)
  = ({| current := current async_ingesting;
        suspended := suspended async_ingesting ++
                     if isRunning (rtspBridge (server (current async_ingesting)))
                     then [polling "cam02" "rtsp://10.0.0.2/b"]
                     else [] |}, []) ∧
  timers_of "cam02"
    (timers (current (turn async_polling (turn_answer 3 answers_producing)).1)) = [].
Proof.
  split.
  - exact (proj1 (retry_success_stops_polling
                    ["rtsp://10.0.0.1/a"; "rtsp://10.0.0.2/b"] async_ingesting
                    (ex_intro _ _ eq_refl))
             0 {| timer_id := 0; timer_cameraId := "cam02";
                  timer_rtspUrl := "rtsp://10.0.0.2/b" |} eq_refl).
  - exact (proj1 (proj2 (proj2 (proj2 (retry_success_stops_polling
                    ["rtsp://10.0.0.1/a"; "rtsp://10.0.0.2/b"] async_polling
                    (reached_turn _ _ _ (ex_intro _ _ eq_refl)))
             3 "cam02" "rtsp://10.0.0.2/b" answers_producing eq_refl) eq_refl
             _ _ (surjective_pairing _)))).
Defined.

(** ** The start of the bridge, with its awaits *)

Lemma launch_spec (urls : list string) (i : nat) (c : BridgeCtx) :
  launch_streams i urls c = (launched i urls c, [], inr (launches i urls)).
Proof.
  revert i c. induction urls as [|url urls IH]; intros i c; [done|].
  cbn [launch_streams launched]. unfold bind at 1. rewrite begin_spec.
  unfold bind at 1. rewrite IH. unfold ret, launches. simpl.
  rewrite Nat.add_0_r. do 3 f_equal. apply imap_ext. intros k url' _. simpl.
  by rewrite Nat.add_succ_r.
Qed.

Lemma launched_setup (urls : list string) (i : nat) (c : BridgeCtx) :
  loop (launched i urls c) = loop c ∧
  isRunning (bridge (launched i urls c)) = isRunning (bridge c) ∧
  mainRouter (bridge (launched i urls c)) = mainRouter (bridge c) ∧
  rtspUrls (bridge (launched i urls c)) = rtspUrls (bridge c) ∧
  ffmpegProcesses (bridge (launched i urls c)) = ffmpegProcesses (bridge c) ∧
  bridge_producers (bridge (launched i urls c)) = bridge_producers (bridge c).
Proof.
  revert i c. induction urls as [|url urls IH]; intros i c; simpl; [done|].
  destruct (IH (S i) (ensured (cameraId_of i) c)) as (-> & -> & -> & -> & -> & ->).
  unfold ensured. by destruct (routers (bridge c) !! cameraId_of i).
Qed.

Lemma launched_objects (urls : list string) (i : nat) (c : BridgeCtx) :
  (∀ cam, has_camera cam c → has_camera cam (launched i urls c)) ∧
  (∀ k url, urls !! k = Some url →
            has_camera (cameraId_of (i + k)) (launched i urls c)) ∧
  ((∀ cam st, routers (bridge c) !! cam = Some st → st = empty_state) →
   ∀ cam st, routers (bridge (launched i urls c)) !! cam = Some st →
             st = empty_state).
Proof.
  revert i c. induction urls as [|url urls IH]; intros i c; simpl.
  { split; [done|]. split; [|done]. by intros k url' ?. }
  destruct (IH (S i) (ensured (cameraId_of i) c)) as (Hkeep & Hnew & Hempty).
  assert (Hens : ∀ cam, has_camera cam c → has_camera cam (ensured (cameraId_of i) c)).
  { intros cam Hcam. unfold ensured.
    destruct (routers (bridge c) !! cameraId_of i) eqn:Hi; [done|].
    unfold has_camera in *. simpl.
    destruct (decide (cameraId_of i = cam)) as [<-|Hne].
    - rewrite lookup_insert_eq. by eexists.
    - by rewrite lookup_insert_ne. }
  split; [|split].
  - intros cam Hcam. by apply Hkeep, Hens.
  - intros [|k] url'; simpl.
    + intros _. rewrite Nat.add_0_r. apply Hkeep. unfold has_camera.
      rewrite ensured_lookup. by eexists.
    + intros Hk. rewrite Nat.add_succ_r. by apply (Hnew k url').
  - intros Hc. apply Hempty. intros cam st. unfold ensured.
    destruct (routers (bridge c) !! cameraId_of i) eqn:Hi; [apply Hc|]. simpl.
    destruct (decide (cameraId_of i = cam)) as [<-|Hne].
    + rewrite lookup_insert_eq. by intros [= <-].
    + rewrite lookup_insert_ne by done. apply Hc.
Qed.

Lemma start_resume_spec (router : Router) (c : BridgeCtx) :
  start_resume (Some router) c
  = (launched 0 (take maxCams (rtspUrls (bridge c)))
       (set_bridge (with_mainRouter (Some router)) c),
     [], inr (launches 0 (take maxCams (rtspUrls (bridge c))))).
Proof.
  unfold start_resume, answered. js_unfold.
  change (rtspUrls (bridge (set_bridge (with_mainRouter (Some router)) c)))
    with (rtspUrls (bridge c)).
  by rewrite launch_spec.
Qed.

(** The bridge of a new process when [start()] has launched its
    attempts *)
Lemma start_of_new_bridge (urls : list string) (router : Router) :
  let c0 := {| bridge := with_mainRouter (Some router)
                           (with_isRunning true (new_bridge urls));
               loop := {| intervals := []; next_timer := 0 |} |} in
  let c1 := launched 0 (take maxCams urls) c0 in
  run_segment start_begin (new_world urls)
  = ({| server := with_rtspBridge (with_isRunning true (new_bridge urls))
                    (new_server urls);
        sockets := ∅; timers := {| intervals := []; next_timer := 0 |} |},
     [CreateRouter], inr true) ∧
  run_segment (start_resume (Some router))
    {| server := with_rtspBridge (with_isRunning true (new_bridge urls))
                   (new_server urls);
       sockets := ∅; timers := {| intervals := []; next_timer := 0 |} |}
  = ({| server := with_rtspBridge (bridge c1) (new_server urls);
        sockets := ∅; timers := {| intervals := []; next_timer := 0 |} |},
     [], inr (launches 0 (take maxCams urls))) ∧
  ∀ created : option Router,
    created = None →
    run_segment (start_resume created)
      {| server := with_rtspBridge (with_isRunning true (new_bridge urls))
                     (new_server urls);
         sockets := ∅; timers := {| intervals := []; next_timer := 0 |} |}
    = ({| server := new_server urls; sockets := ∅;
          timers := {| intervals := []; next_timer := 0 |} |}, [], inl Rejected).
Proof.
  intros c0 c1. split; [done|]. split.
  - unfold run_segment. rewrite start_resume_spec.
    pose proof (proj1 (launched_setup (take maxCams urls) 0 c0)) as Hloop.
    cbn -[launched launches take].
    change (set_bridge _ (bridge_ctx _)) with c0. by rewrite Hloop.
  - by intros created ->.
Qed.

Lemma turns_of_start (urls : list string) (router : Router) :
  let c0 := {| bridge := with_mainRouter (Some router)
                           (with_isRunning true (new_bridge urls));
               loop := {| intervals := []; next_timer := 0 |} |} in
  turns (new_async urls) [turn_start; turn_router 0 (Some router)]
  = ({| current := {| server := with_rtspBridge
                                  (bridge (launched 0 (take maxCams urls) c0))
                                  (new_server urls);
                      sockets := ∅;
                      timers := {| intervals := []; next_timer := 0 |} |};
        suspended := settled :: launches 0 (take maxCams urls) |}, [CreateRouter]).
Proof.
  intros c0.
  destruct (start_of_new_bridge urls router) as (Hbegin & Hresume & _).
  cbn [turns]. unfold turn at 1. cbn [new_async current suspended].
  rewrite Hbegin. cbn [app]. unfold turn. cbn [current suspended lookup].
  change ([starting] !! 0) with (Some starting).
  by rewrite Hresume.
Qed.

Lemma resume_no_signal_spec (rtspUrl cameraId : string) (a : StreamAnswers)
    (st : CameraState) (c : BridgeCtx) :
  available a = false →
  routers (bridge c) !! cameraId = Some st →
  startRTSPStream_resume rtspUrl cameraId awaits_probe a c
  = (rearmed cameraId rtspUrl st c, rearm_effects cameraId rtspUrl st c, inr None).
Proof.
  intros Hav Hst. unfold startRTSPStream_resume. rewrite Hav. cbn [negb].
  unfold try_catch, bind, ret. rewrite (arm_retry_spec _ _ _ _ Hst).
  by rewrite app_nil_r.
Qed.

Lemma rtspUrls_of_trimmed (env : option string) (url : string) :
  url ∈ rtspUrls_of env → Str.trim url ≠ EmptyString.
Proof. unfold rtspUrls_of. by intros [? _]%list_elem_of_filter. Qed.

(** X26: the bridge takes its URLs from [RTSP_URLS], split at the
    commas, the fields that are blank after trimming being dropped
    (none is left when the variable is unset or holds blank fields
    only).  [start()] on a new process creates the router and then
    calls [startRTSPStream] for the first six URLs at most, in their
    order, with the camera id [cameraId_of i] and the trimmed URL, which
    is not empty: every call gives its camera an empty object and is
    suspended at its probe when [start()] returns.  Nothing else has
    been called and no interval is armed yet.  The probes are answered
    later, in any order; in every state the process reaches, an attempt
    whose probe finds no stream arms one interval for its camera with
    the next free handle, clears the interval the camera object may
    refer to, and ends: the camera has exactly this interval then, the
    intervals of the other cameras, the processes and the producers are
    as before. *)
Theorem start_without_signal_polls_every_camera (env : option string)
    (router : Router) :
  let urls := take maxCams (rtspUrls_of env) in
  let started :=
    turns (new_async (rtspUrls_of env)) [turn_start; turn_router 0 (Some router)] in
  let s1 := started.1 in
  started.2 = [CreateRouter] ∧
  suspended s1 = settled :: launches 0 urls ∧
  length urls ≤ maxCams ∧
  timers (current s1) = {| intervals := []; next_timer := 0 |} ∧
  isRunning (rtspBridge (server (current s1))) = true ∧
  mainRouter (rtspBridge (server (current s1))) = Some router ∧
  (∀ i url, urls !! i = Some url →
     Str.trim url ≠ EmptyString ∧
     routers (rtspBridge (server (current s1))) !! cameraId_of i = Some empty_state) ∧
  ((∀ field, field ∈ str_split "," (default "" env) →
             Str.trim field = EmptyString) →
   suspended s1 = [settled]) ∧
  (∀ s i rtspUrl cameraId a s' es,
     reached (rtspUrls_of env) s →
     suspended s !! i = Some (streaming rtspUrl cameraId awaits_probe) →
     available a = false →
     turn s (turn_answer i a) = (s', es) →
     let st := camera_state (current s) cameraId in
     let new := next_interval (current s) cameraId rtspUrl in
     es = close_if ClearInterval (retryTimer st) ++
          [SetInterval (timer_id new) cameraId rtspUrl] ∧
     timers_of cameraId (timers (current s')) = [new] ∧
     (∀ x, timer_cameraId x ≠ cameraId →
           x ∈ intervals (timers (current s')) ↔ x ∈ intervals (timers (current s))) ∧
     routers (rtspBridge (server (current s'))) !! cameraId
     = Some (with_retryTimer (Some (timer_id new)) st) ∧
     suspended s' = <[i := settled]> (suspended s) ∧
     ffmpegProcesses (rtspBridge (server (current s')))
     = ffmpegProcesses (rtspBridge (server (current s))) ∧
     bridge_producers (rtspBridge (server (current s')))
     = bridge_producers (rtspBridge (server (current s)))).
Proof.
  intros urls started s1.
  set (c0 := {| bridge := with_mainRouter (Some router)
                            (with_isRunning true (new_bridge (rtspUrls_of env)));
                loop := {| intervals := []; next_timer := 0 |} |}).
  assert (Hstarted :
    started
    = ({| current := {| server := with_rtspBridge (bridge (launched 0 urls c0))
                                    (new_server (rtspUrls_of env));
                        sockets := ∅;
                        timers := {| intervals := []; next_timer := 0 |} |};
          suspended := settled :: launches 0 urls |}, [CreateRouter])).
  { apply turns_of_start. }
  subst s1. rewrite Hstarted. clear Hstarted started.
  cbn [fst snd current suspended server rtspBridge with_rtspBridge timers].
  destruct (launched_setup urls 0 c0) as (_ & Hrun & Hmain & _).
  destruct (launched_objects urls 0 c0) as (_ & Hnew & Hempty).
  split; [done|]. split; [done|].
  split; [unfold urls; rewrite length_take; lia|].
  split; [done|]. split; [done|]. split; [done|]. split; [|split].
  - intros i url Hi. split.
    + apply (rtspUrls_of_trimmed env). apply lookup_take_Some in Hi as [Hi _].
      by eapply list_elem_of_lookup_2.
    + destruct (Hnew i url Hi) as [st Hst]. simpl in Hst.
      rewrite Hst. f_equal.
      apply (Hempty (λ cam st' H, False_ind _ (lookup_empty_Some cam st' H)) _ _ Hst).
  - intros Hblank.
    assert (Hnil : rtspUrls_of env = []).
    { unfold rtspUrls_of. apply filter_none. intros field Hin Hne.
      by apply Hne, Hblank. }
    unfold urls. by rewrite Hnil.
  - intros s i rtspUrl cameraId a s' es Hreach Hi Hav. unfold turn. rewrite Hi.
    destruct (reached_ok _ s Hreach) as (Htimers & _ & Htasks).
    assert (Hcam : has_camera cameraId (bridge_ctx (current s))).
    { apply (Htasks (streaming rtspUrl cameraId awaits_probe)); [|done].
      by eapply list_elem_of_lookup_2. }
    destruct Hcam as [st Hst].
    pose proof (resume_no_signal_spec rtspUrl cameraId a st (bridge_ctx (current s))
                  Hav Hst) as Hspec.
    destruct (run_segment _ (current s)) as [[w1 es1] r1] eqn:Hseg.
    destruct (run_segment_eq _ _ _ _ _ _ _ _ Hspec Hseg) as (Hb & Hl & -> & -> & _).
    intros [= <- <-]. cbn [current suspended task_of].
    unfold camera_state. simpl in Hst. rewrite Hst. cbn [default from_option id].
    rewrite Hb, Hl.
    destruct (rearmed_timers cameraId rtspUrl st (bridge_ctx (current s)) Htimers)
      as [Hone Hothers]; [simpl; by rewrite Hst|].
    split; [done|]. split; [done|]. split; [done|].
    split; [simpl; by rewrite lookup_insert_eq|]. done.
Qed.

Lemma start_without_signal_witness :
  let s := (turns (new_async (rtspUrls_of (Some "rtsp://10.0.0.1/a, rtsp://10.0.0.2/b")))
              [turn_start; turn_router 0 (Some router1)]).1 in
  timers_of "cam02" (timers (current (turn s (turn_answer 2 answers_no_signal)).1))
  = [next_interval (current s) "cam02" "rtsp://10.0.0.2/b"].
Proof.
  exact (proj1 (proj2
           (proj2 (proj2 (proj2 (proj2 (proj2 (proj2 (proj2 (proj2
              (start_without_signal_polls_every_camera
                 (Some "rtsp://10.0.0.1/a, rtsp://10.0.0.2/b") router1))))))))
              _ 2 "rtsp://10.0.0.2/b" "cam02" answers_no_signal _ _
              (ex_intro _ [turn_start; turn_router 0 (Some router1)] eq_refl)
              eq_refl eq_refl (surjective_pairing _)))).
Defined.

(** ** The start of the process *)

(** X29: [SFUServer.start()] on the process as it is constructed first
    creates the worker, then starts the bridge if and only if
    [RTSP_BRIDGE_ENABLED] is exactly ["true"], and then listens on
    [PORT] and [HOST] or their defaults.  If the worker cannot be
    created, or the bridge is to be started and its router cannot be
    created, the process exits with code 1 and never listens; the
    running flag of the bridge is cleared again.  Otherwise the server
    listens in the turn in which the start of the bridge returns:
    [start()] of the bridge has then called [startRTSPStream] for the
    first six cameras at most, and every one of these calls is
    suspended at its probe.  No probe has been answered, no transport,
    process or interval exists yet, so no camera keeps the server from
    listening.  With the bridge disabled nothing of the bridge is
    called or changed. *)
Theorem server_start_outcomes (bridgeEnabled port host minPort maxPort : option string)
    (urls : list string) (workerCreated : option Worker)
    (createRouter : option Router) :
  let p := new_process urls minPort maxPort in
  let create := Engine (CreateWorker (port_setting minPort 10000)
                          (port_setting maxPort 10100)) in
  let listen := Listen (env_or port "3000") (env_or host "0.0.0.0") in
  let started := sfu_start bridgeEnabled port host workerCreated createRouter p in
  let p' := started.1 in
  let es := started.2 in
  let b' := rtspBridge (server (current (async p'))) in
  match workerCreated with
  | None => es = [create; Exit 1] ∧ p' = p
  | Some w =>
      worker (mediasoup p') = Some w ∧
      if bool_decide (bridgeEnabled = Some "true") then
        match createRouter with
        | None =>
            es = [create; Handler CreateRouter; Exit 1] ∧
            current (async p') = new_world urls
        | Some router =>
            es = [create; Handler CreateRouter; listen] ∧
            async p'
            = (turns (async p) [turn_start; turn_router 0 (Some router)]).1 ∧
            suspended (async p') = settled :: launches 0 (take maxCams urls) ∧
            timers (current (async p')) = {| intervals := []; next_timer := 0 |} ∧
            ffmpegProcesses b' = JsMap.empty ∧
            bridge_producers b' = JsMap.empty ∧
            isRunning b' = true ∧
            mainRouter b' = Some router
        end
      else es = [create; listen] ∧ async p' = async p
  end.
Proof.
  intros p create listen started p' es b'.
  subst b' es p' started p. unfold sfu_start, service_init.
  destruct workerCreated as [w|]; [|done].
  cbn [mediasoup new_process async rtcMinPort rtcMaxPort new_service].
  case_bool_decide; [|done].
  change (async (new_process urls minPort maxPort)) with (new_async urls).
  change (current (new_async urls)) with (new_world urls).
  change (suspended (new_async urls)) with (@nil Task).
  destruct createRouter as [router|].
  - destruct (start_of_new_bridge urls router) as (Hbegin & Hresume & _).
    rewrite Hbegin, Hresume.
    cbn [fst snd mediasoup worker async current suspended app].
    set (c0 := {| bridge := with_mainRouter (Some router)
                              (with_isRunning true (new_bridge urls));
                  loop := {| intervals := []; next_timer := 0 |} |}).
    destruct (launched_setup (take maxCams urls) 0 c0)
      as (_ & Hrun & Hmain & _ & Hprocs & Hprods).
    split; [done|]. split; [done|]. split.
    { by rewrite turns_of_start. }
    split; [done|]. split; [done|].
    cbn [server rtspBridge with_rtspBridge].
    by rewrite Hrun, Hmain, Hprocs, Hprods.
  - destruct (start_of_new_bridge urls router0) as (Hbegin & _ & Hreject).
    rewrite Hbegin, (Hreject None eq_refl). done.
Qed.
